(** * A shallow embedding of the puppetcpp compiler core

    The development follows the layout of the sources:

    - [Int64]        64-bit two's complement integers, as [Z] with explicit wrap-around;
    - [Multiply]     [runtime/operators/multiply.cc];
    - [Formatter]    the integer conversions of [runtime/utility/formatter.cc];
    - [Node]         [compiler/node.cc], the candidate names of a node;
    - [Registry]     [compiler/registry.cc], node definitions;
    - [Evaluation]   [compiler/evaluation/context.cc];
    - [FormatMap]    [runtime/utility/format_map.cc];
    - [Lexer]        the heredoc rules of [lexer/lexer.hpp].

    Exceptions are modelled by a sum type: a C++ function that may throw
    returns [result E A]. *)

From Stdlib Require Import ZArith Lia List Ascii String Bool Permutation Sorted.
From Stdlib Require DecimalString.
From stdpp Require Import base option list gmap strings.

Local Open Scope Z_scope.

Set Warnings "-register-all".

(** ** Exceptions *)

Inductive result (E A : Type) : Type :=
| Ok (a : A)
| Raise (e : E).
Arguments Ok {E A} a.
Arguments Raise {E A} e.

Definition is_ok {E A} (r : result E A) : bool :=
  match r with Ok _ => true | Raise _ => false end.

Definition is_raise {E A} (r : result E A) : bool :=
  match r with Ok _ => false | Raise _ => true end.

Definition bind {E A B} (r : result E A) (k : A -> result E B) : result E B :=
  match r with
  | Ok a => k a
  | Raise e => Raise e
  end.

Notation "'let*' x ':=' c1 'in' c2" := (bind c1 (fun x => c2))
  (at level 10, x name, c1 at level 100, c2 at level 200).

(** ** 64-bit integers *)

Module Int64.

Definition max : Z := 2 ^ 63 - 1.
Definition min : Z := - 2 ^ 63.

Definition in_range (z : Z) : Prop := min <= z <= max.

Definition in_rangeb (z : Z) : bool := (min <=? z) && (z <=? max).

(** The value an [int64_t] holds after an arithmetic result [z] is stored in it. *)
Definition wrap (z : Z) : Z := (z + 2 ^ 63) mod 2 ^ 64 - 2 ^ 63.

(** [static_cast<uint64_t>] of an [int64_t]. *)
Definition to_uint64 (z : Z) : Z := z mod 2 ^ 64.

(** [static_cast<uint32_t>] of an unsigned value. *)
Definition to_uint32 (z : Z) : Z := z mod 2 ^ 32.

(** The [int] an [int64_t] narrows to when it is passed to a parameter of
    type [int]: the value modulo 2^32, in the range of [int]. *)
Definition to_int (z : Z) : Z := (z + 2 ^ 31) mod 2 ^ 32 - 2 ^ 31.

End Int64.

(** ** [runtime/operators/multiply.cc] *)

Module Multiply.

(** A position in the source text (offset, line). *)
Record position := { offset : N; line : N }.

Definition sample_position : position := {| offset := 4; line := 1 |}.

Inductive arithmetic_fault := overflow | underflow.

(** The exception [evaluator.create_exception(position, message)] builds:
    the message is "multiplication of %1% and %2% results in an arithmetic
    overflow/underflow." *)
Record evaluation_exception := {
  where_ : position;
  fault : arithmetic_fault;
  left_operand : Z;
  right_operand : Z
}.

(** [multiply_visitor::operator()(int64_t left, int64_t right)];
    [/] on [int64_t] truncates toward zero, which is [Z.quot]. *)
Definition multiply (left_position : position) (left right : Z)
  : result evaluation_exception Z :=
  let throw f := Raise {| where_ := left_position; fault := f;
                          left_operand := left; right_operand := right |} in
  if right >? 0 then
    if left >? Int64.max ÷ right then throw overflow
    else if left <? Int64.min ÷ right then throw underflow
    else Ok (Int64.wrap (left * right))
  else if right <? -1 then
    if left >? Int64.min ÷ right then throw underflow
    else if left <? Int64.max ÷ right then throw overflow
    else Ok (Int64.wrap (left * right))
  else if right =? -1 then
    if left =? Int64.min then throw overflow
    else Ok (Int64.wrap (left * right))
  else Ok (Int64.wrap (left * right)).

End Multiply.

(** ** [runtime/utility/formatter.cc]: the integer [c] conversion *)

Module Formatter.

(** Bytes are 8-bit values held in [Z]. *)
Definition octets := list Z.

(** The exceptions of the UTF-8 library (utfcpp) the formatter calls. *)
Inductive utf8_exception :=
| invalid_code_point (cp : Z)
| invalid_utf8 (octet : Z).

Inductive format_exception :=
| exceeds_code_point_range (value : Z)
| not_a_valid_code_point (value : Z)
| unsupported_format (type : Z)
| escaped (e : utf8_exception).

(** utfcpp's [utf8::internal::is_surrogate] and [is_code_point_valid]. *)
Definition is_surrogate (cp : Z) : bool := (0xd800 <=? cp) && (cp <=? 0xdfff).

Definition is_code_point_valid (cp : Z) : bool :=
  (cp <=? 0x10ffff) && negb (is_surrogate cp).

(** utfcpp's checked [utf8::append]: the UTF-8 encoding of one code point. *)
Definition append (cp : Z) (out : octets) : result utf8_exception octets :=
  if negb (is_code_point_valid cp) then Raise (invalid_code_point cp)
  else if cp <? 0x80 then Ok (out ++ [cp])
  else if cp <? 0x800 then
    Ok (out ++ [Z.lor (Z.shiftr cp 6) 0xc0; Z.lor (Z.land cp 0x3f) 0x80])
  else if cp <? 0x10000 then
    Ok (out ++ [Z.lor (Z.shiftr cp 12) 0xe0;
                Z.lor (Z.land (Z.shiftr cp 6) 0x3f) 0x80;
                Z.lor (Z.land cp 0x3f) 0x80])
  else
    Ok (out ++ [Z.lor (Z.shiftr cp 18) 0xf0;
                Z.lor (Z.land (Z.shiftr cp 12) 0x3f) 0x80;
                Z.lor (Z.land (Z.shiftr cp 6) 0x3f) 0x80;
                Z.lor (Z.land cp 0x3f) 0x80]).

(** utfcpp's [utf8::utf32to8] over a range of code points. *)
Fixpoint utf32to8 (cps : list Z) (out : octets) : result utf8_exception octets :=
  match cps with
  | [] => Ok out
  | cp :: rest => let* out' := append cp out in utf32to8 rest out'
  end.

(** The part of [utility::format] the string output reads. *)
Record format := {
  type : Z;
  width : Z;
  precision : Z;
  left_justify : bool;
  zero_pad : bool
}.

(** The format [%c]: no width, precision -1. *)
Definition percent_c : format :=
  {| type := 99; width := 0; precision := -1; left_justify := false; zero_pad := false |}.

(** [format_visitor::format(string const&)]: the string, cut at the
    precision ([static_cast<size_t>] of -1 is the largest size, so nothing
    is cut), padded to the width with the fill character on the side the
    justification leaves free.  The width is an [int64_t] that goes through
    [std::setw(int)]: the stream pads to the [int] it narrows to, and does
    not pad when that is not more than the length of the text. *)
Definition format_string (f : format) (str : octets) : octets :=
  let precision := precision f mod 2 ^ 64 in
  let shown := if precision <? Z.of_nat (length str)
               then take (Z.to_nat precision) str else str in
  let fill := if zero_pad f then 48 else 32 in
  let padding :=
    replicate (Z.to_nat (Int64.to_int (width f) - Z.of_nat (length shown))) fill in
  if left_justify f then shown ++ padding else padding ++ shown.

(** The [case 'c'] of [format_visitor::operator()(int64_t value)]. *)
Definition format_integer_c (f : format) (value : Z) : result format_exception octets :=
  let high := Int64.to_uint32 (Z.shiftr (Int64.to_uint64 value) 32) in
  let low := Int64.to_uint32 (Z.land (Int64.to_uint64 value) (Z.shiftr 1 32)) in
  if negb (high =? 0) then Raise (exceeds_code_point_range value)
  else
    match utf32to8 [low] [] with
    | Ok str => Ok (format_string f str)
    | Raise (invalid_utf8 _) => Raise (not_a_valid_code_point value)
    | Raise e => Raise (escaped e)
    end.

(** What the conversion is documented to print: the UTF-8 encoding of the
    code point whose scalar value is the integer. *)
Definition code_point_text (f : format) (value : Z) : result utf8_exception octets :=
  let* str := append value [] in Ok (format_string f str).

End Formatter.

(** ** [compiler/node.cc]: the names of a node *)

Module Node.
Local Open Scope string_scope.
Local Open Scope nat_scope.

(** [boost::to_lower] in the classic locale: the 26 ASCII capitals. *)
Definition to_lower_char (c : ascii) : ascii :=
  let n := nat_of_ascii c in
  if (65 <=? n) && (n <=? 90) then ascii_of_nat (n + 32) else c.

Fixpoint to_lower (s : string) : string :=
  match s with
  | EmptyString => EmptyString
  | String c rest => String (to_lower_char c) (to_lower rest)
  end.

Definition is_dot (c : ascii) : bool := Ascii.eqb c ".".

(** The tokens [boost::make_split_iterator(name, first_finder("."))] yields,
    each as the pair of offsets [(begin, end)] into [name]: the text between
    two dots, empty tokens included; [start] is where the current token
    began and [pos] the offset of the first character of [s]. *)
Fixpoint split_tokens (s : string) (start pos : nat) : list (nat * nat) :=
  match s with
  | EmptyString => [(start, pos)]
  | String c rest =>
      if is_dot c then (start, pos) :: split_tokens rest (S pos) (S pos)
      else split_tokens rest start (S pos)
  end.

(** [std::set<std::string>::emplace]: the set is kept in increasing order
    of [std::string]'s comparison, without duplicates. *)
Fixpoint emplace (x : string) (set : list string) : list string :=
  match set with
  | [] => [x]
  | y :: rest =>
      match String.compare x y with
      | Lt => x :: y :: rest
      | Eq => y :: rest
      | Gt => y :: emplace x rest
      end
  end.

(** [compiler::node], of which only the names matter here: the logger, the
    environment and the facts play no part in them.  The header that
    declares the member is not among the sources: [_names] is an ordered set
    of strings ([name()] returns "the last name in the set, which is always
    the most specific"), kept here as the list of its elements in increasing
    order. *)
Record node := { _names : list string }.

(** The body of the constructor's loop for one token. *)
Definition add_subname (name : string) (names : list string) (token : nat * nat)
  : list string :=
  if fst token =? snd token then names
  else emplace (to_lower (substring 0 (snd token) name)) names.

(** The hostname the loop builds from a token, if it builds one. *)
Definition token_subname (name : string) (token : nat * nat) : option string :=
  if fst token =? snd token then None else Some (substring 0 (snd token) name).

(** [node::node]: copy each subname of the node name. *)
Definition make_node (name : string) : node :=
  {| _names := fold_left (add_subname name) (split_tokens name 0 0) [] |}.

(** A callback of [each_name] threads a state of type [S] and answers
    whether the traversal goes on. *)
Fixpoint each_in {S : Type} (callback : string -> S -> S * bool)
    (names : list string) (st : S) : S :=
  match names with
  | [] => st
  | name :: rest =>
      let (st', continue) := callback name st in
      if continue then each_in callback rest st' else st'
  end.

(** [node::each_name]: the set is traversed backwards. *)
Definition each_name {S : Type} (n : node) (callback : string -> S -> S * bool)
    (st : S) : S :=
  each_in callback (rev (_names n)) st.

(** The prefixes of [pre ++ s] that end where a non-empty component of [s]
    ends, shortest first; [pre] is what was read already and [nonempty]
    tells whether the component being read has a character yet. *)
Fixpoint subnames_from (pre : string) (nonempty : bool) (s : string) : list string :=
  match s with
  | EmptyString => if nonempty then [pre] else []
  | String c rest =>
      if is_dot c
      then ((if nonempty then [pre] else []) ++ subnames_from (pre ++ ".") false rest)%list
      else subnames_from (pre ++ String c "") true rest
  end.

Definition subnames (name : string) : list string := subnames_from "" false name.

Fixpoint ends_in_dot (s : string) : bool :=
  match s with
  | EmptyString => false
  | String c rest =>
      match rest with
      | EmptyString => is_dot c
      | _ => ends_in_dot rest
      end
  end.

(** What follows the end of a component: nothing, or a dot. *)
Definition boundary (s : string) : Prop := s = "" \/ exists rest, s = String "." rest.

(** [q] is a prefix of [name] made of whole components, the last of which
    is not empty. *)
Definition subname (name q : string) : Prop :=
  exists rest, name = q ++ rest /\ q <> "" /\ ends_in_dot q = false /\ boundary rest.

(** [q] extends [p] by at least one character. *)
Definition proper_prefix (p q : string) : Prop := exists r, r <> "" /\ q = p ++ r.

(** [q] is a prefix of [name] made of whole components. *)
Definition dot_prefix (name q : string) : Prop :=
  exists rest, name = q ++ rest /\ boundary rest.

(** The names in the order [each_name] visits them. *)
Definition visited (n : node) : list string :=
  rev (each_name n (fun name seen => (name :: seen, true)) []).

End Node.

(** ** [compiler/registry.cc]: node definitions *)

(** The regular expression engine behind [values::regex]. *)
Class RegexEngine := {
  regex : Type;
  (* the constructor, which throws on an invalid pattern *)
  regex_new : string -> option regex;
  regex_pattern : regex -> string;
  (* regex::search: whether the expression matches somewhere in the text *)
  regex_search : regex -> string -> bool
}.

Module Registry.
Local Open Scope string_scope.
Local Open Scope nat_scope.

(** [ast::hostname]: the default keyword, a regex literal or a name. *)
Inductive hostname :=
| host_default
| host_regex (pattern : string)
| host_name (name : string).

Definition is_regex (h : hostname) : bool :=
  match h with host_regex _ => true | _ => false end.

Definition is_default (h : hostname) : bool :=
  match h with host_default => true | _ => false end.

Definition to_string (h : hostname) : string :=
  match h with
  | host_default => "default"
  | host_regex p => p
  | host_name n => n
  end.

Record node_statement := { hostnames : list hostname; body : nat }.

Record node_definition := { statement : node_statement }.

Inductive parse_exception := invalid_regular_expression (pattern : string).

Section WithEngine.
Context {engine : RegexEngine}.

Record registry := {
  _nodes : list node_definition;
  _named_nodes : gmap string nat;
  _regex_nodes : list (regex * nat);
  _default_node_index : option nat
}.

Definition empty : registry :=
  {| _nodes := []; _named_nodes := ∅; _regex_nodes := [];
     _default_node_index := None |}.

(** The first regex of [_regex_nodes] that is found in [name]. *)
Definition search_regexes (rs : list (regex * nat)) (name : string)
  : option (regex * nat) :=
  List.find (fun kvp => regex_search (fst kvp) name) rs.

(** The callback [find_node] hands to [each_name]; the state is the pair
    [(definition, node_name)]. *)
Definition find_node_callback (r : registry) (name : string)
    (st : option nat * string) : (option nat * string) * bool :=
  match _named_nodes r !! name with
  | Some index => ((Some index, name), false)
  | None =>
      match search_regexes (_regex_nodes r) name with
      | Some (rx, index) => ((Some index, "/" ++ regex_pattern rx ++ "/"), false)
      | None => (st, true)
      end
  end.

(** [registry::find_node(compiler::node const&)]; a definition is given
    by its index in [_nodes]. *)
Definition find_node (r : registry) (n : Node.node) : option nat * string :=
  match _nodes r with
  | [] => (None, "")
  | _ =>
      match Node.each_name n (find_node_callback r) (None, "") with
      | (Some definition, node_name) => (Some definition, node_name)
      | (None, _) =>
          match _default_node_index r with
          | None => (None, "")
          | Some index => (Some index, "default")
          end
      end
  end.

(** [registry::find_node(ast::node_statement const&)]: a definition that
    would conflict with the statement. *)
Fixpoint find_conflict (r : registry) (hosts : list hostname) : option nat :=
  match hosts with
  | [] => None
  | host_default :: rest =>
      match _default_node_index r with
      | Some index => Some index
      | None => find_conflict r rest
      end
  | host_regex name :: rest =>
      match List.find (fun existing => String.eqb (regex_pattern (fst existing)) name)
                      (_regex_nodes r) with
      | Some (_, index) => Some index
      | None => find_conflict r rest
      end
  | host_name name :: rest =>
      match _named_nodes r !! name with
      | Some index => Some index
      | None => find_conflict r rest
      end
  end.

(** The first loop of [register_node]: create all the regexes. *)
Fixpoint create_regexes (hosts : list hostname) : result parse_exception (list regex) :=
  match hosts with
  | [] => Ok []
  | host_regex p :: rest =>
      match regex_new p with
      | None => Raise (invalid_regular_expression p)
      | Some rx => let* rxs := create_regexes rest in Ok (rx :: rxs)
      end
  | _ :: rest => create_regexes rest
  end.

(** [unordered_map::emplace]: an existing key keeps its value. *)
Definition map_emplace (k : string) (v : nat) (m : gmap string nat) : gmap string nat :=
  match m !! k with
  | Some _ => m
  | None => <[k := v]> m
  end.

(** The second loop of [register_node], over the hostnames of the added node. *)
Definition add_hostname (node_index : nat) (acc : gmap string nat * option nat)
    (h : hostname) : gmap string nat * option nat :=
  match h with
  | host_regex _ => acc
  | host_default => (fst acc, Some node_index)
  | host_name name => (map_emplace (Node.to_lower name) node_index (fst acc), snd acc)
  end.

(** [registry::register_node]: the conflicting definition if there is one,
    and the registry afterwards. *)
Definition register_node (nd : node_definition) (r : registry)
  : result parse_exception (option nat * registry) :=
  match find_conflict r (hostnames (statement nd)) with
  | Some existing => Ok (Some existing, r)
  | None =>
      let* regexes := create_regexes (hostnames (statement nd)) in
      let nodes := (_nodes r ++ [nd])%list in
      let node_index := length nodes - 1 in
      let '(named, default) :=
        fold_left (add_hostname node_index) (hostnames (statement nd))
                  (_named_nodes r, _default_node_index r) in
      Ok (None,
          {| _nodes := nodes;
             _named_nodes := named;
             _regex_nodes := (_regex_nodes r ++ map (fun rx => (rx, node_index)) regexes)%list;
             _default_node_index := default |})
  end.

(** No hostname of the registry, literal or regex, matches [name]. *)
Definition unmatched (r : registry) (name : string) : Prop :=
  _named_nodes r !! name = None /\
  Forall (fun kvp => regex_search (fst kvp) name = false) (_regex_nodes r).

(** The order the specification words: every literal hostname first, then
    the regex patterns, then the default clause. *)
Definition find_node_literals_first (r : registry) (n : Node.node)
  : option nat * string :=
  match _nodes r with
  | [] => (None, "")
  | _ =>
      let names := rev (Node._names n) in
      match List.find (fun name => bool_decide (is_Some (_named_nodes r !! name))) names with
      | Some name => (_named_nodes r !! name, name)
      | None =>
          match omap (search_regexes (_regex_nodes r)) names with
          | (rx, index) :: _ => (Some index, "/" ++ regex_pattern rx ++ "/")
          | [] =>
              match _default_node_index r with
              | None => (None, "")
              | Some index => (Some index, "default")
              end
          end
      end
  end.

End WithEngine.

(** ** An engine for patterns without metacharacters

    For a pattern that is plain text, searching is looking for the pattern
    as a substring. *)
Fixpoint occurs (p s : string) : bool :=
  String.prefix p s ||
  match s with
  | EmptyString => false
  | String _ rest => occurs p rest
  end.

Definition plain_engine : RegexEngine :=
  {| regex := string;
     regex_new := fun p => Some p;
     regex_pattern := fun p => p;
     regex_search := occurs |}.

Definition node_named (hosts : list hostname) : node_definition :=
  {| statement := {| hostnames := hosts; body := 0 |} |}.

(** [node 'foo' {}] and [node /bar/ {}], registered in this order. *)
Definition two_nodes : result parse_exception (option nat * @registry plain_engine) :=
  let* r1 := register_node (node_named [host_name "foo"]) (@empty plain_engine) in
  register_node (node_named [host_regex "bar"]) (snd r1).

(** The registry [two_nodes] builds. *)
Definition two_nodes_registry : @registry plain_engine :=
  match two_nodes with
  | Ok (_, r) => r
  | Raise _ => @empty plain_engine
  end.

(** [node 'Foo.Example.COM' {}] registered in an empty registry. *)
Definition mixed_case_node : node_definition := node_named [host_name "Foo.Example.COM"].

Definition mixed_case_registry : @registry plain_engine :=
  match register_node mixed_case_node (@empty plain_engine) with
  | Ok (_, r) => r
  | Raise _ => @empty plain_engine
  end.

End Registry.

(** ** [compiler/evaluation/context.cc] *)

Module Evaluation.
Local Open Scope string_scope.
Local Open Scope nat_scope.

Definition MAX_STACK_DEPTH : nat := 1000.

(** [const size_t max_iterations] of [context::finalize]. *)
Definition max_iterations : nat := 1000.

(** [types::resource]: a resource type name and a title. *)
Record resource_type := { type_name : string; title : string }.

#[global] Instance resource_type_eq_dec : EqDecision resource_type.
Proof. solve_decision. Defined.

(** The runtime values attributes hold. *)
Inductive value :=
| v_undef
| v_string (s : string)
| v_integer (z : Z)
| v_array (elements : list value).

Definition is_undef (v : value) : bool :=
  match v with v_undef => true | _ => false end.

Definition as_string (v : value) : option string :=
  match v with v_string s => Some s | _ => None end.

(** [ast::context], reduced to the file and line it points at. *)
Record ast_context := { path : string; line : nat }.

Definition no_context : ast_context := {| path := ""; line := 0 |}.

Inductive attribute_operator := assignment | append.

Record attribute := {
  attribute_name : string;
  attribute_value : value;
  name_context : ast_context;
  value_context : ast_context
}.

(** [compiler::resource]; a container is given by its index in the catalog. *)
Record resource := {
  type : resource_type;
  container : option nat;
  virtualized : bool;
  attributes : list attribute
}.

Definition get (r : resource) (name : string) : option attribute :=
  List.find (fun a => String.eqb (attribute_name a) name) (attributes r).

(** Modelled from the spec: [resource::set] is missing from the sources;
    [=>] assigns, replacing the attribute of that name or adding it. *)
Fixpoint assign (a : attribute) (l : list attribute) : list attribute :=
  match l with
  | [] => [a]
  | b :: rest =>
      if String.eqb (attribute_name b) (attribute_name a) then a :: rest
      else b :: assign a rest
  end.

Definition set (r : resource) (a : attribute) : resource :=
  {| type := type r; container := container r; virtualized := virtualized r;
     attributes := assign a (attributes r) |}.

Definition elements_of (v : value) : list value :=
  match v with
  | v_array l => l
  | v_undef => []
  | other => [other]
  end.

(** Modelled from the spec: [resource::append] is missing from the sources;
    [+>] appends to the array the attribute holds. *)
Definition append_attribute (r : resource) (a : attribute) : resource :=
  match get r (attribute_name a) with
  | None => set r a
  | Some previous =>
      set r {| attribute_name := attribute_name a;
               attribute_value :=
                 v_array (elements_of (attribute_value previous)
                            ++ elements_of (attribute_value a))%list;
               name_context := name_context a;
               value_context := value_context a |}
  end.

Inductive relationship := contains | before | require | notify | subscribe.

Record catalog := {
  resources : list resource;
  edges : list (relationship * nat * nat)
}.

(** Modelled from the spec: [catalog::find] is missing from the sources;
    a resource is identified by its type name and title, and the catalog
    holds at most one resource per identity. *)
Definition find (c : catalog) (ty : resource_type) : option nat :=
  fst <$> list_find (fun r => type r = ty) (resources c).



Definition update (c : catalog) (index : nat) (r : resource) : catalog :=
  {| resources := <[index := r]> (resources c); edges := edges c |}.

(** [evaluation::scope]: the parent scope and the associated resource. *)
Inductive scope := Scope (parent : option scope) (scope_resource : option nat).

Record stack_frame := {
  frame_name : string;
  frame_scope : option scope;
  external : bool
}.

Inductive failure :=
| maximum_stack_depth_reached (name : string)
| catalog_not_available
| class_not_defined (name : string)
| expected_string_for_stage
| stage_does_not_exist (stage : string)
| resource_does_not_exist (ty : resource_type)
| cannot_change_attribute (action name : string) (ty : resource_type)
| maximum_defined_type_evaluations_exceeded
| other (message : string).

(** [evaluation_exception]: the message, the source context and the
    backtrace. *)
Record evaluation_exception := {
  what : failure;
  where_ : ast_context;
  backtrace_ : list stack_frame
}.

Record resource_override := {
  override_type : resource_type;
  override_context : ast_context;
  override_attributes : list (attribute_operator * attribute);
  override_scope : option scope
}.

(** [registry::normalize]. *)
Definition normalize (name : string) : string :=
  Node.to_lower (if String.prefix "::" name then substring 2 (String.length name - 2) name
                 else name).

(** The walk of [resource_override::evaluate] up the parent scopes, from
    [parent]: whether a scope below the top scope is associated with the
    container of the resource. *)
Fixpoint contained_in (owner : option nat) (parent : scope) : bool :=
  match parent with
  | Scope None _ => false
  | Scope (Some above) associated =>
      match associated with
      | Some r => if bool_decide (owner = Some r) then true else contained_in owner above
      | None => contained_in owner above
      end
  end.

Definition may_override (o : resource_override) (r : resource) : bool :=
  match override_scope o with
  | None => true
  | Some (Scope None _) => false
  | Some (Scope (Some parent) _) => contained_in (container r) parent
  end.

(** The first attribute of the override the resource has already. *)
Fixpoint conflict (r : resource) (l : list (attribute_operator * attribute))
  : option (attribute_operator * attribute * attribute) :=
  match l with
  | [] => None
  | (oper, a) :: rest =>
      match get r (attribute_name a) with
      | None => conflict r rest
      | Some previous => Some (oper, a, previous)
      end
  end.

Definition action (oper : attribute_operator) (a : attribute) : string :=
  match oper with
  | assignment => if is_undef (attribute_value a) then "remove" else "set"
  | append => "append"
  end.

Definition apply_attribute (r : resource) (pair : attribute_operator * attribute)
  : resource :=
  match fst pair with
  | assignment => set r (snd pair)
  | append => append_attribute r (snd pair)
  end.

Section ContextModel.
(** The registry entities, the collectors and the relationships, with
    the evaluators that run them, are those of the rest of the compiler. *)
Context {klass defined_type collector resource_relationship : Type}.

Record declared_defined_type := {
  declared_resource : nat;
  definition : defined_type
}.

(** [evaluation::context]. *)
Record context := {
  _node : option Node.node;
  _catalog : option catalog;
  _call_stack : list stack_frame;
  _match_stack : list (option (list value));
  _classes : gset string;
  _collectors : list collector;
  _defined_types : list declared_defined_type;
  _relationships : list resource_relationship;
  (* the pairs of the multimap, in the order of iteration *)
  _overrides : list (resource_type * resource_override)
}.

(** The state a member function leaves, with the value it returns or the
    exception it throws. *)
Inductive outcome (A : Type) : Type :=
| Done (a : A) (ctx : context)
| Thrown (e : evaluation_exception) (ctx : context).
Arguments Done {A} a ctx.
Arguments Thrown {A} e ctx.

Definition action_ (A : Type) : Type := context -> outcome A.

Definition ret {A} (a : A) : action_ A := fun ctx => Done a ctx.

Definition and_then {A B} (m : action_ A) (k : A -> action_ B) : action_ B :=
  fun ctx =>
    match m ctx with
    | Done a ctx' => k a ctx'
    | Thrown e ctx' => Thrown e ctx'
    end.

Definition state_of {A} (o : outcome A) : context :=
  match o with Done _ ctx => ctx | Thrown _ ctx => ctx end.

Definition is_done {A} (o : outcome A) : bool :=
  match o with Done _ _ => true | Thrown _ _ => false end.

(** [context::backtrace]: the call stack, innermost frame first. *)
Definition backtrace (ctx : context) : list stack_frame := rev (_call_stack ctx).

Definition throw {A} (f : failure) (at_ : ast_context) : action_ A :=
  fun ctx => Thrown {| what := f; where_ := at_; backtrace_ := backtrace ctx |} ctx.

Definition with_catalog (ctx : context) (c : catalog) : context :=
  {| _node := _node ctx; _catalog := Some c; _call_stack := _call_stack ctx;
     _match_stack := _match_stack ctx; _classes := _classes ctx;
     _collectors := _collectors ctx; _defined_types := _defined_types ctx;
     _relationships := _relationships ctx; _overrides := _overrides ctx |}.

Definition with_call_stack (ctx : context) (stack : list stack_frame) : context :=
  {| _node := _node ctx; _catalog := _catalog ctx; _call_stack := stack;
     _match_stack := _match_stack ctx; _classes := _classes ctx;
     _collectors := _collectors ctx; _defined_types := _defined_types ctx;
     _relationships := _relationships ctx; _overrides := _overrides ctx |}.

Definition with_match_stack (ctx : context) (stack : list (option (list value)))
  : context :=
  {| _node := _node ctx; _catalog := _catalog ctx; _call_stack := _call_stack ctx;
     _match_stack := stack; _classes := _classes ctx;
     _collectors := _collectors ctx; _defined_types := _defined_types ctx;
     _relationships := _relationships ctx; _overrides := _overrides ctx |}.


Definition with_overrides (ctx : context)
    (overrides : list (resource_type * resource_override)) : context :=
  {| _node := _node ctx; _catalog := _catalog ctx; _call_stack := _call_stack ctx;
     _match_stack := _match_stack ctx; _classes := _classes ctx;
     _collectors := _collectors ctx; _defined_types := _defined_types ctx;
     _relationships := _relationships ctx; _overrides := overrides |}.

(** [context::catalog]. *)
Definition the_catalog : action_ catalog :=
  fun ctx =>
    match _catalog ctx with
    | Some c => Done c ctx
    | None => throw catalog_not_available no_context ctx
    end.

(** *** Stack frames *)

(** [match_scope::match_scope] and [match_scope::~match_scope]. *)
Definition push_match_scope (ctx : context) : context :=
  with_match_stack ctx (_match_stack ctx ++ [None])%list.

Definition pop_match_scope (ctx : context) : context :=
  with_match_stack ctx (removelast (_match_stack ctx)).

(** [scoped_stack_frame::~scoped_stack_frame]. *)
Definition pop_frame (ctx : context) : context :=
  with_call_stack ctx (removelast (_call_stack ctx)).

(** The lifetime of a [scoped_stack_frame]: its constructor, the block
    [body] it is declared in, and the destructors, which run whether the
    block ends or throws.  When the constructor throws, only the
    [match_scope] base is destroyed. *)
Definition scoped_stack_frame {A} (frame : stack_frame) (body : action_ A)
  : action_ A :=
  fun ctx =>
    let entered := push_match_scope ctx in
    if MAX_STACK_DEPTH <? length (_call_stack entered) then
      Thrown {| what := maximum_stack_depth_reached (frame_name frame);
                where_ := no_context;
                backtrace_ := backtrace entered |}
             (pop_match_scope entered)
    else
      let pushed := with_call_stack entered (_call_stack entered ++ [frame])%list in
      match body pushed with
      | Done a ctx' => Done a (pop_match_scope (pop_frame ctx'))
      | Thrown e ctx' => Thrown e (pop_match_scope (pop_frame ctx'))
      end.

(** [n] frames nested in one another around [body]. *)
Fixpoint nested {A} (n : nat) (frame : stack_frame) (body : action_ A) : action_ A :=
  match n with
  | 0 => body
  | S k => scoped_stack_frame frame (nested k frame body)
  end.

(** A block that reports how deep the call stack is. *)
Definition depth : action_ nat := fun ctx => Done (length (_call_stack ctx)) ctx.

(** *** Overrides *)

(** [resource_override::evaluate]. *)
Definition evaluate_override (o : resource_override) : action_ unit :=
  fun ctx =>
    match _catalog ctx with
    | None => throw catalog_not_available no_context ctx
    | Some c =>
        match find c (override_type o) with
        | None => throw (resource_does_not_exist (override_type o))
                        (override_context o) ctx
        | Some index =>
            match resources c !! index with
            | None => throw (resource_does_not_exist (override_type o))
                            (override_context o) ctx
            | Some r =>
                match override_attributes o with
                | [] => Done tt ctx
                | attrs =>
                    match (if may_override o r then None else conflict r attrs) with
                    | Some (oper, a, previous) =>
                        throw (cannot_change_attribute (action oper a)
                                 (attribute_name a) (type r))
                              (name_context a) ctx
                    | None =>
                        Done tt (with_catalog ctx
                                   (update c index (fold_left apply_attribute attrs r)))
                    end
                end
            end
        end
    end.

Fixpoint evaluate_each_override (l : list (resource_type * resource_override))
  : action_ unit :=
  match l with
  | [] => ret tt
  | (_, o) :: rest => and_then (evaluate_override o) (fun _ => evaluate_each_override rest)
  end.

(** [context::evaluate_overrides]: the overrides stored for the resource
    are evaluated, in the order [equal_range] goes through them, which is
    their order in the container, and erased. *)
Definition evaluate_overrides (ty : resource_type) : action_ unit :=
  and_then the_catalog (fun _ =>
  fun ctx =>
    and_then
      (evaluate_each_override
         (List.filter (fun kvp => bool_decide (fst kvp = ty)) (_overrides ctx)))
      (fun _ ctx' =>
         Done tt (with_overrides ctx'
                    (List.filter (fun kvp => negb (bool_decide (fst kvp = ty)))
                                 (_overrides ctx'))))
      ctx).

(** The member [_overrides] is a [std::unordered_multimap] keyed by the
    resource type; the list holds its pairs in the order iteration goes
    through the container.  The container keeps the pairs of equal keys
    together, and [insert] of libstdc++ links a new pair in front of them:
    the overrides of one resource are met last-added first.  Where the
    first pair of a key goes depends on the hash of the key and on the
    buckets, which the sources do not fix: [bucket_begin] stands for that
    place. *)
Context (bucket_begin : resource_type -> list (resource_type * resource_override) -> nat).

Definition insert_override (kvp : resource_type * resource_override)
    (l : list (resource_type * resource_override))
  : list (resource_type * resource_override) :=
  let place :=
    match list_find (fun other => fst other = fst kvp) l with
    | Some (first_equal, _) => first_equal
    | None => bucket_begin (fst kvp) l
    end in
  (take place l ++ kvp :: drop place l)%list.

(** [context::add(resource_override)]. *)
Definition add_override (o : resource_override) : action_ unit :=
  and_then the_catalog (fun c =>
    match find c (override_type o) with
    | None => fun ctx =>
        Done tt (with_overrides ctx
                   (insert_override (override_type o, o) (_overrides ctx)))
    | Some _ =>
        and_then (evaluate_overrides (override_type o)) (fun _ => evaluate_override o)
    end).

(** *** The evaluators of the rest of the compiler *)

Record evaluators := {
  (* environment::find_class, by normalized name *)
  find_class_in_environment : string -> option klass;
  (* class_evaluator::evaluate of a class on its resource *)
  class_evaluate : klass -> nat -> action_ unit;
  (* defined_type_evaluator::evaluate *)
  defined_type_evaluate : defined_type -> nat -> action_ unit;
  (* collector::collect and collector::detect_uncollected *)
  collect : collector -> action_ unit;
  detect_uncollected : collector -> action_ unit;
  (* resource_relationship::evaluate *)
  relationship_evaluate : resource_relationship -> action_ unit
}.

Context (ev : evaluators).

(** The target of a stored override is in the catalog. *)
Definition declared (ctx : context) (kvp : resource_type * resource_override) : Prop :=
  exists c, _catalog ctx = Some c /\ is_Some (find c (override_type (snd kvp))).


(** [context::find_class]. *)
Definition find_class (ctx : context) (name : string) : option klass :=
  match _node ctx with
  | None => None
  | Some _ => find_class_in_environment ev name
  end.






(** *** Finalization *)

Definition is_virtualized (ctx : context) (index : nat) : bool :=
  match _catalog ctx with
  | Some c =>
      match resources c !! index with
      | Some r => virtualized r
      | None => false
      end
  | None => false
  end.

Fixpoint run_collectors (l : list collector) : action_ unit :=
  match l with
  | [] => ret tt
  | c :: rest => and_then (collect ev c) (fun _ => run_collectors rest)
  end.

(** The first half of [evaluate_defined_types]: the defined types that
    were virtual are evaluated when they no longer are, and leave the
    list. *)
Fixpoint evaluate_realized (l : list declared_defined_type)
  : action_ (list declared_defined_type) :=
  match l with
  | [] => ret []
  | declared :: rest => fun ctx =>
      if is_virtualized ctx (declared_resource declared) then
        and_then (evaluate_realized rest) (fun kept => ret (declared :: kept)) ctx
      else
        and_then (defined_type_evaluate ev (definition declared)
                                        (declared_resource declared))
                 (fun _ => evaluate_realized rest) ctx
  end.

(** The second half: the loop [for (; index < size; ++index)], with
    [count] the number of turns left. *)
Fixpoint evaluate_from (count index : nat) (virtual : list declared_defined_type)
  : action_ (nat * list declared_defined_type) :=
  match count with
  | 0 => ret (index, virtual)
  | S count' => fun ctx =>
      match _defined_types ctx !! index with
      | None => Done (index, virtual) ctx
      | Some declared =>
          if is_virtualized ctx (declared_resource declared) then
            evaluate_from count' (S index) (virtual ++ [declared])%list ctx
          else
            and_then (defined_type_evaluate ev (definition declared)
                                            (declared_resource declared))
                     (fun _ => evaluate_from count' (S index) virtual) ctx
      end
  end.

(** [context::evaluate_defined_types]. *)
Definition evaluate_defined_types (index : nat) (virtual : list declared_defined_type)
  : action_ (nat * list declared_defined_type) :=
  and_then (evaluate_realized virtual) (fun kept ctx =>
    evaluate_from (length (_defined_types ctx) - index) index kept ctx).

(** The condition that ends the loop of [finalize]. *)
Definition nothing_left (ctx : context) (index : nat)
    (virtual : list declared_defined_type) : bool :=
  (length (_defined_types ctx) <=? index) &&
  forallb (fun declared => is_virtualized ctx (declared_resource declared)) virtual.

(** The loop [while (true)] of [finalize]; [fuel] bounds the number of
    turns and [None] is the answer of a loop that has not ended when the
    fuel is spent.  A loop that ends answers its local variables: the
    number of turns it completed, the index and the virtual defined
    types. *)
Fixpoint finalize_loop (fuel iteration index : nat)
    (virtual : list declared_defined_type) (ctx : context)
  : option (outcome (nat * nat * list declared_defined_type)) :=
  match fuel with
  | 0 => None
  | S fuel' =>
      match run_collectors (_collectors ctx) ctx with
      | Thrown e ctx' => Some (Thrown e ctx')
      | Done _ ctx' =>
          if nothing_left ctx' index virtual
          then Some (Done (iteration, index, virtual) ctx')
          else
            match evaluate_defined_types index virtual ctx' with
            | Thrown e ctx'' => Some (Thrown e ctx'')
            | Done (index', virtual') ctx'' =>
                if max_iterations <=? iteration then
                  Some (throw maximum_defined_type_evaluations_exceeded no_context ctx'')
                else finalize_loop fuel' (S iteration) index' virtual' ctx''
            end
      end
  end.

Fixpoint detect_all (l : list collector) : action_ unit :=
  match l with
  | [] => ret tt
  | c :: rest => and_then (detect_uncollected ev c) (fun _ => detect_all rest)
  end.

Fixpoint evaluate_relationships (l : list resource_relationship) : action_ unit :=
  match l with
  | [] => ret tt
  | r :: rest => and_then (relationship_evaluate ev r) (fun _ => evaluate_relationships rest)
  end.

(** The end of [finalize]: the data is cleared. *)
Definition clear (ctx : context) : context :=
  {| _node := _node ctx; _catalog := _catalog ctx; _call_stack := _call_stack ctx;
     _match_stack := _match_stack ctx; _classes := ∅;
     _collectors := []; _defined_types := []; _relationships := [];
     _overrides := [] |}.

(** What [finalize] does after its loop and before the remaining
    overrides. *)
Definition after_loop : action_ unit :=
  fun ctx =>
    and_then (detect_all (_collectors ctx)) (fun _ ctx' =>
      evaluate_relationships (_relationships ctx') ctx') ctx.

(** "Evaluate any remaining overrides". *)
Definition remaining_overrides : action_ unit :=
  fun ctx => evaluate_each_override (_overrides ctx) ctx.

(** [context::finalize], with [fuel] turns for its loop. *)
Definition finalize_with (fuel : nat) (ctx : context) : option (outcome unit) :=
  match the_catalog ctx with
  | Thrown e ctx' => Some (Thrown e ctx')
  | Done _ ctx' =>
      match finalize_loop fuel 0 0 [] ctx' with
      | None => None
      | Some (Thrown e ctx'') => Some (Thrown e ctx'')
      | Some (Done _ ctx'') =>
          Some (and_then after_loop
                  (fun _ => and_then remaining_overrides
                                     (fun _ ctx3 => Done tt (clear ctx3)))
                  ctx'')
      end
  end.

(** The loop needs no more than [max_iterations + 1] turns. *)
Definition finalize (ctx : context) : option (outcome unit) :=
  finalize_with (S (S max_iterations)) ctx.

(** *** The loop of [finalize], turn by turn

    What the loop does is told here in the words of its comments, to be
    compared with the functions above. *)

(** The actions of the elements of a list are run one after the other,
    from [ctx] to [ctx'], and none throws. *)
Inductive each {X : Type} (step : X -> action_ unit)
  : list X -> context -> context -> Prop :=
| each_nil ctx : each step [] ctx ctx
| each_cons x l ctx mid ctx' :
    step x ctx = Done tt mid -> each step l mid ctx' -> each step (x :: l) ctx ctx'.



(** The local variables [index] and [virtualized] of [finalize], with the
    context. *)
Definition loop_state : Type := nat * list declared_defined_type * context.

(** One full turn of the loop: all the collectors of the context are run,
    something is left to evaluate, and the deferred defined types are
    evaluated. *)
Inductive turn : loop_state -> loop_state -> Prop :=
| turn_intro index virtual ctx collected index' virtual' ctx' :
    each (collect ev) (_collectors ctx) ctx collected ->
    nothing_left collected index virtual = false ->
    evaluate_defined_types index virtual collected = Done (index', virtual') ctx' ->
    turn (index, virtual, ctx) (index', virtual', ctx').



End ContextModel.

Arguments Done {_ _ _ A} a ctx.
Arguments Thrown {_ _ _ A} e ctx.

(** ** A small compilation, for the examples

    Classes and defined types are named by strings; there are no
    collectors and no relationships. *)

Definition sample_context : Type := @context string unit unit.

Definition main_stage : resource :=
  {| type := {| type_name := "stage"; title := "main" |}; container := None;
     virtualized := false; attributes := [] |}.

Definition main_frame : stack_frame :=
  {| frame_name := "<class main>"; frame_scope := Some (Scope None None);
     external := false |}.

(** The context of a node whose catalog holds [Stage[main]]. *)
Definition initial_context : sample_context :=
  {| _node := Some (Node.make_node "localhost");
     _catalog := Some {| resources := [main_stage]; edges := [] |};
     _call_stack := []; _match_stack := []; _classes := ∅;
     _collectors := []; _defined_types := []; _relationships := [];
     _overrides := [] |}.

(** An environment where the class [foo] is defined, with an empty body,
    and where the body of a defined type declares one more instance of the
    type. *)
Definition sample_evaluators : @evaluators string string unit unit :=
  {| find_class_in_environment :=
       fun name => if String.eqb name "foo" then Some name else None;
     class_evaluate := fun _ _ ctx => Done tt ctx;
     defined_type_evaluate := fun d index ctx =>
       Done tt {| _node := _node ctx; _catalog := _catalog ctx;
                  _call_stack := _call_stack ctx; _match_stack := _match_stack ctx;
                  _classes := _classes ctx; _collectors := _collectors ctx;
                  _defined_types :=
                    (_defined_types ctx
                       ++ [{| declared_resource := index; definition := d |}])%list;
                  _relationships := _relationships ctx;
                  _overrides := _overrides ctx |};
     collect := fun _ ctx => Done tt ctx;
     detect_uncollected := fun _ ctx => Done tt ctx;
     relationship_evaluate := fun _ ctx => Done tt ctx |}.

(** [File['/tmp/x'] { mode => '0600' }], for a file that is not declared. *)
Definition sample_override : resource_override :=
  {| override_type := {| type_name := "file"; title := "/tmp/x" |};
     override_context := {| path := "site.pp"; line := 3 |};
     override_attributes :=
       [(assignment, {| attribute_name := "mode"; attribute_value := v_string "0600";
                        name_context := {| path := "site.pp"; line := 3 |};
                        value_context := {| path := "site.pp"; line := 3 |} |})];
     override_scope := None |}.

Definition context_with_override : sample_context :=
  with_overrides initial_context [(override_type sample_override, sample_override)].

(** [File['/tmp/y'] { mode => '0644' }], for a file that is declared. *)
Definition declared_file : resource :=
  {| type := {| type_name := "file"; title := "/tmp/y" |}; container := None;
     virtualized := false; attributes := [] |}.

Definition declared_override : resource_override :=
  {| override_type := {| type_name := "file"; title := "/tmp/y" |};
     override_context := {| path := "site.pp"; line := 5 |};
     override_attributes :=
       [(assignment, {| attribute_name := "mode"; attribute_value := v_string "0644";
                        name_context := {| path := "site.pp"; line := 5 |};
                        value_context := {| path := "site.pp"; line := 5 |} |})];
     override_scope := None |}.

(** A context where two overrides are stored: one of a file that is in
    the catalog, and one of a file that is not. *)
Definition context_with_two_overrides : sample_context :=
  with_overrides
    (with_catalog initial_context {| resources := [main_stage; declared_file]; edges := [] |})
    [(override_type declared_override, declared_override);
     (override_type sample_override, sample_override)].



Definition tag (by_ : string) : attribute :=
  {| attribute_name := "tag"; attribute_value := v_string by_;
     name_context := no_context; value_context := no_context |}.




End Evaluation.

(** ** [runtime/utility/format_map.cc] *)

Module FormatMap.
Local Open Scope string_scope.

(** The alternatives of the variant [values::type]. *)
Inductive type_kind :=
| any | alias | array | boolean | callable | catalog_entry | klass | collection
| data | defaulted | enumeration | floating | hash | integer | iterable | iterator
| not_undef | numeric | optional | pattern | regexp | resource | runtime | scalar
| string_ | structure | tuple | type_ | undef | variant.

(** [numeric_limits<size_t>::max()]. *)
Definition size_max : N := (2 ^ 64 - 1)%N.

(** [get_type_rank]: the rank from lowest generality to highest. *)
Definition get_type_rank (k : type_kind) : N :=
  match k with
  | structure => 1
  | hash => 2
  | tuple => 3
  | array => 4
  | pattern => 5
  | enumeration => 6
  | string_ => 7
  | _ => size_max
  end%N.

Inductive format_exception :=
| expected_type_for_key
| expected_hash_or_string_for_value
| expected_string_for_value
| invalid_format (message : string).

(** *** [std::sort] *)

(** What [std::sort] requires of its comparison. *)
Definition strict_weak_order {A} (less : A -> A -> bool) : Prop :=
  (forall a, less a a = false) /\
  (forall a b c, less a b = true -> less b c = true -> less a c = true) /\
  (forall a b c, less a b = false -> less b a = false ->
                 less b c = false -> less c b = false ->
                 less a c = false /\ less c a = false).

(** No element is followed by one that is less than it. *)
Definition sorted_by {A} (less : A -> A -> bool) (l : list A) : Prop :=
  StronglySorted (fun a b => less b a = false) l.

(** The sort of the C++ library the compiler is built with. *)
Class Sorting := {
  std_sort : forall {A}, (A -> A -> bool) -> list A -> list A
}.

(** What the standard promises of [std::sort], to a comparison that is a
    strict weak order. *)
Definition meets_contract (sorting : Sorting) : Prop :=
  forall A (less : A -> A -> bool) l,
    strict_weak_order less ->
    Permutation (std_sort less l) l /\ sorted_by less (std_sort less l).

(** [std::sort] of libstdc++ runs [__introsort_loop], which partitions a
    range as long as it holds more than 16 elements ([_S_threshold]) and
    leaves a shorter one as it is, and then [__final_insertion_sort], which
    is [__insertion_sort] on a range of at most 16 elements.  The model is
    that insertion sort: it is the sort of the library for hashes of at most
    16 entries, and the partitioning of longer ranges is left out.
    [__unguarded_linear_insert] moves [x] from the end of the sorted range
    toward its front, past every element it is less than; the flag tells
    that [x] went past all of [l]. *)
Fixpoint unguarded_linear_insert {A} (less : A -> A -> bool) (x : A) (l : list A)
  : bool * list A :=
  match l with
  | [] => (true, [x])
  | y :: rest =>
      let (front, r) := unguarded_linear_insert less x rest in
      if front then
        if less x y then (true, x :: y :: rest) else (false, y :: r)
      else (false, y :: r)
  end.

(** One turn of the loop of [__insertion_sort]: an element less than the
    first goes to the front, another one is inserted from the end. *)
Definition linear_insert {A} (less : A -> A -> bool) (sorted : list A) (x : A) : list A :=
  match sorted with
  | [] => [x]
  | first :: _ =>
      if less x first then x :: sorted
      else snd (unguarded_linear_insert less x sorted)
  end.

Definition insertion_sort {A} (less : A -> A -> bool) (l : list A) : list A :=
  fold_left (linear_insert less) l [].

(** libstdc++ on a range of at most 16 elements. *)
#[global] Instance libstdcxx : Sorting := {| std_sort := @insertion_sort |}.

(** *** The format map *)

(** The runtime types and values a format map is built from, and the
    formats. *)
Class Runtime := {
  type : Type;
  value : Type;
  format : Type;
  kind : type -> type_kind;
  (* left.is_assignable(right, guard): left is assignable from right *)
  is_assignable : type -> type -> bool;
  is_instance : type -> value -> bool;
  as_type : value -> option type;
  as_hash : value -> option (list (value * value));
  as_string : value -> option string;
  (* the constructors of format, from a string and from a hash *)
  format_of_string : string -> result format_exception format;
  format_of_hash : list (value * value) -> result format_exception format
}.

Section WithRuntime.
Context {rt : Runtime} {sorting : Sorting}.

(** The comparison [format_map::format_map] sorts with. *)
Definition less (left right : type * format) : bool :=
  let left_assignable := is_assignable (fst left) (fst right) in
  let right_assignable := is_assignable (fst right) (fst left) in
  if left_assignable && negb right_assignable then false
  else if negb left_assignable && right_assignable then true
  else (get_type_rank (kind (fst left)) <? get_type_rank (kind (fst right)))%N.

(** The loop of the constructor over the entries of the hash. *)
Fixpoint formats_of (allow_hash : bool) (entries : list (value * value))
  : result format_exception (list (type * format)) :=
  match entries with
  | [] => Ok []
  | (key, val) :: rest =>
      match as_type key with
      | None => Raise expected_type_for_key
      | Some ty =>
          match (if allow_hash then as_hash val else None) with
          | Some h =>
              let* f := format_of_hash h in
              let* others := formats_of allow_hash rest in
              Ok ((ty, f) :: others)
          | None =>
              match as_string val with
              | None =>
                  Raise (if allow_hash then expected_hash_or_string_for_value
                         else expected_string_for_value)
              | Some str =>
                  let* f := format_of_string str in
                  let* others := formats_of allow_hash rest in
                  Ok ((ty, f) :: others)
              end
          end
      end
  end.

(** [format_map::format_map(values::hash, bool)]: the member [_formats]. *)
Definition format_map (entries : list (value * value)) (allow_hash : bool)
  : result format_exception (list (type * format)) :=
  let* formats := formats_of allow_hash entries in
  Ok (std_sort less formats).

(** [format_map::find_format]. *)
Definition find_format (formats : list (type * format)) (v : value) : option format :=
  snd <$> List.find (fun entry => is_instance (fst entry) v) formats.

(** [general] is assignable from [specific] and not the other way round. *)
Definition more_general (general specific : type) : Prop :=
  is_assignable general specific = true /\ is_assignable specific general = false.

(** The types are equal or disjoint, as far as assignability tells. *)
Definition tied (a b : type) : Prop := is_assignable a b = is_assignable b a.

End WithRuntime.

(** *** The types of [runtime/types/class.cc] and [runtime/types/runtime.cc] *)

(** [types::klass], with the normalized name of the class, and
    [types::runtime], with the names of the runtime and of the type; an
    empty name stands for a parameter that is not given. *)
Inductive source_type :=
| Class_ (name : string)
| Runtime_ (runtime_name type_name : string).

Inductive source_value :=
| a_type (t : source_type)
| a_string (s : string)
| an_integer (z : Z).

Definition is_empty (s : string) : bool := String.eqb s "".

(** [klass::is_assignable] and [runtime::is_assignable], reached from
    [values::type::is_assignable] by the alternative the type holds. *)
Definition source_assignable (this other : source_type) : bool :=
  match this, other with
  | Class_ name, Class_ other_name => is_empty name || String.eqb name other_name
  | Class_ _, _ => false
  | Runtime_ runtime_name type_name, Runtime_ other_runtime other_type =>
      is_empty runtime_name
      || (String.eqb runtime_name other_runtime
          && (is_empty type_name || String.eqb type_name other_type))
  | Runtime_ _ _, _ => false
  end.

(** [klass::is_instance] and [runtime::is_instance]. *)
Definition source_instance (this : source_type) (v : source_value) : bool :=
  match v with
  | a_type other =>
      match this, other with
      | Class_ name, Class_ other_name => is_empty name || String.eqb name other_name
      | Class_ _, _ => false
      | Runtime_ runtime_name type_name, Runtime_ other_runtime other_type =>
          if is_empty runtime_name then true
          else if negb (String.eqb runtime_name other_runtime) then false
          else is_empty type_name || String.eqb type_name other_type
      | Runtime_ _ _, _ => false
      end
  | _ => false
  end.

(** Formats are kept as the strings that describe them. *)
#[global] Instance source_runtime : Runtime :=
  {| type := source_type;
     value := source_value;
     format := string;
     kind := fun t => match t with Class_ _ => klass | Runtime_ _ _ => runtime end;
     is_assignable := source_assignable;
     is_instance := source_instance;
     as_type := fun v => match v with a_type t => Some t | _ => None end;
     as_hash := fun _ => None;
     as_string := fun v => match v with a_string s => Some s | _ => None end;
     format_of_string := fun s => Ok s;
     format_of_hash := fun _ => Raise (invalid_format "hash") |}.

(** The hash [{ Runtime['a'] => '%s', Class => '%p', Runtime['b'] => '%s',
    Class['foo'] => '%d' }]. *)
Definition class_formats : list (source_value * source_value) :=
  [(a_type (Runtime_ "a" ""), a_string "%s");
   (a_type (Class_ ""), a_string "%p");
   (a_type (Runtime_ "b" ""), a_string "%s");
   (a_type (Class_ "foo"), a_string "%d")].

(** The hash [{ Class => '%p', Class['foo'] => '%d' }]. *)
Definition two_class_formats : list (source_value * source_value) :=
  [(a_type (Class_ ""), a_string "%p"); (a_type (Class_ "foo"), a_string "%d")].

End FormatMap.

(** ** [lexer/lexer.hpp]: heredocs *)

Module Lexer.
Local Open Scope char_scope.
Local Open Scope nat_scope.

(** The lexer tab width: how many spaces the lexer considers a tab to be. *)
Definition LEXER_TAB_WIDTH : nat := 4.

Definition text := list ascii.

Definition newline : ascii := "010".
Definition carriage_return : ascii := "013".
Definition tab : ascii := "009".
Definition backslash : ascii := "\".

Definition HEREDOC_ESCAPES : text := list_ascii_of_string "trnsuL$".

Definition is_space (c : ascii) : bool := Ascii.eqb c " " || Ascii.eqb c tab.

Definition contains (c : ascii) (s : text) : bool := existsb (Ascii.eqb c) s.

Inductive lexer_exception :=
| unicode_escapes_not_supported
| unexpected_end_of_input (tag : text)
| invalid_heredoc_escapes (escapes : text).

(** The escape list of a heredoc, from what follows the [/] of the opening
    sentinel, if there is one; the second component is the [escaped]
    attribute of the token. *)
Definition heredoc_escapes (given : option text) : result lexer_exception (text * bool) :=
  match given with
  | None => Ok ([], true)
  | Some escapes =>
      let checked :=
        match escapes with
        | [] => Ok (HEREDOC_ESCAPES, true)
        | _ =>
            if forallb (fun c => contains c HEREDOC_ESCAPES) escapes then
              if contains "$" escapes
              then Ok (List.filter (fun c => negb (Ascii.eqb c "$")) escapes, true)
              else Ok (escapes, false)
            else Raise (invalid_heredoc_escapes escapes)
        end in
      let* pair := checked in
      Ok ((map (fun c => if Ascii.eqb c "L" then newline else c) (fst pair)
             ++ [backslash])%list,
          snd pair)
  end.

(** What [extract_string] finds behind a backslash: the character the
    escape is about, after an optional carriage return, with the number of
    characters up to and including it. *)
Definition escape_target (rest : text) : option (ascii * nat) :=
  match rest with
  | [] => None
  | c :: after =>
      if Ascii.eqb c carriage_return then
        match after with
        | [] => None
        | n :: _ => Some (n, 2)
        end
      else Some (c, 1)
  end.

(** [extract_string], from the iterator [it] on: [skip] counts the
    characters an escape sequence has consumed already ([it = next]), and
    [current_margin] is the margin left to strip on the line.  The warning
    handler, which does not change the text, is left out. *)
Fixpoint extract_string_from (escapes : text) (margin skip current_margin : nat)
    (s : text) : result lexer_exception text :=
  match s with
  | [] => Ok []
  | c :: rest =>
      match skip with
      | S skip' => extract_string_from escapes margin skip' current_margin rest
      | 0 =>
          if (0 <? current_margin) && is_space c then
            let width :=
              if Ascii.eqb c tab
              then (if LEXER_TAB_WIDTH <? current_margin then LEXER_TAB_WIDTH
                    else current_margin)
              else 1 in
            extract_string_from escapes margin 0 (current_margin - width) rest
          else
            let emit (c' : ascii) (skip' margin' : nat) :=
              let* out := extract_string_from escapes margin skip' margin' rest in
              Ok (c' :: out) in
            if Ascii.eqb c backslash && negb (bool_decide (escapes = [])) then
              match escape_target rest with
              | Some (next, consumed) =>
                  if contains next escapes then
                    if Ascii.eqb next "r" then emit carriage_return consumed 0
                    else if Ascii.eqb next "n" then emit newline consumed 0
                    else if Ascii.eqb next "t" then emit tab consumed 0
                    else if Ascii.eqb next "s" then emit " " consumed 0
                    else if Ascii.eqb next "u" then Raise unicode_escapes_not_supported
                    else if Ascii.eqb next newline then
                      extract_string_from escapes margin consumed margin rest
                    else emit next consumed 0
                  else emit c 0 0
              | None => emit c 0 0
              end
            else if Ascii.eqb c newline then emit c 0 margin
            else emit c 0 0
      end
  end.

Definition extract_string (s escapes : text) (margin : nat) : result lexer_exception text :=
  extract_string_from escapes margin 0 margin s.

(** The lines of the input, each with the line break that ends it. *)
Fixpoint split_lines (s : text) : list text :=
  match s with
  | [] => []
  | c :: rest =>
      if Ascii.eqb c newline then [c] :: split_lines rest
      else
        match split_lines rest with
        | [] => [[c]]
        | line :: others => (c :: line) :: others
        end
  end.

(** The loops over spaces and tabs: the width skipped, a tab counting for
    [LEXER_TAB_WIDTH], and what follows. *)
Fixpoint skip_spaces (s : text) : nat * text :=
  match s with
  | [] => (0, [])
  | c :: rest =>
      if is_space c then
        let (width, after) := skip_spaces rest in
        ((if Ascii.eqb c " " then 1 else LEXER_TAB_WIDTH) + width, after)
      else (0, s)
  end.

(** "Look for the end tag": whether the whole tag was read, and what
    follows the part that was. *)
Fixpoint match_tag (tag s : text) : bool * text :=
  match tag with
  | [] => (true, s)
  | t :: tag' =>
      match s with
      | [] => (false, [])
      | c :: rest => if Ascii.eqb t c then match_tag tag' rest else (false, s)
      end
  end.

Inductive verdict := end_of_input | end_tag | body_line.

(** The local variables of [parse_heredoc] that the search updates. *)
Record search := {
  margin : nat;
  has_margin : bool;
  remove_break : bool
}.

(** One turn of the loop "Search for the end tag", on the line at
    [doc_end]; a line that does not end with a line break ends the input. *)
Definition scan_line (tag line : text) (st : search) : verdict * search :=
  let (width, r1) := skip_spaces line in
  match r1 with
  | [] => (end_of_input, st)
  | c1 :: t1 =>
      let marked := Ascii.eqb c1 "|" in
      let r2 := if marked then snd (skip_spaces t1) else r1 in
      let has_margin' := marked || has_margin st in
      match r2 with
      | [] => (end_of_input, st)
      | c2 :: t2 =>
          let dashed := Ascii.eqb c2 "-" in
          let r3 := if dashed then snd (skip_spaces t2) else r2 in
          let st' := {| margin := width; has_margin := has_margin';
                        remove_break := dashed || remove_break st |} in
          match r3 with
          | [] => (end_of_input, st)
          | _ =>
              let (found, r4) := match_tag tag r3 in
              if found then
                let r5 := snd (skip_spaces r4) in
                let r6 := match r5 with
                          | c :: t => if Ascii.eqb c carriage_return then t else r5
                          | [] => []
                          end in
                match r6 with
                | [] => (end_tag, st')
                | c :: _ => if Ascii.eqb c newline then (end_tag, st') else (body_line, st')
                end
              else (body_line, st')
          end
      end
  end.

(** The loop "Search for the end tag": the text between [doc_begin] and
    [doc_end], the variables of the search, and the lines from the end
    tag on. *)
Fixpoint find_end_tag (tag : text) (lines : list text) (doc : text) (st : search)
  : result lexer_exception (text * search * list text) :=
  match lines with
  | [] => Raise (unexpected_end_of_input tag)
  | line :: rest =>
      match scan_line tag line st with
      | (end_of_input, _) => Raise (unexpected_end_of_input tag)
      | (end_tag, st') => Ok (doc, st', rest)
      | (body_line, st') =>
          find_end_tag tag rest (doc ++ line)%list
                       {| margin := 0; has_margin := has_margin st';
                          remove_break := remove_break st' |}
      end
  end.

(** [text.pop_back()] when the text ends with [c]. *)
Definition drop_last (c : ascii) (s : text) : text :=
  match last s with
  | Some l => if Ascii.eqb l c then removelast s else s
  | None => s
  end.

(** The value of a heredoc token and the continuation of the input. *)
Record heredoc := {
  token_text : text;
  next : text
}.

(** [parse_heredoc], from the line after the opening sentinel on: [tag] is
    the trimmed tag and [escapes] the escape list of the sentinel. *)
Definition parse_heredoc (tag escapes input : text) : result lexer_exception heredoc :=
  let* found := find_end_tag tag (split_lines input) []
                  {| margin := 0; has_margin := false; remove_break := false |} in
  let '(doc, st, rest) := found in
  let* extracted := extract_string doc escapes (if has_margin st then margin st else 0) in
  let trimmed :=
    if remove_break st then drop_last carriage_return (drop_last newline extracted)
    else extracted in
  Ok {| token_text := trimmed; next := concat rest |}.

(** A heredoc [@(TAG)] whose body is the line "- item". *)
Definition dash_body : text :=
  (list_ascii_of_string "- item" ++ [newline])%list.

Definition dash_input : text :=
  (dash_body ++ list_ascii_of_string "TAG" ++ [newline])%list.

(** A heredoc [@(TAG)] that is not ended: the input stops in the middle
    of the tag. *)
Definition unterminated_input : text :=
  (list_ascii_of_string "first" ++ [newline]
   ++ list_ascii_of_string "  | second" ++ [newline]
   ++ list_ascii_of_string "TA")%list.

End Lexer.

(** ** [runtime/utility/formatter.cc]: the bit helpers of the integer conversions *)

Module FormatterBits.

(** [format_visitor::msb]: the loop [while (value >>= 1) ++bit] on a
    [uint64_t], with [bit] a [uint8_t]; [fuel] bounds the number of turns and
    [None] is the answer of a loop that has not ended when it is spent. *)
Fixpoint msb_loop (fuel : nat) (value bit : Z) : option Z :=
  match fuel with
  | O => None
  | S fuel' =>
      let value' := Z.shiftr value 1 in
      if value' =? 0 then Some bit
      else msb_loop fuel' value' ((bit + 1) mod 2 ^ 8)
  end.

(** A 64-bit value is zero after 64 shifts. *)
Definition msb (value : Z) : option Z := msb_loop 64 value 0.

(** [format_visitor::masking_twos_compliment]:
    [value & ((1 << msb(static_cast<uint64_t>(~value + 1) + 1)) - 1)].
    [1 << n] is a shift of an [int]: it and the subtraction that follows
    are defined for [n <= 30] only, and [None] is the answer elsewhere. *)
Definition masking_twos_compliment (value : Z) : option Z :=
  let negated := Int64.wrap (Z.lnot value + 1) in
  match msb ((Int64.to_uint64 negated + 1) mod 2 ^ 64) with
  | None => None
  | Some bits =>
      if bits <? 31 then Some (Z.land value (Z.shiftl 1 bits - 1))
      else None
  end.

End FormatterBits.

(** ** [runtime/utility/format.cc]: parsing a format specification *)

Module Format.
Local Open Scope char_scope.

Definition text := list ascii.

Inductive format_exception :=
| not_a_valid_format_string (specification : text)
| flag_specified_twice (flag : ascii)
| container_flag_specified_twice
| not_a_valid_format_flag (flag : ascii)
| width_out_of_range
| width_not_valid
| precision_out_of_range
| precision_not_valid.

(** The members of [utility::format] a specification sets;
    [_container_start] is a [char]: -1, 0 or the flag character. *)
Record format := {
  _use_space : bool;
  _alternative : bool;
  _show_sign : bool;
  _left_justify : bool;
  _zero_pad : bool;
  _container_start : Z;
  _width : Z;
  _precision : Z;
  _type : ascii
}.

(** The default member initializers. *)
Definition initial : format :=
  {| _use_space := false; _alternative := false; _show_sign := false;
     _left_justify := false; _zero_pad := false; _container_start := -1;
     _width := 0; _precision := -1; _type := zero |}.

Definition code (c : ascii) : Z := Z.of_nat (nat_of_ascii c).

Definition is_container (c : ascii) : bool :=
  Ascii.eqb c "[" || Ascii.eqb c "{" || Ascii.eqb c "<" || Ascii.eqb c "("
  || Ascii.eqb c "|".

(** One turn of the loop of [format::parse_flags]: the [switch]. *)
Definition parse_flag (f : format) (c : ascii) : result format_exception format :=
  if Ascii.eqb c " " then
    if _use_space f then Raise (flag_specified_twice c)
    else Ok {| _use_space := true; _alternative := _alternative f;
               _show_sign := _show_sign f; _left_justify := _left_justify f;
               _zero_pad := _zero_pad f;
               _container_start :=
                 if (_container_start f =? -1)%Z then 0 else _container_start f;
               _width := _width f; _precision := _precision f; _type := _type f |}
  else if Ascii.eqb c "+" then
    if _show_sign f then Raise (flag_specified_twice c)
    else Ok {| _use_space := _use_space f; _alternative := _alternative f;
               _show_sign := true; _left_justify := _left_justify f;
               _zero_pad := _zero_pad f; _container_start := _container_start f;
               _width := _width f; _precision := _precision f; _type := _type f |}
  else if Ascii.eqb c "-" then
    if _left_justify f then Raise (flag_specified_twice c)
    else Ok {| _use_space := _use_space f; _alternative := _alternative f;
               _show_sign := _show_sign f; _left_justify := true;
               _zero_pad := _zero_pad f; _container_start := _container_start f;
               _width := _width f; _precision := _precision f; _type := _type f |}
  else if Ascii.eqb c "#" then
    if _alternative f then Raise (flag_specified_twice c)
    else Ok {| _use_space := _use_space f; _alternative := true;
               _show_sign := _show_sign f; _left_justify := _left_justify f;
               _zero_pad := _zero_pad f; _container_start := _container_start f;
               _width := _width f; _precision := _precision f; _type := _type f |}
  else if Ascii.eqb c "0" then
    if _zero_pad f then Raise (flag_specified_twice c)
    else Ok {| _use_space := _use_space f; _alternative := _alternative f;
               _show_sign := _show_sign f; _left_justify := _left_justify f;
               _zero_pad := true; _container_start := _container_start f;
               _width := _width f; _precision := _precision f; _type := _type f |}
  else if is_container c then
    if (0 <? _container_start f)%Z then Raise container_flag_specified_twice
    else Ok {| _use_space := _use_space f; _alternative := _alternative f;
               _show_sign := _show_sign f; _left_justify := _left_justify f;
               _zero_pad := _zero_pad f; _container_start := code c;
               _width := _width f; _precision := _precision f; _type := _type f |}
  else Raise (not_a_valid_format_flag c).

(** [format::parse_flags], over the characters of the range. *)
Fixpoint parse_flags (flags : text) (f : format) : result format_exception format :=
  match flags with
  | [] => Ok f
  | c :: rest => let* f' := parse_flag f c in parse_flags rest f'
  end.

(** *** [std::stoll] *)

Inductive stoll_exception := invalid_argument | out_of_range.

(** [isspace] in the classic locale. *)
Definition isspace (c : ascii) : bool :=
  let n := nat_of_ascii c in ((9 <=? n) && (n <=? 13) || (n =? 32))%nat.

Definition is_digit (c : ascii) : bool :=
  let n := nat_of_ascii c in ((48 <=? n) && (n <=? 57))%nat.

Definition digit (c : ascii) : Z := code c - 48.

Fixpoint skip_spaces (s : text) : text :=
  match s with
  | c :: rest => if isspace c then skip_spaces rest else s
  | [] => []
  end.

(** The decimal digits at the front of [s]: their value after [acc], and
    what follows them. *)
Fixpoint read_digits (s : text) (acc : Z) : Z * text :=
  match s with
  | c :: rest => if is_digit c then read_digits rest (10 * acc + digit c) else (acc, s)
  | [] => (acc, [])
  end.

(** [std::stoll(str, &pos)] in base 10: blanks, a sign, digits; the value
    and the number of characters read. *)
Definition stoll (str : text) : result stoll_exception (Z * nat) :=
  let s1 := skip_spaces str in
  let (negative, s2) :=
    match s1 with
    | c :: rest =>
        if Ascii.eqb c "-" then (true, rest)
        else if Ascii.eqb c "+" then (false, rest)
        else (false, s1)
    | [] => (false, s1)
    end in
  match s2 with
  | c :: _ =>
      if is_digit c then
        let (magnitude, rest) := read_digits s2 0 in
        let value := if negative : bool then - magnitude else magnitude in
        if Int64.in_rangeb value then Ok (value, (length str - length rest)%nat)
        else Raise out_of_range
      else Raise invalid_argument
  | [] => Raise invalid_argument
  end.

(** [format::parse_width] and [format::parse_precision]: the value the
    member is set to. *)
Definition parse_width (width : text) : result format_exception Z :=
  match stoll width with
  | Ok (value, pos) =>
      if Nat.eqb pos (length width) then Ok value else Raise width_not_valid
  | Raise invalid_argument => Raise width_not_valid
  | Raise out_of_range => Raise width_out_of_range
  end.

Definition parse_precision (precision : text) : result format_exception Z :=
  match stoll precision with
  | Ok (value, pos) =>
      if Nat.eqb pos (length precision) then Ok value else Raise precision_not_valid
  | Raise invalid_argument => Raise precision_not_valid
  | Raise out_of_range => Raise precision_out_of_range
  end.

(** *** The regular expression of [format::parse_specification] *)

Definition is_flag_character (c : ascii) : bool :=
  Ascii.eqb c " " || Ascii.eqb c "+" || Ascii.eqb c "-" || Ascii.eqb c "#"
  || Ascii.eqb c "0" || is_container c.

Definition is_letter (c : ascii) : bool :=
  let n := nat_of_ascii c in
  ((97 <=? n) && (n <=? 122) || (65 <=? n) && (n <=? 90))%nat.

(** The longest prefix of [s] made of characters that satisfy [p], and
    the rest. *)
Fixpoint span (p : ascii -> bool) (s : text) : text * text :=
  match s with
  | c :: rest =>
      if p c then let (front, back) := span p rest in (c :: front, back)
      else ([], s)
  | [] => ([], [])
  end.

(** The regions of a match; an optional group that took no part in the
    match has none. *)
Record regions := {
  flags_region : text;
  width_region : option text;
  precision_region : option text;
  type_region : ascii
}.

(** The match of the regular expression [format_regex] of
    [parse_specification]: between the anchors, a percent sign; a group of
    any number of the flag characters; an optional group for the width, a
    digit from 1 to 9 and any number of digits; optionally a dot and a
    group of at least one digit, the precision; a group of one letter, the
    type.  The specification is taken to hold no line break, so that the
    anchors are the ends of the text.  Each repetition is greedy, and no
    shorter repetition leads to a match: what follows the flags is no flag
    character, and what follows a run of digits is no digit. *)
Definition format_regex (specification : text) : option regions :=
  match specification with
  | c :: r =>
      if Ascii.eqb c "%" then
        let (flags, r1) := span is_flag_character r in
        let (width, r2) :=
          match r1 with
          | d :: _ =>
              if is_digit d && negb (Ascii.eqb d "0")
              then let (w, after) := span is_digit r1 in (Some w, after)
              else (None, r1)
          | [] => (None, r1)
          end in
        let (precision, r3) :=
          match r2 with
          | dot :: d :: _ =>
              if Ascii.eqb dot "." && is_digit d
              then let (p, after) := span is_digit (tl r2) in (Some p, after)
              else (None, r2)
          | _ => (None, r2)
          end in
        match r3 with
        | [t] =>
            if is_letter t
            then Some {| flags_region := flags; width_region := width;
                         precision_region := precision; type_region := t |}
            else None
        | _ => None
        end
      else None
  | [] => None
  end.

Definition with_width (f : format) (width : Z) : format :=
  {| _use_space := _use_space f; _alternative := _alternative f;
     _show_sign := _show_sign f; _left_justify := _left_justify f;
     _zero_pad := _zero_pad f; _container_start := _container_start f;
     _width := width; _precision := _precision f; _type := _type f |}.

Definition with_precision (f : format) (precision : Z) : format :=
  {| _use_space := _use_space f; _alternative := _alternative f;
     _show_sign := _show_sign f; _left_justify := _left_justify f;
     _zero_pad := _zero_pad f; _container_start := _container_start f;
     _width := _width f; _precision := precision; _type := _type f |}.

Definition with_type (f : format) (type : ascii) : format :=
  {| _use_space := _use_space f; _alternative := _alternative f;
     _show_sign := _show_sign f; _left_justify := _left_justify f;
     _zero_pad := _zero_pad f; _container_start := _container_start f;
     _width := _width f; _precision := _precision f; _type := type |}.

(** [format::parse_specification], called by [format::format(string)] on
    an object that holds the defaults. *)
Definition parse_specification (specification : text) : result format_exception format :=
  match format_regex specification with
  | None => Raise (not_a_valid_format_string specification)
  | Some found =>
      let* f1 := parse_flags (flags_region found) initial in
      let* f2 := match width_region found with
                 | Some width => let* value := parse_width width in Ok (with_width f1 value)
                 | None => Ok f1
                 end in
      let* f3 := match precision_region found with
                 | Some precision =>
                     let* value := parse_precision precision in Ok (with_precision f2 value)
                 | None => Ok f2
                 end in
      Ok (with_type f3 (type_region found))
  end.

(** The flags that set a member of their own. *)
Definition is_simple (c : ascii) : bool :=
  Ascii.eqb c " " || Ascii.eqb c "+" || Ascii.eqb c "-" || Ascii.eqb c "#"
  || Ascii.eqb c "0".

(** Whether the member the flag [c] sets is set already. *)
Definition seen (f : format) (c : ascii) : bool :=
  if Ascii.eqb c " " then _use_space f
  else if Ascii.eqb c "+" then _show_sign f
  else if Ascii.eqb c "-" then _left_justify f
  else if Ascii.eqb c "#" then _alternative f
  else if Ascii.eqb c "0" then _zero_pad f
  else false.

(** The number a run of decimal digits writes. *)
Definition decimal (digits : text) : Z := fst (read_digits digits 0).

Definition line_break : ascii := "010".

(** The specifications the model of the regular expression stands for. *)
Definition single_line (s : text) : Prop := ~ In line_break s.

(** The specification ["% -+#0{p"]. *)
Definition all_flags : text := list_ascii_of_string "% -+#0{p".

End Format.

(** ** More of [compiler/registry.cc] and [compiler/node.cc] *)

Module Registrations.
Import Registry.
Local Open Scope string_scope.
Local Open Scope nat_scope.

(** [node::name]: the last name in the set; the set of a node name
    without a component is empty and has no last name. *)
Definition name (n : Node.node) : option string := last (Node._names n).

Section WithEngine.
Context {engine : RegexEngine}.

(** [registry::has_nodes]. *)
Definition has_nodes (r : registry) : bool :=
  match _nodes r with [] => false | _ => true end.

(** The registries a sequence of calls of [register_node] builds. *)
Inductive reachable : registry -> Prop :=
| reachable_empty : reachable empty
| reachable_register nd r existing r' :
    reachable r -> register_node nd r = Ok (existing, r') -> reachable r'.

(** Every index the lookup structures hold points into [_nodes]. *)
Definition indices_in_range (r : registry) : Prop :=
  (forall name index, _named_nodes r !! name = Some index -> index < length (_nodes r)) /\
  Forall (fun kvp => snd kvp < length (_nodes r)) (_regex_nodes r) /\
  (forall index, _default_node_index r = Some index -> index < length (_nodes r)).

(** The keys of [_named_nodes] are in lower case. *)
Definition lowercase_keys (r : registry) : Prop :=
  forall name index, _named_nodes r !! name = Some index -> Node.to_lower name = name.

(** The hostname is one the registry has a definition for, under the
    spelling [find_node(statement)] looks it up with. *)
Definition taken (r : registry) (h : hostname) : Prop :=
  match h with
  | host_default => is_Some (_default_node_index r)
  | host_regex pattern =>
      exists rx index, In (rx, index) (_regex_nodes r) /\ regex_pattern rx = pattern
  | host_name name => is_Some (_named_nodes r !! name)
  end.

(** [values::regex::pattern] answers the text the regex was made from. *)
Definition keeps_pattern : Prop :=
  forall pattern rx, regex_new pattern = Some rx -> regex_pattern rx = pattern.

End WithEngine.

(** A hostname literal that has a capital letter. *)
Definition capitalized (h : hostname) : Prop :=
  exists name, h = host_name name /\ Node.to_lower name <> name.

(** A hostname [find_node(statement)] finds again once it is registered:
    the default, a regex, or a name written in lower case. *)
Definition written_in_lower_case (h : hostname) : Prop :=
  match h with
  | host_name name => Node.to_lower name = name
  | _ => True
  end.

End Registrations.

(** ** [compiler/scanner.cc]: registering classes and defined types *)

Module Scanner.
Import Evaluation.
Local Open Scope string_scope.

(** [ast::class_statement] and [ast::defined_type_statement], of which
    the scanner reads the name as it is written, and the place. *)
Record statement := { name_value : string; place : nat }.

(** [compiler::klass] and [compiler::defined_type]: the normalized name
    and the statement. *)
Record klass := { klass_name : string; klass_statement : statement }.

Record defined_type := { defined_type_name : string; defined_type_statement : statement }.

(** [compiler::resource_type], of which the name and the file matter. *)
Record resource_type := { resource_type_name : string; resource_type_file : string }.

(** The maps of [compiler::registry] the scanner consults. *)
Record registry := {
  _classes : gmap string klass;
  _defined_types : gmap string defined_type;
  _resource_types : gmap string resource_type
}.

Definition empty : registry :=
  {| _classes := ∅; _defined_types := ∅; _resource_types := ∅ |}.

Inductive exception :=
| class_previously_defined (existing : klass)
| previously_defined_as_defined_type (existing : defined_type)
| defined_type_previously_defined (existing : defined_type)
| previously_defined_as_class (existing : klass)
| conflicts_with_resource_type (kind name : string) (existing : resource_type)
| conflicts_with_builtin_resource_type (kind name : string)
| import_failed (message : string).

(** [registry::find_class], [find_defined_type], [find_resource_type]. *)
Definition find_class (r : registry) (name : string) : option klass :=
  _classes r !! name.

Definition find_defined_type (r : registry) (name : string) : option defined_type :=
  _defined_types r !! name.

Definition find_resource_type (r : registry) (name : string) : option resource_type :=
  _resource_types r !! name.

(** [unordered_map::emplace]: an existing key keeps its value. *)
Definition emplace {V} (k : string) (v : V) (m : gmap string V) : gmap string V :=
  match m !! k with
  | Some _ => m
  | None => <[k := v]> m
  end.

(** [registry::register_class] and [registry::register_defined_type]. *)
Definition register_class (k : klass) (r : registry) : registry :=
  {| _classes := emplace (klass_name k) k (_classes r);
     _defined_types := _defined_types r;
     _resource_types := _resource_types r |}.

Definition register_defined_type (d : defined_type) (r : registry) : registry :=
  {| _classes := _classes r;
     _defined_types := emplace (defined_type_name d) d (_defined_types r);
     _resource_types := _resource_types r |}.

Section WithService.
(** The answer of the Ruby host to a request to describe a resource
    type: an error, nothing, or the type; [None] stands for a registry
    without a type service. *)
Context (describe : option (string -> result string (option resource_type))).

(** [registry::import_ruby_type]: the type kept under the name of the
    response, and the registry afterwards. *)
Definition import_ruby_type (name : string) (r : registry)
  : result exception (option resource_type * registry) :=
  match describe with
  | None => Ok (None, r)
  | Some service =>
      match _resource_types r !! name with
      | Some _ => Ok (None, r)
      | None =>
          match service name with
          | Raise message => Raise (import_failed message)
          | Ok None => Ok (None, r)
          | Ok (Some type) =>
              let types := emplace (resource_type_name type) type (_resource_types r) in
              Ok (types !! resource_type_name type,
                  {| _classes := _classes r; _defined_types := _defined_types r;
                     _resource_types := types |})
          end
      end
  end.

(** [scanner::check_resource_type]: a resource type of that name, known
    or imported, is a conflict. *)
Definition check_resource_type (name normalized_name kind : string) (r : registry)
  : result exception registry :=
  let* found :=
    match find_resource_type r normalized_name with
    | Some existing => Ok (Some existing, r)
    | None => import_ruby_type normalized_name r
    end in
  match fst found with
  | None => Ok (snd found)
  | Some existing =>
      if negb (String.eqb (resource_type_file existing) "")
      then Raise (conflicts_with_resource_type kind name existing)
      else Raise (conflicts_with_builtin_resource_type kind name)
  end.

(** [scanner::register_class]; [name] is the qualified name the visitor
    of definitions gives. *)
Definition scan_class (name : string) (statement : statement) (r : registry)
  : result exception registry :=
  let normalized := normalize name in
  match find_class r normalized with
  | Some existing => Raise (class_previously_defined existing)
  | None =>
      match find_defined_type r normalized with
      | Some existing => Raise (previously_defined_as_defined_type existing)
      | None =>
          let* r' := check_resource_type (name_value statement) normalized "class" r in
          Ok (register_class {| klass_name := normalized; klass_statement := statement |} r')
      end
  end.

(** [scanner::register_defined_type]. *)
Definition scan_defined_type (name : string) (statement : statement) (r : registry)
  : result exception registry :=
  let normalized := normalize name in
  match find_defined_type r normalized with
  | Some existing => Raise (defined_type_previously_defined existing)
  | None =>
      match find_class r normalized with
      | Some existing => Raise (previously_defined_as_class existing)
      | None =>
          let* r' :=
            check_resource_type (name_value statement) normalized "defined type" r in
          Ok (register_defined_type
                {| defined_type_name := normalized; defined_type_statement := statement |} r')
      end
  end.

(** The registries the scanner builds. *)
Inductive scanned : registry -> Prop :=
| scanned_empty : scanned empty
| scanned_class name statement r r' :
    scanned r -> scan_class name statement r = Ok r' -> scanned r'
| scanned_defined_type name statement r r' :
    scanned r -> scan_defined_type name statement r = Ok r' -> scanned r'.

End WithService.

(** The statement [class Foo {}] on line 3, and the registry after it was
    scanned, without a type service. *)
Definition class_foo : statement := {| name_value := "Foo"; place := 3 |}.

Definition one_class : registry :=
  register_class {| klass_name := "foo"; klass_statement := class_foo |} empty.

End Scanner.

(** ** More of [compiler/evaluation/context.cc]: scopes and match variables *)

Module Scopes.
Import Evaluation.
Local Open Scope string_scope.
Local Open Scope nat_scope.

Section ContextModel.
Context {defined_type collector resource_relationship : Type}.

Abbreviation context := (@context defined_type collector resource_relationship).
Abbreviation action_ := (@action_ defined_type collector resource_relationship).
Abbreviation outcome := (@outcome defined_type collector resource_relationship).

(** [context::current_scope]: the scope of the innermost frame. *)
Definition current_scope : action_ scope :=
  fun ctx =>
    match last (_call_stack ctx) with
    | Some back =>
        match frame_scope back with
        | Some s => Done s ctx
        | None =>
            throw (other "operation not permitted: the current scope is not available.")
                  no_context ctx
        end
    | None =>
        throw (other "operation not permitted: the current scope is not available.")
              no_context ctx
    end.

(** [context::calling_scope]: the scope of the frame below the innermost
    one. *)
Definition calling_scope : action_ scope :=
  fun ctx =>
    let no_scope :=
      throw (other "operation not permitted: there is no calling scope.")
            no_context ctx in
    if 2 <=? length (_call_stack ctx) then
      match _call_stack ctx !! (length (_call_stack ctx) - 2) with
      | Some caller =>
          match frame_scope caller with
          | Some s => Done s ctx
          | None => no_scope
          end
      | None => no_scope
      end
    else no_scope.

(** [context::set(vector<string> captures)]: the innermost match scope
    holds the captures; without a match scope nothing is kept. *)
Definition set_captures (captures : list string) (ctx : context) : context :=
  match _match_stack ctx with
  | [] => ctx
  | stack => with_match_stack ctx (removelast stack ++ [Some (map v_string captures)])%list
  end.

(** The walk of [context::lookup(size_t)] down the match scopes, from
    the innermost one. *)
Fixpoint first_matches (scopes : list (option (list value))) : option (list value) :=
  match scopes with
  | [] => None
  | Some matches :: _ => Some matches
  | None :: rest => first_matches rest
  end.

(** [context::lookup(size_t index)]: a match variable. *)
Definition lookup (ctx : context) (index : nat) : option value :=
  match first_matches (rev (_match_stack ctx)) with
  | Some matches => matches !! index
  | None => None
  end.

(** The outcome [o], in the state [f] makes of its state. *)
Definition in_state {A} (f : context -> context) (o : outcome A) : outcome A :=
  match o with
  | Done a ctx => Done a (f ctx)
  | Thrown e ctx => Thrown e (f ctx)
  end.

(** A block that sets the match variables. *)
Definition matching (captures : list string) : action_ unit :=
  fun ctx => Done tt (set_captures captures ctx).

End ContextModel.

(** A frame whose scope is the top scope, in a context whose match
    variables are those of a match of "b" within "abc". *)
Definition matched_context : sample_context :=
  with_match_stack (with_call_stack initial_context [main_frame])
                   [Some [v_string "b"]].

(** The overrides [evaluate_overrides] evaluates, the range equal to the
    resource, and those it keeps. *)
Definition for_type (ty : resource_type) (kvp : resource_type * resource_override) : bool :=
  bool_decide (fst kvp = ty).

Definition others (ty : resource_type) (kvp : resource_type * resource_override) : bool :=
  negb (bool_decide (fst kvp = ty)).

(** The catalog of [initial_context] after [file { '/tmp/x': }] was
    declared. *)
Definition catalog_with_file : catalog :=
  {| resources :=
       [main_stage;
        {| type := {| type_name := "file"; title := "/tmp/x" |}; container := None;
           virtualized := false; attributes := [] |}];
     edges := [] |}.

End Scopes.

(** ** [runtime/utility/format_map.cc] on the types of [runtime/types/class.cc] alone *)

Module ClassFormats.
Import FormatMap.
Local Open Scope string_scope.

(** The runtime restricted to the types [Class] and [Class[name]]: a type
    is given by the name of the class, the empty name for [Class];
    [klass::is_assignable] and [klass::is_instance] are those of
    [source_assignable] and [source_instance]. *)
Definition class_runtime : Runtime :=
  {| type := string;
     value := source_value;
     format := string;
     kind := fun _ => klass;
     is_assignable := fun name other => source_assignable (Class_ name) (Class_ other);
     is_instance := fun name v => source_instance (Class_ name) v;
     as_type := fun v => match v with a_type (Class_ name) => Some name | _ => None end;
     as_hash := fun _ => None;
     as_string := fun v => match v with a_string s => Some s | _ => None end;
     format_of_string := fun s => Ok s;
     format_of_hash := fun _ => Raise (invalid_format "hash") |}.

End ClassFormats.

(** ** [compiler/evaluation/repl.cc] *)

Module Repl.
Local Open Scope string_scope.
Local Open Scope nat_scope.

(** [evaluation::repl], without the reference to the context. *)
Record repl := {
  _buffer : string;
  _prompt : string;
  _count : nat;
  _line : nat
}.

Definition decimal (n : nat) : string :=
  DecimalString.NilEmpty.string_of_uint (Nat.to_uint n).

(** The conversion [%03d]: at least three digits, with zeros in front. *)
Definition three_digits (n : nat) : string :=
  let digits := decimal n in
  match String.length digits with
  | 1 => "00" ++ digits
  | 2 => "0" ++ digits
  | _ => digits
  end.

(** The format ["%1%:%2$03d:%3%> "] of [repl::complete]. *)
Definition format_prompt (name : string) (count line : nat) : string :=
  name ++ ":" ++ three_digits count ++ ":" ++ decimal line ++ "> ".

(** [repl::repl]: the prompt is the name of the node and [":001:1> "];
    the counters start from 1. *)
Definition start (name : string) : repl :=
  {| _buffer := ""; _prompt := name ++ ":001:1> "; _count := 1; _line := 1 |}.

(** [repl::complete], which the destructor of [evaluation_helper] calls
    at the end of [evaluate]. *)
Definition complete (name : string) (multiline : bool) (r : repl) : repl :=
  if multiline then
    {| _buffer := _buffer r ++ String "010" ""; _prompt := format_prompt name (_count r) (_line r + 1);
       _count := _count r; _line := _line r + 1 |}
  else
    {| _buffer := ""; _prompt := format_prompt name (_count r + 1) 1;
       _count := _count r + 1; _line := 1 |}.

Section WithEvaluator.
(** The values, the exceptions and the state of the evaluation context;
    the name of the node. *)
Context {value exception world : Type}.
Context (undef : value) (name : string).

(** What importing the buffer and evaluating its statements comes to: the
    last value; a [parse_exception], with the offset it begins at; or
    another exception, with the value of the last statement that was
    evaluated. *)
Inductive attempt :=
| evaluated (last : value)
| parse_exception (offset : nat) (e : exception)
| raised (last : value) (e : exception).

Context (run : string -> world -> attempt * world).

(** [repl::result]. *)
Record result_ := {
  source : string;
  result_value : value;
  result_exception : option exception
}.

Definition with_buffer (r : repl) (buffer : string) : repl :=
  {| _buffer := buffer; _prompt := _prompt r; _count := _count r; _line := _line r |}.

(** [repl::evaluate], for a source given as a C string. *)
Definition evaluate (source_text : string) (r : repl) (w : world)
  : option result_ * repl * world :=
  if String.eqb source_text "" then
    (None, complete name (negb (String.eqb (_buffer r) "")) r, w)
  else
    let buffer := _buffer r ++ source_text in
    let r' := with_buffer r buffer in
    let (outcome, w') := run buffer w in
    match outcome with
    | evaluated last =>
        (Some {| source := buffer; result_value := last; result_exception := None |},
         complete name false r', w')
    | parse_exception offset e =>
        if offset =? String.length buffer then (None, complete name true r', w')
        else (Some {| source := buffer; result_value := undef;
                      result_exception := Some e |},
              complete name false r', w')
    | raised last e =>
        (Some {| source := buffer; result_value := last; result_exception := Some e |},
         complete name false r', w')
    end.

(** The states of a session: the evaluator after any number of calls of
    [evaluate]. *)
Inductive session : repl -> Prop :=
| session_start : session (start name)
| session_evaluate source_text r w :
    session r -> session (snd (fst (evaluate source_text r w))).

End WithEvaluator.

(** A session whose statements all evaluate to their own text. *)
Definition echo (buffer : string) (w : unit) : @attempt string string * unit :=
  (evaluated buffer, w).

End Repl.

(** * Theorems *)

Section Int64Facts.

Lemma in_rangeb_spec z : Int64.in_rangeb z = true <-> Int64.in_range z.
Proof. unfold Int64.in_rangeb, Int64.in_range. rewrite andb_true_iff, !Z.leb_le. tauto. Qed.

Lemma wrap_in_range z : Int64.in_range z -> Int64.wrap z = z.
Proof.
  unfold Int64.in_range, Int64.wrap, Int64.min, Int64.max. intros H.
  rewrite Z.mod_small; lia.
Qed.

Lemma wrap_range z : Int64.in_range (Int64.wrap z).
Proof.
  unfold Int64.in_range, Int64.wrap, Int64.min, Int64.max.
  pose proof (Z.mod_pos_bound (z + 2 ^ 63) (2 ^ 64)). lia.
Qed.

End Int64Facts.

Section MultiplyFacts.
Import Multiply.

Lemma quot_pos_upper a b : 0 <= a -> 0 < b -> forall x, x > a ÷ b <-> x * b > a.
Proof.
  intros Ha Hb x. rewrite Z.quot_div_nonneg by lia.
  pose proof (Z.div_mod a b ltac:(lia)) as Hd.
  pose proof (Z.mod_pos_bound a b Hb) as Hm.
  split; intros H; nia.
Qed.

Lemma quot_neg_lower a b : a <= 0 -> 0 < b -> forall x, x < a ÷ b <-> x * b < a.
Proof.
  intros Ha Hb x.
  replace a with (- (- a)) by lia. rewrite Z.quot_opp_l by lia.
  rewrite Z.quot_div_nonneg by lia.
  pose proof (Z.div_mod (- a) b ltac:(lia)) as Hd.
  pose proof (Z.mod_pos_bound (- a) b Hb) as Hm.
  split; intros H; nia.
Qed.

Lemma quot_negneg_upper a b : a <= 0 -> b < 0 -> forall x, x > a ÷ b <-> x * b < a.
Proof.
  intros Ha Hb x.
  replace a with (- (- a)) by lia. replace b with (- (- b)) at 1 by lia.
  rewrite Z.quot_opp_opp by lia. rewrite Z.quot_div_nonneg by lia.
  pose proof (Z.div_mod (- a) (- b) ltac:(lia)) as Hd.
  pose proof (Z.mod_pos_bound (- a) (- b) ltac:(lia)) as Hm.
  split; intros H; nia.
Qed.

Lemma quot_posneg_lower a b : 0 <= a -> b < 0 -> forall x, x < a ÷ b <-> x * b > a.
Proof.
  intros Ha Hb x.
  replace b with (- (- b)) at 1 by lia.
  rewrite Z.quot_opp_r by lia. rewrite Z.quot_div_nonneg by lia.
  pose proof (Z.div_mod a (- b) ltac:(lia)) as Hd.
  pose proof (Z.mod_pos_bound a (- b) ltac:(lia)) as Hm.
  split; intros H; nia.
Qed.

(** When no check fires the product fits. *)
Lemma multiply_cases pos l r :
  Int64.in_range l -> Int64.in_range r ->
  (Int64.in_range (l * r) /\ multiply pos l r = Ok (l * r)) \/
  (l * r > Int64.max /\
     multiply pos l r = Raise {| where_ := pos; fault := overflow;
                                 left_operand := l; right_operand := r |}) \/
  (l * r < Int64.min /\
     multiply pos l r = Raise {| where_ := pos; fault := underflow;
                                 left_operand := l; right_operand := r |}).
Proof.
  intros Hl Hr. unfold multiply.
  assert (Hmax : 0 <= Int64.max) by (unfold Int64.max; lia).
  assert (Hmin : Int64.min <= 0) by (unfold Int64.min; lia).
  destruct (Z.gtb_spec r 0) as [Hpos|Hnpos].
  - pose proof (quot_pos_upper Int64.max r Hmax ltac:(lia) l) as Hu.
    pose proof (quot_neg_lower Int64.min r Hmin ltac:(lia) l) as Hd.
    destruct (Z.gtb_spec l (Int64.max ÷ r)) as [H1|H1].
    + right; left. split; [apply Hu; lia | reflexivity].
    + destruct (Z.ltb_spec l (Int64.min ÷ r)) as [H2|H2].
      * right; right. split; [apply Hd; lia | reflexivity].
      * left. assert (Hin : Int64.in_range (l * r)).
        { unfold Int64.in_range. split.
          - destruct (Z_lt_le_dec (l * r) Int64.min) as [Hc|Hc]; [|lia].
            apply Hd in Hc. lia.
          - destruct (Z_lt_le_dec Int64.max (l * r)) as [Hc|Hc]; [|lia].
            assert (l > Int64.max ÷ r) by (apply Hu; lia). lia. }
        split; [exact Hin | now rewrite wrap_in_range].
  - destruct (Z.ltb_spec r (-1)) as [Hneg|Hnneg].
    + pose proof (quot_negneg_upper Int64.min r Hmin ltac:(lia) l) as Hu.
      pose proof (quot_posneg_lower Int64.max r Hmax ltac:(lia) l) as Hd.
      destruct (Z.gtb_spec l (Int64.min ÷ r)) as [H1|H1].
      * right; right. split; [apply Hu; lia | reflexivity].
      * destruct (Z.ltb_spec l (Int64.max ÷ r)) as [H2|H2].
        -- right; left. split; [apply Hd; lia | reflexivity].
        -- left. assert (Hin : Int64.in_range (l * r)).
           { unfold Int64.in_range. split.
             - destruct (Z_lt_le_dec (l * r) Int64.min) as [Hc|Hc]; [|lia].
               assert (l > Int64.min ÷ r) by (apply Hu; lia). lia.
             - destruct (Z_lt_le_dec Int64.max (l * r)) as [Hc|Hc]; [|lia].
               assert (l < Int64.max ÷ r) by (apply Hd; lia). lia. }
           split; [exact Hin | now rewrite wrap_in_range].
    + destruct (Z.eqb_spec r (-1)) as [Hm1|Hm1].
      * subst r. destruct (Z.eqb_spec l Int64.min) as [Hl'|Hl'].
        -- right; left. split; [subst l; unfold Int64.min, Int64.max; lia | reflexivity].
        -- left. assert (Hin : Int64.in_range (l * -1)).
           { unfold Int64.in_range, Int64.min, Int64.max in *. lia. }
           split; [exact Hin | now rewrite wrap_in_range].
      * assert (r = 0) by lia. subst r.
        left. assert (Hin : Int64.in_range (l * 0)).
        { rewrite Z.mul_0_r. unfold Int64.in_range, Int64.min, Int64.max. lia. }
        split; [exact Hin | now rewrite wrap_in_range].
Qed.

(** C9: for 64-bit operands, integer multiplication raises an evaluation
    error, located at the left operand's source position, exactly when the
    mathematical product is not representable in 64 bits (an overflow above
    the maximum, an underflow below the minimum); otherwise it returns the
    exact product. *)
Theorem multiply_checks_overflow pos l r :
  Int64.in_range l -> Int64.in_range r ->
  (is_raise (multiply pos l r) = true <-> ~ Int64.in_range (l * r)) /\
  (Int64.in_range (l * r) -> multiply pos l r = Ok (l * r)) /\
  (forall e, multiply pos l r = Raise e ->
     where_ e = pos /\ left_operand e = l /\ right_operand e = r /\
     (fault e = overflow <-> l * r > Int64.max) /\
     (fault e = underflow <-> l * r < Int64.min)).
Proof.
  intros Hl Hr.
  destruct (multiply_cases pos l r Hl Hr) as [[Hin He]|[[Hov He]|[Hun He]]];
    rewrite He; cbn.
  - split; [|split].
    + split; [discriminate | intros Hn; contradiction].
    + reflexivity.
    + discriminate.
  - assert (Hn : ~ Int64.in_range (l * r)) by (unfold Int64.in_range; lia).
    split; [|split].
    + tauto.
    + intros Hin; contradiction.
    + intros e [= <-]. cbn. repeat split; try lia; try discriminate.
      unfold Int64.min, Int64.max in *. lia.
  - assert (Hn : ~ Int64.in_range (l * r)) by (unfold Int64.in_range; lia).
    split; [|split].
    + tauto.
    + intros Hin; contradiction.
    + intros e [= <-]. cbn. repeat split; try lia; try discriminate.
      unfold Int64.min, Int64.max in *. lia.
Qed.

Lemma multiply_checks_overflow_witness :
  (is_raise (multiply sample_position (2 ^ 62) 2) = true <-> ~ Int64.in_range (2 ^ 62 * 2)) /\
  (Int64.in_range (2 ^ 62 * 2) -> multiply sample_position (2 ^ 62) 2 = Ok (2 ^ 62 * 2)) /\
  (forall e, multiply sample_position (2 ^ 62) 2 = Raise e ->
     where_ e = sample_position /\ left_operand e = 2 ^ 62 /\ right_operand e = 2 /\
     (fault e = overflow <-> 2 ^ 62 * 2 > Int64.max) /\
     (fault e = underflow <-> 2 ^ 62 * 2 < Int64.min)).
Proof.
  apply (multiply_checks_overflow sample_position (2 ^ 62) 2);
    unfold Int64.in_range, Int64.min, Int64.max; lia.
Defined.

End MultiplyFacts.

Section FormatterFacts.
Import Formatter.

Lemma low_dword_is_zero value :
  Int64.to_uint32 (Z.land (Int64.to_uint64 value) (Z.shiftr 1 32)) = 0.
Proof. change (Z.shiftr 1 32) with 0. now rewrite Z.land_0_r. Qed.

(** Whatever the integer, the code point that reaches the encoder is 0. *)
Lemma format_integer_c_low f value :
  0 <= value < 2 ^ 32 ->
  format_integer_c f value = Ok (format_string f [0]).
Proof.
  intros Hv. unfold format_integer_c. rewrite low_dword_is_zero.
  unfold Int64.to_uint64, Int64.to_uint32.
  rewrite (Z.mod_small value) by lia.
  rewrite Z.shiftr_div_pow2 by lia.
  rewrite (Z.div_small value) by lia.
  reflexivity.
Qed.

(** C2: formatting the integer 65 with [%c] prints the octet 0 (the code
    point U+0000), where the code point whose scalar value is 65 has the
    text "A" (the single octet 65): the mask of the low double word,
    [1ull >> 32], is zero. *)
Theorem format_integer_c_65 :
  format_integer_c percent_c 65 = Ok [0] /\
  code_point_text percent_c 65 = Ok [65].
Proof. split; reflexivity. Qed.

End FormatterFacts.

Section StringFacts.
Local Open Scope string_scope.
Local Open Scope nat_scope.

Lemma append_cons c (a b : string) : String c a ++ b = String c (a ++ b).
Proof. reflexivity. Qed.

Lemma append_nil_l (b : string) : "" ++ b = b.
Proof. reflexivity. Qed.

Lemma append_nil_r (s : string) : s ++ "" = s.
Proof. induction s as [|c s IH]; [reflexivity | now rewrite append_cons, IH]. Qed.

Lemma append_assoc (a b c : string) : (a ++ b) ++ c = a ++ (b ++ c).
Proof. induction a as [|x a IH]; [reflexivity | now rewrite !append_cons, IH]. Qed.

Lemma append_length (a b : string) :
  String.length (a ++ b) = String.length a + String.length b.
Proof.
  induction a as [|x a IH]; [reflexivity|].
  rewrite append_cons. cbn. now rewrite IH.
Qed.

Lemma append_eq_nil (a b : string) : a ++ b = "" -> a = "" /\ b = "".
Proof. destruct a; [auto | rewrite append_cons; discriminate]. Qed.

Lemma substring_prefix (a b : string) : substring 0 (String.length a) (a ++ b) = a.
Proof.
  induction a as [|x a IH].
  - rewrite append_nil_l. destruct b; reflexivity.
  - rewrite append_cons. cbn. now rewrite IH.
Qed.

Lemma ascii_compare_refl (c : ascii) : Ascii.compare c c = Eq.
Proof. unfold Ascii.compare. apply N.compare_refl. Qed.

Lemma compare_proper_prefix (p r : string) : r <> "" -> String.compare p (p ++ r) = Lt.
Proof.
  intros Hr. induction p as [|c p IH].
  - rewrite append_nil_l. destruct r; [contradiction | reflexivity].
  - rewrite append_cons. cbn. now rewrite ascii_compare_refl.
Qed.

Lemma to_lower_append (a b : string) :
  Node.to_lower (a ++ b) = Node.to_lower a ++ Node.to_lower b.
Proof.
  induction a as [|x a IH]; [reflexivity|].
  rewrite append_cons. cbn. now rewrite append_cons, IH.
Qed.

Lemma to_lower_length (a : string) : String.length (Node.to_lower a) = String.length a.
Proof. induction a as [|x a IH]; cbn; [reflexivity | now rewrite IH]. Qed.

Lemma to_lower_nil (a : string) : Node.to_lower a = "" -> a = "".
Proof. destruct a; cbn; [reflexivity | discriminate]. Qed.

End StringFacts.

Section NodeFacts.
Import Node.
Local Open Scope string_scope.
Local Open Scope nat_scope.

Lemma tokens_subnames s : forall pre start,
  start <= String.length pre ->
  omap (token_subname (pre ++ s)) (split_tokens s start (String.length pre))
  = subnames_from pre (start <? String.length pre) s.
Proof.
  assert (Htok : forall pre start rest, start <= String.length pre ->
    token_subname (pre ++ rest) (start, String.length pre)
    = if start <? String.length pre then Some pre else None).
  { intros pre start rest Hle. unfold token_subname. cbn [fst snd].
    destruct (Nat.eqb_spec start (String.length pre)) as [->|Hne].
    - now rewrite Nat.ltb_irrefl.
    - replace (start <? String.length pre) with true
        by (symmetry; apply Nat.ltb_lt; lia).
      now rewrite substring_prefix. }
  induction s as [|c s IH]; intros pre start Hle.
  - cbn [split_tokens subnames_from omap list_omap]. rewrite Htok by lia.
    destruct (start <? String.length pre); reflexivity.
  - assert (Hpre : pre ++ String c s = (pre ++ String c "") ++ s)
      by (now rewrite append_assoc).
    assert (Hlen : String.length (pre ++ String c "") = S (String.length pre))
      by (rewrite append_length; cbn; lia).
    cbn [split_tokens subnames_from].
    destruct (is_dot c) eqn:Hdot.
    + cbn [omap list_omap]. rewrite Htok by lia.
      assert (Hc : c = "."%char) by (now apply Ascii.eqb_eq).
      rewrite Hpre, <- Hlen, IH by lia. rewrite Nat.ltb_irrefl. subst c.
      destruct (start <? String.length pre); reflexivity.
    + rewrite Hpre, <- Hlen, IH by (rewrite Hlen; lia).
      replace (start <? String.length (pre ++ String c "")) with true
        by (symmetry; apply Nat.ltb_lt; rewrite Hlen; lia).
      reflexivity.
Qed.

Lemma fold_add_subname name tokens : forall acc,
  fold_left (add_subname name) tokens acc
  = fold_left (fun names q => emplace (to_lower q) names)
              (omap (token_subname name) tokens) acc.
Proof.
  induction tokens as [|t tokens IH]; intros acc; cbn; [reflexivity|].
  rewrite IH. unfold add_subname, token_subname.
  destruct (fst t =? snd t); reflexivity.
Qed.

Lemma proper_prefix_trans p q r : proper_prefix p q -> proper_prefix q r -> proper_prefix p r.
Proof.
  intros (a & Ha & ->) (b & Hb & ->). exists (a ++ b). split.
  - intros H. apply append_eq_nil in H. tauto.
  - apply append_assoc.
Qed.

Lemma proper_prefix_snoc p x : proper_prefix p (p ++ x) <-> x <> "".
Proof.
  split.
  - intros (r & Hr & Heq) ->. rewrite append_nil_r in Heq.
    assert (Hl : String.length p = String.length (p ++ r)) by congruence.
    rewrite append_length in Hl. destruct r; [tauto | cbn in Hl; lia].
  - intros Hx. now exists x.
Qed.

Lemma proper_prefix_length p q : proper_prefix p q -> String.length p < String.length q.
Proof.
  intros (r & Hr & ->). rewrite append_length.
  destruct r; [contradiction | cbn; lia].
Qed.

Lemma proper_prefix_lower p q :
  proper_prefix p q -> String.compare (to_lower p) (to_lower q) = Lt.
Proof.
  intros (r & Hr & ->). rewrite to_lower_append.
  apply compare_proper_prefix. intros H. now apply to_lower_nil in H.
Qed.

(** The subnames come shortest first, each a proper prefix of the next. *)
Lemma subnames_from_chain s : forall pre nonempty,
  StronglySorted proper_prefix (subnames_from pre nonempty s) /\
  Forall (fun q => (nonempty = true /\ q = pre) \/ proper_prefix pre q)
         (subnames_from pre nonempty s).
Proof.
  induction s as [|c s IH]; intros pre nonempty; cbn [subnames_from].
  - destruct nonempty; split; repeat constructor.
  - destruct (is_dot c).
    + destruct (IH (pre ++ ".") false) as [Hs Hf].
      assert (Hext : Forall (proper_prefix pre) (subnames_from (pre ++ ".") false s)).
      { eapply List.Forall_impl; [|exact Hf]. cbn. intros q [[Hc _]|Hq]; [discriminate|].
        eapply proper_prefix_trans; [|exact Hq].
        apply proper_prefix_snoc. discriminate. }
      destruct nonempty; cbn [app].
      * split; [now constructor|]. constructor; [left; auto|].
        eapply List.Forall_impl; [|exact Hext]. cbn. auto.
      * split; [exact Hs|]. eapply List.Forall_impl; [|exact Hext]. cbn. auto.
    + destruct (IH (pre ++ String c "") true) as [Hs Hf].
      split; [exact Hs|]. eapply List.Forall_impl; [|exact Hf]. cbn.
      intros q [[_ ->]|Hq]; right.
      * apply proper_prefix_snoc. discriminate.
      * eapply proper_prefix_trans; [|exact Hq].
        apply proper_prefix_snoc. discriminate.
Qed.

Lemma sorted_before {A} (R : A -> A -> Prop) (a : list A) x (l : list A) :
  StronglySorted R (a ++ x :: l) -> Forall (fun y => R y x) a.
Proof.
  induction a as [|y a IH]; cbn [app]; intros H; [constructor|].
  apply StronglySorted_inv in H as [Hs Hf]. constructor.
  - rewrite List.Forall_app in Hf. destruct Hf as [_ Hf]. now inversion Hf.
  - now apply IH.
Qed.

Lemma sorted_snoc {A} (R : A -> A -> Prop) (l : list A) x :
  StronglySorted R l -> Forall (fun y => R y x) l -> StronglySorted R (l ++ [x]).
Proof.
  induction l as [|y l IH]; cbn [app]; intros Hs Hf.
  - repeat constructor.
  - apply StronglySorted_inv in Hs as [Hs Hy]. inversion Hf; subst.
    constructor; [now apply IH|]. rewrite List.Forall_app. split; [exact Hy|].
    now repeat constructor.
Qed.

Lemma sorted_rev {A} (R : A -> A -> Prop) (l : list A) :
  StronglySorted R l -> StronglySorted (fun a b => R b a) (rev l).
Proof.
  induction l as [|y l IH]; cbn [rev]; intros Hs; [constructor|].
  apply StronglySorted_inv in Hs as [Hs Hy].
  apply sorted_snoc; [now apply IH|].
  rewrite List.Forall_forall in *. intros z Hz. apply Hy. now apply in_rev.
Qed.

Lemma sorted_map {A B} (R : A -> A -> Prop) (Q : B -> B -> Prop) (f : A -> B) l :
  (forall a b, R a b -> Q (f a) (f b)) ->
  StronglySorted R l -> StronglySorted Q (map f l).
Proof.
  intros HRQ. induction 1 as [|a l Hs IH Hf]; cbn [map]; constructor; [exact IH|].
  rewrite List.Forall_forall in *. intros b Hb. apply in_map_iff in Hb as (x & <- & Hx).
  auto.
Qed.

(** Emplacing a string greater than all the set appends it. *)
Lemma emplace_greatest x set :
  Forall (fun y => String.compare y x = Lt) set -> emplace x set = (set ++ [x])%list.
Proof.
  induction 1 as [|y set Hy Hf IH]; cbn [emplace app]; [reflexivity|].
  rewrite compare_antisym, Hy. cbn. now rewrite IH.
Qed.

Lemma fold_emplace_chain l : forall acc,
  StronglySorted proper_prefix (acc ++ l) ->
  fold_left (fun names q => emplace (to_lower q) names) l (map to_lower acc)
  = map to_lower (acc ++ l).
Proof.
  induction l as [|q l IH]; intros acc Hs; cbn [fold_left].
  - now rewrite app_nil_r.
  - rewrite emplace_greatest.
    + replace (map to_lower acc ++ [to_lower q])%list with (map to_lower (acc ++ [q]))
        by (now rewrite map_app).
      rewrite IH; rewrite <- app_assoc; [reflexivity | exact Hs].
    + apply sorted_before in Hs. rewrite List.Forall_forall in *.
      intros y Hy. apply in_map_iff in Hy as (z & <- & Hz).
      apply proper_prefix_lower. auto.
Qed.

(** The set a node holds: the lowercased subnames, shortest first. *)
Lemma make_node_names name : _names (make_node name) = map to_lower (subnames name).
Proof.
  unfold make_node. cbn [_names]. rewrite fold_add_subname.
  change name with ("" ++ name) at 1.
  change 0 with (String.length "") at 2.
  rewrite tokens_subnames by (cbn; lia). cbn [String.length].
  rewrite Nat.ltb_irrefl. fold (subnames name).
  apply (fold_emplace_chain (subnames name) []). cbn [app].
  apply subnames_from_chain.
Qed.

Lemma each_in_record l : forall acc,
  each_in (fun name seen => (name :: seen, true)) l acc = (rev l ++ acc)%list.
Proof.
  induction l as [|x l IH]; intros acc; cbn [each_in rev]; [reflexivity|].
  rewrite IH, <- app_assoc. reflexivity.
Qed.

Lemma visited_names n : visited n = rev (_names n).
Proof.
  unfold visited, each_name. rewrite each_in_record, app_nil_r.
  now rewrite rev_involutive.
Qed.

Lemma ends_in_dot_cons c s : s <> "" -> ends_in_dot (String c s) = ends_in_dot s.
Proof. destruct s; [contradiction | reflexivity]. Qed.

Lemma boundary_cons c s : boundary (String c s) <-> is_dot c = true.
Proof.
  unfold boundary, is_dot. rewrite Ascii.eqb_eq. split.
  - intros [H|(rest & H)]; [discriminate | now injection H].
  - intros ->. right. now exists s.
Qed.

Lemma subnames_from_in s : forall pre nonempty q,
  In q (subnames_from pre nonempty s) <->
  (nonempty = true /\ q = pre /\ boundary s) \/
  (exists s1 s2, s = s1 ++ s2 /\ s1 <> "" /\ q = pre ++ s1 /\
                 ends_in_dot s1 = false /\ boundary s2).
Proof.
  induction s as [|c s IH]; intros pre nonempty q; cbn [subnames_from].
  - split.
    + destruct nonempty; cbn; [|tauto]. intros [<-|[]]. left.
      repeat split. now left.
    + intros [(-> & -> & _)|(s1 & s2 & Hs & Hne & _)]; [now left|].
      symmetry in Hs. apply append_eq_nil in Hs. tauto.
  - destruct (is_dot c) eqn:Hdot.
    + assert (c = "."%char) by (now apply Ascii.eqb_eq). subst c.
      rewrite in_app_iff, IH. split.
      * intros [Hin|[(Hc & _)|(s1 & s2 & -> & Hne & -> & He & Hb)]].
        -- destruct nonempty; cbn in Hin; [|tauto]. destruct Hin as [<-|[]].
           left. repeat split. now apply boundary_cons.
        -- discriminate.
        -- right. exists (String "." s1), s2. repeat split; try assumption.
           ++ discriminate.
           ++ now rewrite append_assoc.
           ++ now rewrite ends_in_dot_cons.
      * intros [(-> & -> & _)|(s1 & s2 & Hs & Hne & -> & He & Hb)]; [left; now left|].
        right. right. destruct s1 as [|x s1]; [contradiction|].
        rewrite append_cons in Hs. injection Hs as <- ->.
        destruct s1 as [|y s1]; [discriminate He|].
        exists (String y s1), s2. repeat split; try assumption.
        -- discriminate.
        -- now rewrite append_assoc.
    + rewrite IH. split.
      * intros [(_ & -> & Hb)|(s1 & s2 & -> & Hne & -> & He & Hb)]; right.
        -- exists (String c ""), s. repeat split; try assumption. discriminate.
        -- exists (String c s1), s2. repeat split; try assumption.
           ++ discriminate.
           ++ now rewrite append_assoc.
           ++ now rewrite ends_in_dot_cons.
      * intros [(_ & _ & Hb)|(s1 & s2 & Hs & Hne & -> & He & Hb)].
        -- apply boundary_cons in Hb. congruence.
        -- destruct s1 as [|x s1]; [contradiction|].
           rewrite append_cons in Hs. injection Hs as <- ->.
           destruct s1 as [|y s1].
           ++ left. repeat split. exact Hb.
           ++ right. exists (String y s1), s2. repeat split; try assumption.
              ** discriminate.
              ** now rewrite append_assoc.
Qed.

Lemma subnames_in name q : In q (subnames name) <-> subname name q.
Proof.
  unfold subnames, subname. rewrite subnames_from_in. split.
  - intros [(Hc & _)|(s1 & s2 & -> & Hne & -> & He & Hb)]; [discriminate|].
    exists s2. auto.
  - intros (rest & -> & Hne & He & Hb). right. exists q, rest. auto.
Qed.

(** When the name ends in a non-empty component the whole name is the
    last, longest subname. *)
Lemma subnames_from_last s : forall pre nonempty,
  (s <> "" -> ends_in_dot s = false) -> (s = "" -> nonempty = true) ->
  exists l, subnames_from pre nonempty s = app l [pre ++ s].
Proof.
  induction s as [|c s IH]; intros pre nonempty He Hn; cbn [subnames_from].
  - rewrite Hn by reflexivity. exists []. now rewrite append_nil_r.
  - assert (He' : s <> "" -> ends_in_dot s = false).
    { intros Hs. rewrite <- (ends_in_dot_cons c) by exact Hs. now apply He. }
    assert (Hpre : pre ++ String c s = (pre ++ String c "") ++ s)
      by (now rewrite append_assoc).
    destruct (is_dot c) eqn:Hdot.
    + assert (Hs : s <> "").
      { intros ->. specialize (He ltac:(discriminate)). cbn in He. congruence. }
      assert (c = "."%char) by (now apply Ascii.eqb_eq). subst c.
      destruct (IH (pre ++ ".") false He' ltac:(tauto)) as [l Hl].
      rewrite Hl, Hpre. eexists. now rewrite app_assoc.
    + destruct (IH (pre ++ String c "") true He' ltac:(auto)) as [l Hl].
      rewrite Hl, Hpre. now exists l.
Qed.

Lemma visited_head name :
  subname name name -> head (visited (make_node name)) = Some (to_lower name).
Proof.
  intros (rest & Heq & Hne & He & _).
  assert (Hrest : rest = "").
  { assert (Hl : String.length name = String.length (name ++ rest)) by congruence.
    rewrite append_length in Hl. destruct rest; [reflexivity | cbn in Hl; lia]. }
  destruct (subnames_from_last name "" false) as [l Hl]; [tauto | tauto |].
  rewrite visited_names, make_node_names. unfold subnames. rewrite Hl.
  now rewrite map_app, rev_app_distr.
Qed.

End NodeFacts.

Section RegistryFacts.
Import Node Registry.
Context {engine : RegexEngine}.
Local Open Scope string_scope.
Local Open Scope nat_scope.

Lemma find_first {A} (f : A -> bool) pre x post :
  Forall (fun y => f y = false) pre -> f x = true ->
  List.find f (pre ++ x :: post)%list = Some x.
Proof.
  induction 1 as [|y pre Hy _ IH]; intros Hx; cbn.
  - now rewrite Hx.
  - rewrite Hy. now apply IH.
Qed.

Lemma find_none_all {A} (f : A -> bool) l :
  Forall (fun y => f y = false) l -> List.find f l = None.
Proof. induction 1 as [|y l Hy _ IH]; cbn; [reflexivity | now rewrite Hy]. Qed.

Lemma callback_unmatched r name st :
  unmatched r name -> find_node_callback r name st = (st, true).
Proof.
  intros [Hn Hr]. unfold find_node_callback, search_regexes.
  now rewrite Hn, find_none_all.
Qed.

Lemma each_in_unmatched r pre : forall rest st,
  Forall (unmatched r) pre ->
  each_in (find_node_callback r) (pre ++ rest)%list st
  = each_in (find_node_callback r) rest st.
Proof.
  induction pre as [|c pre IH]; intros rest st Hf; [reflexivity|].
  inversion Hf; subst. cbn [app each_in].
  rewrite callback_unmatched by assumption. now apply IH.
Qed.

Lemma find_node_each r n :
  _nodes r <> [] ->
  find_node r n =
  match each_in (find_node_callback r) (visited n) (None, "") with
  | (Some definition, node_name) => (Some definition, node_name)
  | (None, _) =>
      match _default_node_index r with
      | None => (None, "")
      | Some index => (Some index, "default")
      end
  end.
Proof.
  intros Hne. unfold find_node, each_name. rewrite visited_names.
  destruct (_nodes r); [contradiction | reflexivity].
Qed.

(** C5: with at least one node definition registered, the candidate names
    are taken one at a time, most specific first, and for each of them the
    literal hostnames are looked up first, then the regex patterns in
    insertion order; the search ends at the first candidate that has a
    match, and the default clause is used only when no candidate has any.
    The literal lookup is by equality with the whole candidate, and each
    regex is searched for in the whole candidate. *)
Theorem find_node_candidate_order (r : registry) (n : node) :
  _nodes r <> [] ->
  (forall pre c post, visited n = (pre ++ c :: post)%list -> Forall (unmatched r) pre ->
     (forall index, _named_nodes r !! c = Some index -> find_node r n = (Some index, c)) /\
     (forall rpre rx index rpost,
        _named_nodes r !! c = None ->
        _regex_nodes r = (rpre ++ (rx, index) :: rpost)%list ->
        Forall (fun kvp => regex_search (fst kvp) c = false) rpre ->
        regex_search rx c = true ->
        find_node r n = (Some index, "/" ++ regex_pattern rx ++ "/"))) /\
  (Forall (unmatched r) (visited n) ->
     find_node r n = match _default_node_index r with
                     | Some index => (Some index, "default")
                     | None => (None, "")
                     end).
Proof.
  intros Hne. rewrite find_node_each by exact Hne. split.
  - intros pre c post -> Hpre. rewrite each_in_unmatched by exact Hpre.
    cbn [each_in]. unfold find_node_callback at 1 3. split.
    + intros index ->. reflexivity.
    + intros rpre rx index rpost -> -> Hrpre Hrx. unfold search_regexes.
      rewrite (find_first (fun kvp => regex_search (fst kvp) c) rpre (rx, index) rpost)
        by assumption.
      reflexivity.
  - intros Hall. rewrite <- (app_nil_r (visited n)).
    rewrite each_in_unmatched by exact Hall. cbn [each_in].
    destruct (_default_node_index r); reflexivity.
Qed.

Lemma map_emplace_mono k v (m : gmap string nat) k' :
  is_Some (m !! k') -> is_Some (map_emplace k v m !! k').
Proof.
  intros Hk. unfold map_emplace. destruct (m !! k) eqn:Hm; [exact Hk|].
  destruct (decide (k = k')) as [->|Hne].
  - rewrite Hm in Hk. now destruct Hk.
  - now rewrite lookup_insert_ne.
Qed.

Lemma map_emplace_key k v (m : gmap string nat) : is_Some (map_emplace k v m !! k).
Proof.
  unfold map_emplace. destruct (m !! k) eqn:Hm.
  - rewrite Hm. eauto.
  - rewrite lookup_insert_eq. eauto.
Qed.

Lemma add_hostname_mono index hosts : forall acc k,
  is_Some (fst acc !! k) ->
  is_Some (fst (fold_left (add_hostname index) hosts acc) !! k).
Proof.
  induction hosts as [|h hosts IH]; intros acc k Hk; [exact Hk|].
  cbn [fold_left]. apply IH. destruct h; cbn; try exact Hk.
  now apply map_emplace_mono.
Qed.

Lemma add_hostname_named index hosts : forall acc h,
  In (host_name h) hosts ->
  is_Some (fst (fold_left (add_hostname index) hosts acc) !! to_lower h).
Proof.
  induction hosts as [|x hosts IH]; intros acc h Hin; [destruct Hin|].
  destruct Hin as [Heq|Hin]; cbn [fold_left].
  - subst x. apply add_hostname_mono. cbn. apply map_emplace_key.
  - now apply IH.
Qed.

(** After a registration without conflict each literal hostname is a key
    of the name index, in lower case. *)
Lemma register_node_lowercases nd (r r' : registry) h :
  register_node nd r = Ok (None, r') ->
  In (host_name h) (hostnames (statement nd)) ->
  is_Some (_named_nodes r' !! to_lower h) /\ _nodes r' <> [].
Proof.
  unfold register_node. intros Hreg Hin.
  destruct (find_conflict r (hostnames (statement nd))); [discriminate|].
  destruct (create_regexes (hostnames (statement nd))) as [regexes|e]; [|discriminate].
  cbn [bind] in Hreg.
  pose proof (add_hostname_named (length (_nodes r ++ [nd])%list - 1)
                (hostnames (statement nd)) (_named_nodes r, _default_node_index r) h Hin)
    as Hnamed.
  destruct (fold_left _ _ _) as [named default]. injection Hreg as <-.
  cbn [_named_nodes _nodes]. split; [exact Hnamed|].
  destruct (_nodes r); discriminate.
Qed.

End RegistryFacts.

Section RegistryExamples.
Import Node Registry.
Local Open Scope string_scope.
Local Open Scope nat_scope.

Lemma find_node_candidate_order_witness :
  find_node two_nodes_registry (make_node "foo.bar") = (Some 1, "/bar/").
Proof.
  destruct (find_node_candidate_order (engine := plain_engine)
              two_nodes_registry (make_node "foo.bar")) as [H _].
  - vm_compute. discriminate.
  - destruct (H [] "foo.bar" ["foo"] eq_refl (List.Forall_nil _)) as [_ H2].
    apply (H2 [] "bar" 1 []).
    + vm_compute. reflexivity.
    + vm_compute. reflexivity.
    + constructor.
    + vm_compute. reflexivity.
Defined.

(** C5, as worded: the candidate [foo] of the node [foo.bar] has a literal
    hostname, yet the node is matched by the regex [/bar/], which is
    searched for in the candidate [foo.bar] before the literal [foo] is
    looked up, and which matches a part of that candidate only. *)
Lemma find_node_regex_before_literal :
  _named_nodes two_nodes_registry !! "foo" = Some 0 /\
  In "foo" (visited (make_node "foo.bar")) /\
  find_node two_nodes_registry (make_node "foo.bar") = (Some 1, "/bar/") /\
  regex_search (RegexEngine := plain_engine) "bar" "foo.bar" = true /\
  find_node_literals_first two_nodes_registry (make_node "foo.bar") = (Some 0, "foo").
Proof. vm_compute. repeat split; auto. Qed.

(** C10: every prefix of the node name that ends with a non-empty
    component is a candidate, in lower case, and there are no others; the
    candidates are visited longest first, the full name first when the
    name ends with a non-empty component; a literal hostname is indexed in
    lower case when its definition is registered, so a node whose name
    differs from the hostname only in case is matched by it. *)
Theorem node_candidate_names (name : string) :
  (forall p, In p (visited (make_node name)) <->
             exists q, subname name q /\ p = to_lower q) /\
  StronglySorted (fun a b => String.length b < String.length a)
                 (visited (make_node name)) /\
  (subname name name -> head (visited (make_node name)) = Some (to_lower name)) /\
  (forall (engine : RegexEngine) nd (r r' : registry) h,
     register_node nd r = Ok (None, r') ->
     In (host_name h) (hostnames (statement nd)) ->
     is_Some (_named_nodes r' !! to_lower h) /\
     (subname name name -> to_lower name = to_lower h ->
      exists index, _named_nodes r' !! to_lower h = Some index /\
                    find_node r' (make_node name) = (Some index, to_lower h))).
Proof.
  split; [|split; [|split]].
  - intros p. rewrite visited_names, make_node_names, <- in_rev, in_map_iff.
    split.
    + intros (q & <- & Hq). exists q. split; [now apply subnames_in | reflexivity].
    + intros (q & Hq & ->). exists q. split; [reflexivity | now apply subnames_in].
  - rewrite visited_names, make_node_names.
    apply (sorted_rev (fun a b => String.length a < String.length b)).
    apply (sorted_map proper_prefix).
    + intros a b Hab. rewrite !to_lower_length. now apply proper_prefix_length.
    + apply subnames_from_chain.
  - apply visited_head.
  - intros engine nd r r' h Hreg Hin.
    destruct (register_node_lowercases nd r r' h Hreg Hin) as [[index Hidx] Hne].
    split; [eauto|]. intros Hfull Hcase. exists index. split; [exact Hidx|].
    rewrite find_node_each by exact Hne.
    pose proof (visited_head name Hfull) as Hhead.
    destruct (visited (make_node name)) as [|c rest]; [discriminate|].
    injection Hhead as ->. cbn [each_in]. unfold find_node_callback.
    rewrite Hcase, Hidx. reflexivity.
Qed.

Lemma node_candidate_names_witness :
  exists index,
    _named_nodes mixed_case_registry !! "foo.example.com" = Some index /\
    find_node mixed_case_registry (make_node "FOO.example.com")
    = (Some index, "foo.example.com").
Proof.
  destruct (node_candidate_names "FOO.example.com") as (_ & _ & _ & H).
  destruct (H plain_engine mixed_case_node empty mixed_case_registry "Foo.Example.COM")
    as [_ Hfind].
  - vm_compute. reflexivity.
  - left. reflexivity.
  - apply Hfind.
    + exists "". repeat split; [discriminate | now left].
    + reflexivity.
Defined.

(** C10, as worded: [foo.] is a dot-separated prefix of [foo..bar], and is
    not among the candidates of a node of that name; and the only candidate
    of the node [Foo.] is [foo], which is not the full name. *)
Lemma node_names_skip_empty_components :
  dot_prefix "foo..bar" "foo." /\
  ~ In (to_lower "foo.") (visited (make_node "foo..bar")) /\
  visited (make_node "Foo.") = ["foo"].
Proof.
  split; [|split].
  - exists ".bar". split; [reflexivity | right; now exists "bar"].
  - vm_compute. intros [H|[H|[]]]; discriminate.
  - reflexivity.
Qed.

End RegistryExamples.

Section StackFacts.
Import Evaluation.
Context {defined_type collector resource_relationship : Type}.
Abbreviation context := (@context defined_type collector resource_relationship).
Local Open Scope nat_scope.

Lemma pop_push_match_scope (ctx : context) : pop_match_scope (push_match_scope ctx) = ctx.
Proof.
  destruct ctx. unfold pop_match_scope, push_match_scope, with_match_stack.
  cbn. now rewrite removelast_last.
Qed.

Lemma pop_match_scope_call_stack (ctx : context) :
  _call_stack (pop_match_scope ctx) = _call_stack ctx.
Proof. reflexivity. Qed.

Lemma scoped_stack_frame_balanced {A} frame (body : action_ A) (ctx : context) :
  (forall c, _call_stack (state_of (body c)) = _call_stack c) ->
  _call_stack (state_of (scoped_stack_frame frame body ctx)) = _call_stack ctx.
Proof.
  intros Hbody. unfold scoped_stack_frame.
  destruct (MAX_STACK_DEPTH <? _); [reflexivity|].
  match goal with |- context [body ?c] => specialize (Hbody c); destruct (body c) end;
    cbn in *; rewrite Hbody; now rewrite removelast_last.
Qed.

Lemma leave_pushed (ctx : context) frame :
  pop_match_scope
    (pop_frame (with_call_stack (push_match_scope ctx) (_call_stack ctx ++ [frame])%list))
  = ctx.
Proof.
  destruct ctx. unfold pop_match_scope, pop_frame, push_match_scope, with_match_stack,
    with_call_stack. cbn. now rewrite !removelast_last.
Qed.

(** A frame on a call stack of at most [MAX_STACK_DEPTH] frames is pushed,
    and popped when its block ends or throws. *)
Lemma scoped_stack_frame_pushes {A} frame (body : action_ A) (ctx : context) :
  length (_call_stack ctx) <= MAX_STACK_DEPTH ->
  scoped_stack_frame frame body ctx
  = match body (with_call_stack (push_match_scope ctx) (_call_stack ctx ++ [frame])%list) with
    | Done a ctx' => Done a (pop_match_scope (pop_frame ctx'))
    | Thrown e ctx' => Thrown e (pop_match_scope (pop_frame ctx'))
    end.
Proof.
  intros Hdepth. unfold scoped_stack_frame.
  replace (MAX_STACK_DEPTH <? length (_call_stack (push_match_scope ctx))) with false
    by (symmetry; apply Nat.ltb_ge; exact Hdepth).
  reflexivity.
Qed.

Lemma scoped_stack_frame_refuses {A} frame (body : action_ A) (ctx : context) :
  MAX_STACK_DEPTH < length (_call_stack ctx) ->
  scoped_stack_frame frame body ctx
  = Thrown {| what := maximum_stack_depth_reached (frame_name frame);
              where_ := no_context;
              backtrace_ := backtrace ctx |} ctx.
Proof.
  intros Hdeep. unfold scoped_stack_frame.
  replace (MAX_STACK_DEPTH <? length (_call_stack (push_match_scope ctx))) with true
    by (symmetry; apply Nat.ltb_lt; exact Hdeep).
  now rewrite pop_push_match_scope.
Qed.

(** The depth the innermost of [n] nested frames sees. *)
Lemma nested_depth_reached frame n : forall ctx : context,
  n = 0 \/ length (_call_stack ctx) + n <= MAX_STACK_DEPTH + 1 ->
  nested n frame depth ctx = Done (length (_call_stack ctx) + n) ctx.
Proof.
  induction n as [|n IH]; intros ctx Hn; cbn [nested].
  - unfold depth. now rewrite Nat.add_0_r.
  - rewrite scoped_stack_frame_pushes by lia.
    rewrite IH.
    + cbn [_call_stack with_call_stack]. rewrite length_app, leave_pushed. cbn [length].
      f_equal. lia.
    + right. cbn [_call_stack with_call_stack]. rewrite length_app. cbn [length]. lia.
Qed.

Lemma nested_depth_refused frame n : forall ctx : context,
  MAX_STACK_DEPTH + 1 < length (_call_stack ctx) + n -> 0 < n ->
  is_done (nested n frame depth ctx) = false.
Proof.
  induction n as [|n IH]; intros ctx Hdeep Hn; [lia|]. cbn [nested].
  destruct (Nat.le_gt_cases (length (_call_stack ctx)) MAX_STACK_DEPTH) as [Hle|Hgt].
  - rewrite scoped_stack_frame_pushes by exact Hle.
    match goal with |- context [nested n frame depth ?c] =>
      specialize (IH c); destruct (nested n frame depth c) end; [|reflexivity].
    cbn [_call_stack with_call_stack] in IH. rewrite length_app in IH. cbn [length] in IH.
    cbn [is_done] in IH. assert (true = false) by (apply IH; lia). discriminate.
  - now rewrite scoped_stack_frame_refuses.
Qed.

(** C3: the call stack never holds more than [MAX_STACK_DEPTH + 1] frames,
    that is 1001.  The cap is the constant [MAX_STACK_DEPTH], which is 1000,
    the same for every context and every frame.  A frame pushed on a call
    stack that holds at most [MAX_STACK_DEPTH] frames is pushed: its block
    runs with the frame on top of a call stack of at most 1001 frames, and
    the frame and its match scope are popped when the block ends and when
    it throws.  A frame pushed on a call stack that holds more than
    [MAX_STACK_DEPTH] frames raises the "maximum stack depth reached" error
    instead, and leaves the context as it was.  So the innermost of [n]
    frames nested in one another, when it is reached, sees a call stack
    [n] frames deeper and of at most 1001 frames, and it is reached exactly
    when that depth is at most 1001.  And when the block a frame encloses
    leaves the call stack as it found it, whether it ends or throws, so
    does the frame: the push is undone on both paths. *)
Theorem stack_frames_unwind {A} frame (body : action_ A) (ctx : context) :
  MAX_STACK_DEPTH = 1000 /\
  (length (_call_stack ctx) <= MAX_STACK_DEPTH ->
   _call_stack (with_call_stack (push_match_scope ctx) (_call_stack ctx ++ [frame])%list)
   = (_call_stack ctx ++ [frame])%list /\
   length (_call_stack ctx ++ [frame])%list <= MAX_STACK_DEPTH + 1 /\
   pop_match_scope
     (pop_frame (with_call_stack (push_match_scope ctx) (_call_stack ctx ++ [frame])%list))
   = ctx /\
   scoped_stack_frame frame body ctx
   = match body (with_call_stack (push_match_scope ctx)
                                 (_call_stack ctx ++ [frame])%list) with
     | Done a ctx' => Done a (pop_match_scope (pop_frame ctx'))
     | Thrown e ctx' => Thrown e (pop_match_scope (pop_frame ctx'))
     end) /\
  (MAX_STACK_DEPTH < length (_call_stack ctx) ->
   scoped_stack_frame frame body ctx
   = Thrown {| what := maximum_stack_depth_reached (frame_name frame);
               where_ := no_context;
               backtrace_ := backtrace ctx |} ctx) /\
  (forall n reached ctx', 0 < n ->
     nested n frame depth ctx = Done reached ctx' ->
     reached = length (_call_stack ctx) + n /\
     reached <= MAX_STACK_DEPTH + 1 /\ ctx' = ctx) /\
  (forall n, 0 < n ->
     (length (_call_stack ctx) + n <= MAX_STACK_DEPTH + 1 ->
      nested n frame depth ctx = Done (length (_call_stack ctx) + n) ctx) /\
     (MAX_STACK_DEPTH + 1 < length (_call_stack ctx) + n ->
      is_done (nested n frame depth ctx) = false)) /\
  ((forall c, _call_stack (state_of (body c)) = _call_stack c) ->
   forall n c, _call_stack (state_of (nested n frame body c)) = _call_stack c).
Proof.
  split; [reflexivity|]. split; [|split; [|split; [|split]]].
  - intros Hdepth. split; [reflexivity|]. split; [|split].
    + rewrite length_app. cbn [length]. lia.
    + apply leave_pushed.
    + now apply scoped_stack_frame_pushes.
  - apply scoped_stack_frame_refuses.
  - intros n reached ctx' Hn Hrun.
    destruct (Nat.le_gt_cases (length (_call_stack ctx) + n) (MAX_STACK_DEPTH + 1))
      as [Hle|Hgt].
    + rewrite nested_depth_reached in Hrun by (right; exact Hle).
      injection Hrun as <- <-. auto.
    + pose proof (nested_depth_refused frame n ctx Hgt Hn) as Hrefused.
      rewrite Hrun in Hrefused. discriminate.
  - intros n Hn. split.
    + intros Hle. apply nested_depth_reached. right. exact Hle.
    + intros Hgt. now apply nested_depth_refused.
  - intros Hbody n. induction n as [|n IH]; intros c; cbn [nested].
    + apply Hbody.
    + now apply scoped_stack_frame_balanced.
Qed.

End StackFacts.

Section StackExamples.
Import Evaluation.
Local Open Scope nat_scope.

(** Three frames nested on the empty call stack of a new context: the
    innermost sees three frames, and all are popped. *)
Lemma stack_frames_unwind_witness :
  nested 3 main_frame depth initial_context = Done 3 initial_context /\
  _call_stack (state_of (nested 3 main_frame depth initial_context)) = [] /\
  scoped_stack_frame main_frame depth initial_context = Done 1 initial_context.
Proof.
  destruct (stack_frames_unwind main_frame depth initial_context)
    as (_ & Hpush & _ & _ & Hnested & Hunwind).
  split; [|split].
  - apply (Hnested 3); [lia | cbn; lia].
  - apply (Hunwind (fun c => eq_refl) 3 initial_context).
  - destruct Hpush as (_ & _ & Hleave & ->); [cbn; lia |]. cbn. reflexivity.
Defined.

(** C3, as worded: 1001 frames nested in one another are all pushed, and
    the innermost block runs on a call stack 1001 frames deep; the 1002nd
    is the first to be refused. *)
Lemma call_stack_exceeds_cap :
  nested 1001 main_frame depth initial_context = Done 1001 initial_context /\
  is_done (nested 1002 main_frame depth initial_context) = false.
Proof. split; vm_compute; reflexivity. Qed.

End StackExamples.

Section FinalizeFacts.
Import Evaluation.
Context {klass defined_type collector resource_relationship : Type}.
Abbreviation ctx_ := (@context defined_type collector resource_relationship).
Context (ev : @evaluators klass defined_type collector resource_relationship).
Local Open Scope nat_scope.



















End FinalizeFacts.

Section FinalizeExamples.
Import Evaluation.
Local Open Scope nat_scope.


End FinalizeExamples.

Section OverrideFacts.
Import Evaluation.
Context {klass defined_type collector resource_relationship : Type}.
Abbreviation octx := (@context defined_type collector resource_relationship).
Context (ev : @evaluators klass defined_type collector resource_relationship).
Local Open Scope nat_scope.

Lemma list_find_insert_type ty (l : list resource) : forall i r r',
  l !! i = Some r -> type r' = type r ->
  fst <$> list_find (fun x => type x = ty) (<[i := r']> l)
  = fst <$> list_find (fun x => type x = ty) l.
Proof.
  induction l as [|x l IH]; intros i r r' Hi Hty; [discriminate|].
  destruct i as [|i]; cbn in *.
  - injection Hi as ->. rewrite Hty.
    destruct (decide (type r = ty)); reflexivity.
  - destruct (decide (type x = ty)); [reflexivity|].
    specialize (IH i r r' Hi Hty).
    destruct (list_find _ (<[i := r']> l)) as [[]|], (list_find _ l) as [[]|];
      cbn in *; congruence.
Qed.

Lemma find_update c index r r' ty :
  resources c !! index = Some r -> type r' = type r ->
  find (update c index r') ty = find c ty.
Proof. intros Hr Hty. unfold find, update. cbn. eapply list_find_insert_type; eassumption. Qed.

Lemma apply_attribute_type r pair : type (apply_attribute r pair) = type r.
Proof.
  unfold apply_attribute, append_attribute.
  destruct (fst pair); [reflexivity|]. destruct (get r _); reflexivity.
Qed.

Lemma fold_apply_attribute_type l : forall r, type (fold_left apply_attribute l r) = type r.
Proof.
  induction l as [|pair l IH]; intros r; [reflexivity|].
  cbn [fold_left]. now rewrite IH, apply_attribute_type.
Qed.

(** An override that is evaluated found its resource, and leaves every
    resource of the catalog where it was. *)
Lemma evaluate_override_done o (ctx ctx' : octx) :
  evaluate_override o ctx = Done tt ctx' ->
  exists c c', _catalog ctx = Some c /\ _catalog ctx' = Some c' /\
               is_Some (find c (override_type o)) /\
               forall ty, find c' ty = find c ty.
Proof.
  unfold evaluate_override, throw. intros Hrun.
  destruct (_catalog ctx) as [c|] eqn:Hc; [|discriminate].
  destruct (find c (override_type o)) as [index|] eqn:Hfind; [|discriminate].
  destruct (resources c !! index) as [r|] eqn:Hr; [|discriminate].
  destruct (override_attributes o) as [|pair attrs].
  - injection Hrun as <-. exists c, c. rewrite Hc. eauto.
  - destruct (if may_override o r then None else conflict r (pair :: attrs))
      as [[[oper a] previous]|]; [discriminate|].
    injection Hrun as <-. eexists c, _. cbn. repeat split; eauto.
    intros ty. eapply find_update; [exact Hr|].
  rewrite fold_apply_attribute_type. apply apply_attribute_type.
Qed.

Lemma evaluate_each_override_done l : forall ctx ctx' : octx,
  evaluate_each_override l ctx = Done tt ctx' -> Forall (declared ctx) l.
Proof.
  induction l as [|[ty o] l IH]; intros ctx ctx' Hrun; [constructor|].
  cbn [evaluate_each_override] in Hrun. unfold and_then in Hrun.
  destruct (evaluate_override o ctx) as [[] ctx1|e ctx1] eqn:Ho; [|discriminate].
  apply evaluate_override_done in Ho as (c & c1 & Hc & Hc1 & Hfound & Hsame).
  constructor.
  - exists c. auto.
  - apply IH in Hrun. eapply List.Forall_impl; [|exact Hrun].
    intros kvp (c1' & Hc1' & Hk). rewrite Hc1 in Hc1'. injection Hc1' as <-.
    exists c. split; [exact Hc|]. now rewrite <- Hsame.
Qed.

Lemma find_is_resource c ty index :
  find c ty = Some index -> exists r, resources c !! index = Some r.
Proof.
  unfold find. destruct (list_find _ (resources c)) as [[i r]|] eqn:Hfind; [|discriminate].
  intros [= <-]. apply list_find_Some in Hfind. exists r. apply Hfind.
Qed.

(** An override whose resource is in the catalog is applied, and leaves
    every resource where it was, or it is refused because it changes an
    attribute it may not change. *)
Lemma evaluate_override_declared o (ctx : octx) c :
  _catalog ctx = Some c -> is_Some (find c (override_type o)) ->
  (exists ctx' c', evaluate_override o ctx = Done tt ctx' /\
                   _catalog ctx' = Some c' /\ forall ty, find c' ty = find c ty) \/
  (exists e, evaluate_override o ctx = Thrown e ctx /\
             exists action name target, what e = cannot_change_attribute action name target).
Proof.
  intros Hc [index Hfind]. unfold evaluate_override, throw. rewrite Hc, Hfind.
  destruct (find_is_resource _ _ _ Hfind) as [r Hr]. rewrite Hr.
  destruct (override_attributes o) as [|pair attrs].
  - left. exists ctx, c. auto.
  - destruct (if may_override o r then None else conflict r (pair :: attrs))
      as [[[oper a] previous]|].
    + right. eexists. split; [reflexivity|]. cbn. eauto.
    + left. eexists _, _. split; [reflexivity|]. split; [reflexivity|].
      intros ty. eapply find_update; [exact Hr|].
      apply fold_apply_attribute_type.
Qed.

Lemma evaluate_each_declared l : forall (ctx : octx) c,
  _catalog ctx = Some c ->
  Forall (fun kvp => is_Some (find c (override_type (snd kvp)))) l ->
  (exists ctx' c', evaluate_each_override l ctx = Done tt ctx' /\
                   _catalog ctx' = Some c' /\ forall ty, find c' ty = find c ty) \/
  (exists e ctx', evaluate_each_override l ctx = Thrown e ctx' /\
                  exists action name target,
                    what e = cannot_change_attribute action name target).
Proof.
  induction l as [|[ty o] l IH]; intros ctx c Hc Hall.
  - left. exists ctx, c. auto.
  - apply List.Forall_cons_iff in Hall. destruct Hall as [Ho Hall]. cbn [snd] in Ho.
    cbn [evaluate_each_override]. unfold and_then.
    destruct (evaluate_override_declared o ctx c Hc Ho)
      as [(ctx1 & c1 & -> & Hc1 & Hsame) | (e & -> & Hwhat)].
    + destruct (IH ctx1 c1 Hc1) as [(ctx' & c' & Hrun & Hc' & Hsame') | Hthrown].
      * eapply List.Forall_impl; [|exact Hall]. intros kvp Hk. cbn in Hk. now rewrite Hsame.
      * left. exists ctx', c'. split; [exact Hrun|]. split; [exact Hc'|].
        intros ty'. now rewrite Hsame'.
      * right. exact Hthrown.
    + right. eauto.
Qed.

(** The first of the overrides whose target is not in the catalog. *)
Lemma first_undeclared (ctx : octx) c l : forall kvp,
  _catalog ctx = Some c -> In kvp l -> ~ declared ctx kvp ->
  exists first ty o rest,
    l = (first ++ (ty, o) :: rest)%list /\
    Forall (declared ctx) first /\ find c (override_type o) = None.
Proof.
  intros kvp Hc. induction l as [|[ty o] l IH]; intros Hin Hnot; [contradiction|].
  destruct (find c (override_type o)) as [index|] eqn:Hfind.
  - destruct Hin as [<- | Hin].
    + exfalso. apply Hnot. exists c. cbn. rewrite Hfind. eauto.
    + destruct (IH Hin Hnot) as (first & ty' & o' & rest & -> & Hfirst & Hnone).
      exists ((ty, o) :: first), ty', o', rest. split; [reflexivity|]. split; [|exact Hnone].
      constructor; [|exact Hfirst]. exists c. cbn. rewrite Hfind. eauto.
  - exists [], ty, o, l. split; [reflexivity|]. split; [constructor | exact Hfind].
Qed.

(** The remaining overrides, when one of them has no target. *)
Lemma remaining_overrides_undeclared (before : octx) c first ty o rest :
  _catalog before = Some c ->
  _overrides before = (first ++ (ty, o) :: rest)%list ->
  Forall (declared before) first -> find c (override_type o) = None ->
  exists e after,
    remaining_overrides before = Thrown e after /\
    ((evaluate_each_override first before = Done tt after /\
      e = {| what := resource_does_not_exist (override_type o);
             where_ := override_context o;
             backtrace_ := backtrace after |}) \/
     (evaluate_each_override first before = Thrown e after /\
      exists action name target, what e = cannot_change_attribute action name target)).
Proof.
  intros Hc Hsplit Hfirst Hnone. unfold remaining_overrides. rewrite Hsplit.
  assert (Hrun : forall l2 (ctx : octx),
             evaluate_each_override (first ++ l2) ctx
             = match evaluate_each_override first ctx with
               | Done _ mid => evaluate_each_override l2 mid
               | Thrown e mid => Thrown e mid
               end).
  { clear. induction first as [|[ty1 o1] first IH]; intros l2 ctx; [reflexivity|].
    cbn [evaluate_each_override app]. unfold and_then.
    destruct (evaluate_override o1 ctx) as [[] mid|e mid]; [apply IH | reflexivity]. }
  rewrite Hrun.
  destruct (evaluate_each_declared first before c Hc)
    as [(after & c' & Hdone & Hc' & Hsame) | (e & after & Hthrown & Hwhat)].
  - eapply List.Forall_impl; [|exact Hfirst].
    intros kvp (c0 & Hc0 & Hk). rewrite Hc in Hc0. now injection Hc0 as <-.
  - rewrite Hdone. cbn [evaluate_each_override]. unfold and_then, evaluate_override, throw.
    rewrite Hc', Hsame, Hnone. eexists _, after. split; [reflexivity|]. left. auto.
  - rewrite Hthrown. exists e, after. split; [reflexivity|]. right. auto.
Qed.

(** C1: finalization does not drop a remaining override whose target was
    never declared.  A run of the remaining overrides that ends found every
    target in the catalog; when the first remaining override has no target
    the run raises "resource ... does not exist in the catalog" at the
    override, and the context is as it was; a finalization that completes
    went, after its loop, the collectors' checks and the relationships,
    through such a run, on a context all of whose overrides had their
    target.  And a finalization that reaches the remaining overrides (its
    loop, the collectors' checks and the relationships raised no error)
    while one of them has no target in the catalog raises an error and
    returns no catalog: the error is "resource ... does not exist in the
    catalog", at the first such override in the order of the container and
    after the overrides before it have been applied to their resources,
    unless one of those is refused first with "cannot set (append, remove)
    attribute ...". *)
Theorem remaining_overrides_need_target (ctx : octx) :
  (forall ctx', remaining_overrides ctx = Done tt ctx' ->
     Forall (declared ctx) (_overrides ctx)) /\
  (forall ty o rest c,
     _overrides ctx = (ty, o) :: rest -> _catalog ctx = Some c ->
     find c (override_type o) = None ->
     remaining_overrides ctx
     = Thrown {| what := resource_does_not_exist (override_type o);
                 where_ := override_context o;
                 backtrace_ := backtrace ctx |} ctx) /\
  (forall ctx', finalize ev ctx = Some (Done tt ctx') ->
     exists locals looped before after,
       finalize_loop ev (S (S max_iterations)) 0 0 [] ctx = Some (Done locals looped) /\
       after_loop ev looped = Done tt before /\
       remaining_overrides before = Done tt after /\
       Forall (declared before) (_overrides before) /\
       ctx' = clear after) /\
  (forall locals looped before kvp,
     is_Some (_catalog ctx) ->
     finalize_loop ev (S (S max_iterations)) 0 0 [] ctx = Some (Done locals looped) ->
     after_loop ev looped = Done tt before ->
     is_Some (_catalog before) ->
     In kvp (_overrides before) -> ~ declared before kvp ->
     exists first ty o rest e after,
       _overrides before = (first ++ (ty, o) :: rest)%list /\
       Forall (declared before) first /\
       ~ declared before (ty, o) /\
       finalize ev ctx = Some (Thrown e after) /\
       ((evaluate_each_override first before = Done tt after /\
         e = {| what := resource_does_not_exist (override_type o);
                where_ := override_context o;
                backtrace_ := backtrace after |}) \/
        (evaluate_each_override first before = Thrown e after /\
         exists action name target,
           what e = cannot_change_attribute action name target))).
Proof.
  split; [|split; [|split]].
  - intros ctx'. apply evaluate_each_override_done.
  - intros ty o rest c Ho Hc Hfind. unfold remaining_overrides.
    rewrite Ho. cbn [evaluate_each_override]. unfold and_then, evaluate_override.
    now rewrite Hc, Hfind.
  - unfold finalize, finalize_with, the_catalog, throw. intros ctx' Hrun.
    destruct (_catalog ctx) as [c|]; [|discriminate].
    destruct (finalize_loop ev _ 0 0 [] ctx) as [[locals looped|e looped]|] eqn:Hloop;
      try discriminate.
    unfold and_then in Hrun.
    destruct (after_loop ev looped) as [[] before|e before] eqn:Hafter; [|discriminate].
    destruct (remaining_overrides before) as [[] after|e after] eqn:Hrem; [|discriminate].
    injection Hrun as <-. exists locals, looped, before, after.
    repeat split; try assumption; try reflexivity.
    eapply evaluate_each_override_done. exact Hrem.
  - intros locals looped before kvp [c0 Hc0] Hloop Hafter [c Hc] Hin Hnot.
    destruct (first_undeclared before c (_overrides before) kvp Hc Hin Hnot)
      as (first & ty & o & rest & Hsplit & Hfirst & Hnone).
    destruct (remaining_overrides_undeclared before c first ty o rest Hc Hsplit Hfirst Hnone)
      as (e & after & Hrem & Hcases).
    exists first, ty, o, rest, e, after.
    split; [exact Hsplit|]. split; [exact Hfirst|]. split.
    + intros (c' & Hc' & Hsome). rewrite Hc in Hc'. injection Hc' as <-.
      cbn in Hsome. rewrite Hnone in Hsome. destruct Hsome; discriminate.
    + split; [|exact Hcases].
      unfold finalize, finalize_with, the_catalog. rewrite Hc0, Hloop.
      unfold and_then. rewrite Hafter, Hrem. reflexivity.
Qed.

End OverrideFacts.

Section OverrideExamples.
Import Evaluation.
Local Open Scope string_scope.
Local Open Scope nat_scope.

(** The catalog holds [Stage[main]] and [File['/tmp/y']]; an override of
    [File['/tmp/y']] and one of [File['/tmp/x']], which is not declared,
    are left when finalization starts.  The first is applied and the
    second raises the error. *)
Lemma remaining_overrides_need_target_witness :
  exists first ty o rest e after,
    _overrides context_with_two_overrides = (first ++ (ty, o) :: rest)%list /\
    Forall (declared context_with_two_overrides) first /\
    ~ declared context_with_two_overrides (ty, o) /\
    finalize sample_evaluators context_with_two_overrides = Some (Thrown e after) /\
    ((evaluate_each_override first context_with_two_overrides = Done tt after /\
      e = {| what := resource_does_not_exist (override_type o);
             where_ := override_context o;
             backtrace_ := backtrace after |}) \/
     (evaluate_each_override first context_with_two_overrides = Thrown e after /\
      exists action name target, what e = cannot_change_attribute action name target)).
Proof.
  destruct (remaining_overrides_need_target sample_evaluators context_with_two_overrides)
    as (_ & _ & _ & H).
  apply (H (0, 0, []) context_with_two_overrides context_with_two_overrides
           (override_type sample_override, sample_override)).
  - eexists. reflexivity.
  - vm_compute. reflexivity.
  - reflexivity.
  - eexists. reflexivity.
  - right. left. reflexivity.
  - intros (c & Hc & Hsome). injection Hc as <-. vm_compute in Hsome.
    destruct Hsome as [index Hsome]. discriminate Hsome.
Defined.

(** C1, as worded: the catalog holds [Stage[main]] only, an override of
    [File['/tmp/x']] is left when finalization starts, and finalization
    raises an error instead of dropping it. *)
Lemma finalize_raises_for_undeclared_override :
  (forall c, _catalog context_with_override = Some c ->
             find c (override_type sample_override) = None) /\
  finalize sample_evaluators context_with_override
  = Some (Thrown {| what := resource_does_not_exist (override_type sample_override);
                    where_ := override_context sample_override;
                    backtrace_ := [] |} context_with_override).
Proof.
  split.
  - intros c [= <-]. vm_compute. reflexivity.
  - vm_compute. reflexivity.
Qed.

End OverrideExamples.

Section DeclareFacts.
Import Evaluation.
Context {klass defined_type collector resource_relationship : Type}.
Abbreviation dctx := (@context defined_type collector resource_relationship).
Context (ev : @evaluators klass defined_type collector resource_relationship).
Local Open Scope string_scope.
Local Open Scope nat_scope.








End DeclareFacts.

Section DeclareExamples.
Import Evaluation.
Local Open Scope string_scope.
Local Open Scope nat_scope.


End DeclareExamples.

Section SortFacts.
Import FormatMap.
Context {A : Type} (less : A -> A -> bool).
Hypothesis less_order : strict_weak_order less.

Lemma less_asymmetric a b : less a b = true -> less b a = false.
Proof.
  destruct less_order as (Hirr & Htrans & _). intros Hab.
  destruct (less b a) eqn:Hba; [|reflexivity].
  rewrite <- (Hirr a). symmetry. eapply Htrans; eassumption.
Qed.

(** An element that is not less than [b], where [b] is not after [c], is
    not less than [c] either. *)
Lemma less_false_trans a b c :
  less a b = false -> less b c = false -> less a c = false.
Proof.
  destruct less_order as (Hirr & Htrans & Hinc). intros Hab Hbc.
  destruct (less a c) eqn:Hac; [|reflexivity].
  destruct (less b a) eqn:Hba.
  { rewrite <- Hbc. symmetry. eapply Htrans; eassumption. }
  destruct (less c b) eqn:Hcb.
  { rewrite <- Hab. symmetry. eapply Htrans; eassumption. }
  destruct (Hinc a b c Hab Hba Hbc Hcb) as [Hac' _]. congruence.
Qed.

Lemma sorted_insert_middle (R : A -> A -> Prop) x l1 : forall l2,
  StronglySorted R (l1 ++ l2) ->
  Forall (fun u => R u x) l1 -> Forall (fun v => R x v) l2 ->
  StronglySorted R (l1 ++ x :: l2).
Proof.
  induction l1 as [|u l1 IH]; intros l2 Hs H1 H2; cbn [app] in *.
  - now constructor.
  - apply StronglySorted_inv in Hs as [Hs Hu]. inversion H1; subst.
    constructor; [now apply IH|].
    rewrite List.Forall_app in *. destruct Hu as [Hu1 Hu2].
    split; [exact Hu1 | now constructor].
Qed.

Lemma unguarded_linear_insert_spec x l :
  let (front, r) := unguarded_linear_insert less x l in
  if front then r = x :: l /\ Forall (fun y => less x y = true) l
  else exists l1 a l2, l = (l1 ++ a :: l2)%list /\ r = (l1 ++ a :: x :: l2)%list /\
                       less x a = false /\ Forall (fun b => less x b = true) l2.
Proof.
  induction l as [|y l IH]; cbn [unguarded_linear_insert].
  - split; [reflexivity | constructor].
  - destruct (unguarded_linear_insert less x l) as [[] r].
    + destruct IH as [-> Hall]. destruct (less x y) eqn:Hxy.
      * split; [reflexivity | now constructor].
      * exists [], y, l. repeat split; assumption.
    + destruct IH as (l1 & a & l2 & -> & -> & Ha & Hall).
      exists (y :: l1), a, l2. repeat split; assumption.
Qed.

Lemma linear_insert_permutation sorted x :
  Permutation (linear_insert less sorted x) (sorted ++ [x]).
Proof.
  unfold linear_insert. destruct sorted as [|first rest]; [reflexivity|].
  destruct (less x first).
  - rewrite Permutation_app_comm. reflexivity.
  - pose proof (unguarded_linear_insert_spec x (first :: rest)) as Hspec.
    destruct (unguarded_linear_insert less x (first :: rest)) as [[] r]; cbn [snd].
    + destruct Hspec as [-> _]. rewrite Permutation_app_comm. reflexivity.
    + destruct Hspec as (l1 & a & l2 & -> & -> & _).
      rewrite <- !app_assoc. apply Permutation_app_head. cbn [app].
      constructor. apply Permutation_cons_append.
Qed.

Lemma linear_insert_sorted sorted x :
  sorted_by less sorted -> sorted_by less (linear_insert less sorted x).
Proof.
  unfold sorted_by, linear_insert. intros Hs.
  destruct sorted as [|first rest]; [repeat constructor|].
  destruct (less x first) eqn:Hfirst.
  - constructor; [exact Hs|].
    apply StronglySorted_inv in Hs as [_ Hrest]. constructor.
    + now apply less_asymmetric.
    + rewrite List.Forall_forall in *. intros y Hy.
      destruct (less y x) eqn:Hyx; [|reflexivity].
      destruct less_order as (_ & Htrans & _).
      rewrite <- (Hrest y Hy). symmetry. eapply Htrans; eassumption.
  - pose proof (unguarded_linear_insert_spec x (first :: rest)) as Hspec.
    destruct (unguarded_linear_insert less x (first :: rest)) as [[] r]; cbn [snd].
    + destruct Hspec as [_ Hall]. inversion Hall; congruence.
    + destruct Hspec as (l1 & a & l2 & Heq & -> & Ha & Hall).
      rewrite Heq in Hs. clear Heq Hfirst.
      change (l1 ++ a :: x :: l2)%list with (l1 ++ [a] ++ x :: l2)%list.
      rewrite app_assoc. apply sorted_insert_middle.
      * now rewrite <- app_assoc.
      * pose proof (sorted_before _ l1 a l2 Hs) as Hl1.
        rewrite List.Forall_app. split; [|now repeat constructor].
        rewrite List.Forall_forall in *. intros u Hu.
        eapply less_false_trans; [exact Ha | now apply Hl1].
      * rewrite List.Forall_forall in *. intros b Hb.
        apply less_asymmetric. now apply Hall.
Qed.

Lemma insertion_sort_from l : forall acc,
  sorted_by less acc ->
  sorted_by less (fold_left (linear_insert less) l acc) /\
  Permutation (fold_left (linear_insert less) l acc) (acc ++ l).
Proof.
  induction l as [|x l IH]; intros acc Hacc; cbn [fold_left].
  - split; [exact Hacc | now rewrite app_nil_r].
  - destruct (IH (linear_insert less acc x) (linear_insert_sorted acc x Hacc))
      as [Hs Hp].
    split; [exact Hs|]. rewrite Hp, linear_insert_permutation, <- app_assoc.
    reflexivity.
Qed.

End SortFacts.

Section SearchFacts.
Context {A : Type}.

Lemma sorted_lookup (R : A -> A -> Prop) l :
  StronglySorted R l ->
  forall i j a b, (i < j)%nat -> l !! i = Some a -> l !! j = Some b -> R a b.
Proof.
  induction 1 as [|x l Hs IH Hx]; intros i j a b Hij Ha Hb; [discriminate|].
  destruct j as [|j]; [lia|]. cbn in Hb. destruct i as [|i]; cbn in Ha.
  - injection Ha as <-. rewrite List.Forall_forall in Hx. apply Hx.
    apply list_elem_of_In. eapply list_elem_of_lookup_2. exact Hb.
  - eapply IH; [|eassumption..]. lia.
Qed.

Lemma find_is_first (f : A -> bool) l x :
  List.find f l = Some x ->
  exists i, l !! i = Some x /\ f x = true /\
            forall j y, (j < i)%nat -> l !! j = Some y -> f y = false.
Proof.
  induction l as [|y l IH]; cbn; [discriminate|].
  destruct (f y) eqn:Hy.
  - intros [= <-]. exists 0%nat. repeat split; [exact Hy|]. intros j z Hj. lia.
  - intros Hfind. destruct (IH Hfind) as (i & Hi & Hx & Hbefore).
    exists (S i). repeat split; [exact Hi | exact Hx |].
    intros [|j] z Hj Hz; cbn in Hz.
    + now injection Hz as <-.
    + eapply Hbefore; [|exact Hz]. lia.
Qed.

End SearchFacts.

Section FormatMapFacts.
Import FormatMap.

(** The insertion sort keeps the promise of [std::sort]. *)
Lemma libstdcxx_meets_contract : meets_contract libstdcxx.
Proof.
  intros A less l Hswo. cbn [std_sort libstdcxx]. unfold insertion_sort.
  destruct (insertion_sort_from less Hswo l []) as [Hs Hp]; [constructor|].
  split; [exact Hp | exact Hs].
Qed.

Context {rt : Runtime} {sorting : Sorting}.

Lemma less_false_order (a b : type * format) :
  less b a = false ->
  ~ more_general (fst a) (fst b) /\
  (tied (fst a) (fst b) ->
   (get_type_rank (kind (fst a)) <= get_type_rank (kind (fst b)))%N).
Proof.
  unfold less, more_general, tied. intros Hless.
  destruct (is_assignable (fst b) (fst a)), (is_assignable (fst a) (fst b));
    cbn in Hless; try discriminate; split; try (intros [? ?]; congruence);
    try (intros ?; congruence); intros _; now apply N.ltb_ge.
Qed.

Lemma find_format_first formats v :
  match find_format formats v with
  | Some f =>
      exists i t, formats !! i = Some (t, f) /\ is_instance t v = true /\
                  forall j e, (j < i)%nat -> formats !! j = Some e ->
                              is_instance (fst e) v = false
  | None => forall e, In e formats -> is_instance (fst e) v = false
  end.
Proof.
  unfold find_format.
  destruct (List.find _ _) as [[t f]|] eqn:Hfind; cbn.
  - apply find_is_first in Hfind as (i & Hi & Ht & Hbefore). eauto.
  - intros e He. eapply List.find_none in Hfind; [|exact He]. exact Hfind.
Qed.

(** Where the comparison of the constructor is a strict weak order, a
    format map has the pairs of the hash, most specific type first and
    ties by rank. *)
Lemma format_map_order entries allow_hash formats :
  meets_contract sorting ->
  strict_weak_order less ->
  format_map entries allow_hash = Ok formats ->
  (exists unsorted, formats_of allow_hash entries = Ok unsorted /\
                    Permutation formats unsorted) /\
  (forall i j a b, (i < j)%nat -> formats !! i = Some a -> formats !! j = Some b ->
     ~ more_general (fst a) (fst b) /\
     (tied (fst a) (fst b) ->
      (get_type_rank (kind (fst a)) <= get_type_rank (kind (fst b)))%N)).
Proof.
  intros Hsort Hswo. unfold format_map.
  destruct (formats_of allow_hash entries) as [unsorted|e] eqn:Hformats; [|discriminate].
  cbn [bind]. intros [= <-].
  destruct (Hsort _ less unsorted Hswo) as [Hperm Hsorted]. split.
  - exists unsorted. split; [reflexivity | exact Hperm].
  - intros i j a b Hij Ha Hb. apply less_false_order.
    eapply (sorted_lookup (fun a b => less b a = false)); eassumption.
Qed.

End FormatMapFacts.

Section FormatMapExamples.
Import FormatMap.
Local Open Scope string_scope.

(** On class types alone the comparison is what [std::sort] wants, and the
    more specific type comes first. *)
Lemma two_class_formats_sorted :
  format_map two_class_formats true = Ok [(Class_ "foo", "%d"); (Class_ "", "%p")].
Proof. reflexivity. Qed.

(** [Class['foo']] and [Runtime['a']] are tied and of equal rank, and so
    are [Runtime['a']] and [Class]; were the comparison a strict weak
    order, [Class['foo']] and [Class] would not compare either. *)
Lemma source_less_is_no_order : ~ strict_weak_order (less (rt := source_runtime)).
Proof.
  intros (_ & _ & Hinc).
  destruct (Hinc (Class_ "foo", "%d") (Runtime_ "a" "", "%s") (Class_ "", "%p"))
    as [Hless _]; try reflexivity.
  discriminate Hless.
Qed.

(** C6: the format map built from the hash [{ Runtime['a'] => '%s', Class
    => '%p', Runtime['b'] => '%s', Class['foo'] => '%d' }] keeps the order
    of the hash: [Class], which is assignable from [Class['foo']] and not
    the other way round, comes before it, and [find_format] answers the
    format of [Class] for the value [Class['foo']].  [find_format] does
    return the format of the first pair whose type the value is an
    instance of; it is the order that fails, the comparison of the
    constructor being no strict weak order on these types. *)
Theorem format_map_general_before_specific :
  format_map class_formats true
  = Ok [(Runtime_ "a" "", "%s"); (Class_ "", "%p");
        (Runtime_ "b" "", "%s"); (Class_ "foo", "%d")] /\
  more_general (rt := source_runtime) (Class_ "") (Class_ "foo") /\
  less (rt := source_runtime) (Class_ "foo", "%d") (Class_ "", "%p") = true /\
  find_format [(Runtime_ "a" "", "%s"); (Class_ "", "%p");
               (Runtime_ "b" "", "%s"); (Class_ "foo", "%d")]
              (a_type (Class_ "foo")) = Some "%p" /\
  ~ strict_weak_order (less (rt := source_runtime)) /\
  (get_type_rank structure < get_type_rank hash < get_type_rank tuple)%N /\
  (get_type_rank tuple < get_type_rank array < get_type_rank pattern)%N /\
  (get_type_rank pattern < get_type_rank enumeration < get_type_rank string_)%N /\
  (get_type_rank string_ < get_type_rank any)%N.
Proof.
  split; [reflexivity|]. split; [split; reflexivity|]. split; [reflexivity|].
  split; [reflexivity|]. split; [exact source_less_is_no_order|].
  repeat split; reflexivity.
Qed.

End FormatMapExamples.

Section LexerFacts.
Import Lexer.
Local Open Scope nat_scope.

(** Without escapes and without a margin the text is extracted as it is. *)
Lemma extract_string_plain s : extract_string s [] 0 = Ok s.
Proof.
  unfold extract_string. induction s as [|c s IH]; [reflexivity|].
  cbn [extract_string_from]. cbn [Nat.ltb Nat.leb andb].
  rewrite andb_false_r. cbn [bind].
  destruct (Ascii.eqb c newline); cbn; now rewrite IH.
Qed.

(** The end tag [- TAG] removes the line break of the text "item". *)
Example heredoc_dash_end_tag :
  parse_heredoc (list_ascii_of_string "TAG") []
                (list_ascii_of_string "item" ++ [newline]
                   ++ list_ascii_of_string "- TAG" ++ [newline])%list
  = Ok {| token_text := list_ascii_of_string "item"; next := [] |}.
Proof. vm_compute. reflexivity. Qed.

(** The end tag [| TAG], two columns in, strips two columns of each line; a
    tab is stripped whole. *)
Example heredoc_margin_end_tag :
  parse_heredoc (list_ascii_of_string "TAG") []
                (list_ascii_of_string "    a" ++ [newline]
                   ++ [tab] ++ list_ascii_of_string "b" ++ [newline]
                   ++ list_ascii_of_string "  | TAG" ++ [newline]
                   ++ list_ascii_of_string "rest")%list
  = Ok {| token_text := (list_ascii_of_string "  a" ++ [newline]
                           ++ list_ascii_of_string "b" ++ [newline])%list;
          next := list_ascii_of_string "rest" |}.
Proof. vm_compute. reflexivity. Qed.

(** C7: for the heredoc [@(TAG)] with the one body line "- item" and the
    end-tag line "TAG", which carries neither [|] nor [-], the text of the
    token is "- item" without its line break, where the lines between the
    sentinel and the end tag make "- item" followed by a line break: the
    [-] that begins the body line has set [remove_break]. *)
Theorem heredoc_body_dash_removes_break :
  split_lines dash_input = [dash_body; (list_ascii_of_string "TAG" ++ [newline])%list] /\
  scan_line (list_ascii_of_string "TAG") (list_ascii_of_string "TAG" ++ [newline])%list
            {| margin := 0; has_margin := false; remove_break := false |}
  = (end_tag, {| margin := 0; has_margin := false; remove_break := false |}) /\
  parse_heredoc (list_ascii_of_string "TAG") [] dash_input
  = Ok {| token_text := list_ascii_of_string "- item"; next := [] |} /\
  extract_string dash_body [] 0 = Ok dash_body.
Proof. repeat split; vm_compute; reflexivity. Qed.

End LexerFacts.

Section MultiplyOrder.
Import Multiply.

(** X1. The outcome of a multiplication does not depend on the order of
    the operands: both orders give the same product, or both raise the
    same arithmetic fault, with the operands of the message exchanged. *)
Theorem multiply_commutes pos l r :
  Int64.in_range l -> Int64.in_range r ->
  match multiply pos l r, multiply pos r l with
  | Ok a, Ok b => a = b
  | Raise e1, Raise e2 =>
      fault e1 = fault e2 /\
      left_operand e1 = right_operand e2 /\ right_operand e1 = left_operand e2
  | _, _ => False
  end.
Proof.
  intros Hl Hr.
  destruct (multiply_cases pos l r Hl Hr) as [[H1 ->] | [[H1 ->] | [H1 ->]]];
    destruct (multiply_cases pos r l Hr Hl) as [[H2 ->] | [[H2 ->] | [H2 ->]]];
    cbn; unfold Int64.in_range in *; rewrite ?(Z.mul_comm r l) in *;
    first [lia | auto].
Qed.

Lemma multiply_commutes_witness :
  match multiply sample_position (2 ^ 62) (-3), multiply sample_position (-3) (2 ^ 62) with
  | Ok a, Ok b => a = b
  | Raise e1, Raise e2 =>
      fault e1 = fault e2 /\
      left_operand e1 = right_operand e2 /\ right_operand e1 = left_operand e2
  | _, _ => False
  end.
Proof.
  apply (multiply_commutes sample_position (2 ^ 62) (-3));
    unfold Int64.in_range, Int64.min, Int64.max; lia.
Defined.

End MultiplyOrder.

Section FormatterOutput.
Import Formatter.

Lemma to_int_small z : - 2 ^ 31 <= z < 2 ^ 31 -> Int64.to_int z = z.
Proof. intros Hz. unfold Int64.to_int. rewrite Z.mod_small; lia. Qed.

Lemma format_string_size f str :
  length (format_string f str)
  = Z.to_nat (Z.max (Int64.to_int (width f))
                    (Z.min (Z.of_nat (length str)) (precision f mod 2 ^ 64))).
Proof.
  unfold format_string.
  assert (Hp : 0 <= precision f mod 2 ^ 64) by (apply Z.mod_pos_bound; lia).
  set (p := precision f mod 2 ^ 64) in *.
  destruct (Z.ltb_spec p (Z.of_nat (length str)));
    destruct (left_justify f);
    rewrite ?length_app, ?length_replicate, ?length_take; lia.
Qed.

(** X2. The string output is as long as the width asks, or as long as the
    shown text when that is longer: padding never cuts, and the precision
    (read as an unsigned size) cuts the text to at most that many octets.
    The width that counts is the [int] the 64-bit width of the format
    narrows to in [std::setw]: a width in the range of [int] counts as it
    is, a greater one counts modulo 2^32 (4294967299 pads to 3 and 2^31
    does not pad). *)
Theorem format_string_length f str :
  length (format_string f str)
  = Z.to_nat (Z.max (Int64.to_int (width f))
                    (Z.min (Z.of_nat (length str)) (precision f mod 2 ^ 64))) /\
  (- 2 ^ 31 <= width f < 2 ^ 31 ->
   length (format_string f str)
   = Z.to_nat (Z.max (width f)
                     (Z.min (Z.of_nat (length str)) (precision f mod 2 ^ 64)))) /\
  (forall k, - 2 ^ 31 <= width f - k * 2 ^ 32 < 2 ^ 31 ->
   length (format_string f str)
   = Z.to_nat (Z.max (width f - k * 2 ^ 32)
                     (Z.min (Z.of_nat (length str)) (precision f mod 2 ^ 64)))).
Proof.
  split; [apply format_string_size |]. split.
  - intros Hw. rewrite format_string_size, to_int_small by exact Hw. reflexivity.
  - intros k Hk. rewrite format_string_size. do 2 f_equal.
    unfold Int64.to_int.
    replace (width f + 2 ^ 31) with (width f - k * 2 ^ 32 + 2 ^ 31 + k * 2 ^ 32) by lia.
    rewrite Z.mod_add by lia. rewrite Z.mod_small; lia.
Qed.

(** The format [%4294967299s] on the text "ab": the output is 3 octets
    long, and [%5s] pads to 5. *)
Lemma format_string_length_witness :
  length (format_string {| type := 115; width := 4294967299; precision := -1;
                           left_justify := false; zero_pad := false |} [97; 98])
  = 3%nat /\
  length (format_string {| type := 115; width := 5; precision := -1;
                           left_justify := false; zero_pad := false |} [97; 98])
  = 5%nat.
Proof.
  split.
  - destruct (format_string_length
                {| type := 115; width := 4294967299; precision := -1;
                   left_justify := false; zero_pad := false |} [97; 98])
      as (_ & _ & H).
    rewrite (H 1) by (cbn; lia). reflexivity.
  - destruct (format_string_length
                {| type := 115; width := 5; precision := -1;
                   left_justify := false; zero_pad := false |} [97; 98])
      as (_ & H & _).
    rewrite H by (cbn; lia). reflexivity.
Defined.

(** X3. The [c] conversion of a 64-bit integer raises the "exceeds the
    code point range" error exactly for the values whose high double word
    is not zero, the negative ones and those from 2^32 on; every other
    value is printed as the code point 0. *)
Theorem format_integer_c_range f value :
  Int64.in_range value ->
  (0 <= value < 2 ^ 32 -> format_integer_c f value = Ok (format_string f [0])) /\
  (~ 0 <= value < 2 ^ 32 ->
   format_integer_c f value = Raise (exceeds_code_point_range value)).
Proof.
  intros Hr. split; [apply format_integer_c_low |].
  intros Hout. unfold format_integer_c.
  assert (Hhigh : Int64.to_uint32 (Z.shiftr (Int64.to_uint64 value) 32) <> 0).
  { unfold Int64.to_uint32, Int64.to_uint64, Int64.in_range, Int64.min, Int64.max in *.
    rewrite Z.shiftr_div_pow2 by lia.
    assert (H64 : 0 <= value mod 2 ^ 64 < 2 ^ 64) by (apply Z.mod_pos_bound; lia).
    assert (Hge : 2 ^ 32 <= value mod 2 ^ 64).
    { destruct (Z.neg_nonneg_cases value) as [Hneg | Hpos].
      - replace (value mod 2 ^ 64) with (value + 2 ^ 64); [lia |].
        apply Z.mod_unique with (-1); lia.
      - rewrite Z.mod_small by lia. lia. }
    assert (Hq : 1 <= value mod 2 ^ 64 / 2 ^ 32 < 2 ^ 32).
    { split.
      - apply Z.div_le_lower_bound; lia.
      - apply Z.div_lt_upper_bound; lia. }
    rewrite Z.mod_small; lia. }
  apply Z.eqb_neq in Hhigh. rewrite Hhigh. reflexivity.
Qed.

Lemma format_integer_c_range_witness :
  (0 <= -1 < 2 ^ 32 -> format_integer_c percent_c (-1) = Ok (format_string percent_c [0])) /\
  (~ 0 <= -1 < 2 ^ 32 ->
   format_integer_c percent_c (-1) = Raise (exceeds_code_point_range (-1))).
Proof.
  apply (format_integer_c_range percent_c (-1)).
  unfold Int64.in_range, Int64.min, Int64.max. lia.
Defined.

End FormatterOutput.

Section BitFacts.
Import FormatterBits.

Lemma msb_loop_log2 fuel : forall value bit,
  0 <= value < 2 ^ Z.of_nat fuel -> (0 < fuel)%nat ->
  0 <= bit -> bit + Z.log2 value < 2 ^ 8 ->
  msb_loop fuel value bit = Some (bit + Z.log2 value).
Proof.
  induction fuel as [| fuel IH]; intros value bit Hv Hf Hb Hlog; [lia |].
  cbn [msb_loop].
  rewrite Z.shiftr_div_pow2 by lia. change (2 ^ 1) with 2.
  destruct (Z.eqb_spec (value / 2) 0) as [Hz | Hnz].
  - assert (value < 2) by (apply Z.div_small_iff in Hz; lia).
    assert (Hl : Z.log2 value = 0) by (apply Z.log2_null; lia).
    rewrite Hl. f_equal. lia.
  - assert (Hpos : 0 < value / 2).
    { assert (0 <= value / 2) by (apply Z.div_pos; lia). lia. }
    assert (H2 : 2 <= value).
    { destruct (Z.lt_ge_cases value 2); [| lia].
      rewrite Z.div_small in Hpos; lia. }
    assert (Hlog2 : Z.log2 value = Z.log2 (value / 2) + 1).
    { replace (value / 2) with (Z.shiftr value 1)
        by (rewrite Z.shiftr_div_pow2 by lia; reflexivity).
      rewrite Z.log2_shiftr by lia.
      assert (1 <= Z.log2 value) by (apply Z.log2_le_pow2; simpl; lia).
      lia. }
    assert (Hl0 : 0 <= Z.log2 (value / 2)) by apply Z.log2_nonneg.
    rewrite Z.mod_small by lia.
    destruct fuel as [| fuel'].
    + exfalso. change (2 ^ Z.of_nat 1) with 2 in Hv.
      rewrite Z.div_small in Hpos; lia.
    + rewrite IH; [f_equal; lia | | lia | lia | lia].
      split; [lia |].
      apply Z.div_lt_upper_bound; [lia |].
      replace (2 * 2 ^ Z.of_nat (S fuel')) with (2 ^ Z.of_nat (S (S fuel'))); [lia |].
      rewrite (Nat2Z.inj_succ (S fuel')), Z.pow_succ_r by lia. reflexivity.
Qed.

Lemma msb_log2 value :
  0 <= value < 2 ^ 64 -> msb value = Some (Z.log2 value).
Proof.
  intros Hv. unfold msb.
  assert (Hl : Z.log2 value < 64).
  { destruct (Z.eq_dec value 0) as [-> | Hnz]; [reflexivity |].
    apply Z.log2_lt_pow2; lia. }
  rewrite msb_loop_log2; [reflexivity | exact Hv | lia | lia |].
  change (2 ^ 8) with 256. lia.
Qed.

(** X4. [msb] ends on every 64-bit value: it answers a bit position, the
    position of the most significant bit that is set (0 for the value 0). *)
Theorem msb_is_log2 value :
  0 <= value < 2 ^ 64 ->
  exists bit, msb value = Some bit /\ 0 <= bit < 64 /\
              (0 < value -> 2 ^ bit <= value < 2 ^ (bit + 1)).
Proof.
  intros Hv. exists (Z.log2 value). split; [apply msb_log2; exact Hv |].
  split.
  - split; [apply Z.log2_nonneg |].
    destruct (Z.eq_dec value 0) as [-> | Hnz]; [reflexivity |].
    apply Z.log2_lt_pow2; lia.
  - intros Hpos. replace (Z.log2 value + 1) with (Z.succ (Z.log2 value)) by lia.
    apply Z.log2_spec. exact Hpos.
Qed.

Lemma msb_is_log2_witness :
  exists bit, msb 11 = Some bit /\ 0 <= bit < 64 /\
              (0 < 11 -> 2 ^ bit <= 11 < 2 ^ (bit + 1)).
Proof. apply (msb_is_log2 11). lia. Defined.

(** X5. For a value from [2 - 2^31] to 0, the masked two's complement is
    the value reduced modulo [2^k], where [k] is the position of the most
    significant bit of [1 - value]: the low [k] bits of the value. *)
Theorem masking_twos_compliment_low_bits value :
  2 - 2 ^ 31 <= value <= 0 ->
  masking_twos_compliment value = Some (value mod 2 ^ Z.log2 (1 - value)).
Proof.
  intros Hv. unfold masking_twos_compliment.
  assert (Hneg : Int64.wrap (Z.lnot value + 1) = - value).
  { replace (Z.lnot value + 1) with (- value) by (unfold Z.lnot; lia).
    apply wrap_in_range. unfold Int64.in_range, Int64.min, Int64.max. lia. }
  rewrite Hneg. unfold Int64.to_uint64.
  rewrite (Z.mod_small (- value)) by lia.
  rewrite (Z.mod_small (- value + 1)) by lia.
  rewrite msb_log2 by lia.
  replace (- value + 1) with (1 - value) by lia.
  assert (Hk : 0 <= Z.log2 (1 - value) < 31).
  { split; [apply Z.log2_nonneg |]. apply Z.log2_lt_pow2; lia. }
  destruct (Z.ltb_spec (Z.log2 (1 - value)) 31); [| lia].
  f_equal. rewrite Z.shiftl_1_l.
  rewrite <- Z.land_ones by lia. rewrite Z.ones_equiv. reflexivity.
Qed.

Lemma masking_twos_compliment_low_bits_witness :
  masking_twos_compliment (-10) = Some 6.
Proof. apply (masking_twos_compliment_low_bits (-10)). lia. Defined.

End BitFacts.

Section FormatFacts.
Import Format.

Ltac split_on c :=
  repeat match goal with
         | |- context [Ascii.eqb c ?x] =>
             destruct (Ascii.eqb_spec c x); [subst c |]
         | H : context [Ascii.eqb c ?x] |- _ =>
             destruct (Ascii.eqb_spec c x); [subst c |]
         end.

Lemma flag_character_kinds c :
  is_flag_character c = is_simple c || is_container c.
Proof. unfold is_flag_character, is_simple. reflexivity. Qed.

Lemma simple_not_container c : is_simple c = true -> is_container c = false.
Proof.
  unfold is_simple, is_container. split_on c; cbn; congruence.
Qed.

Lemma parse_flag_seen f c :
  is_simple c = true -> seen f c = true ->
  parse_flag f c = Raise (flag_specified_twice c).
Proof.
  unfold is_simple, seen, parse_flag.
  split_on c; cbn; intros Hs Hseen; try discriminate; rewrite Hseen; reflexivity.
Qed.

Lemma parse_flag_simple f c :
  is_simple c = true -> seen f c = false ->
  exists f', parse_flag f c = Ok f' /\
             (forall c', seen f' c' = Ascii.eqb c' c || seen f c') /\
             (0 <? _container_start f') = (0 <? _container_start f).
Proof.
  unfold is_simple, parse_flag. intros Hs Hseen.
  split_on c; cbn in Hs; try congruence; unfold seen in Hseen; cbn in Hseen;
    rewrite Hseen; eexists; (split; [reflexivity |]); (split; [| cbn]);
    try reflexivity;
    try (intros c'; unfold seen; cbn; split_on c'; cbn; try reflexivity;
         try congruence).
  destruct (Z.eqb_spec (_container_start f) (-1)) as [-> | ?]; reflexivity.
Qed.

Lemma parse_flag_container f c :
  is_container c = true ->
  if 0 <? _container_start f
  then parse_flag f c = Raise container_flag_specified_twice
  else exists f', parse_flag f c = Ok f' /\
                  (forall c', seen f' c' = seen f c') /\
                  (0 <? _container_start f') = true.
Proof.
  intros Hc. unfold parse_flag. rewrite Hc.
  assert (Hn : is_simple c = false).
  { destruct (is_simple c) eqn:Hs; [| reflexivity].
    apply simple_not_container in Hs. congruence. }
  unfold is_simple in Hn.
  repeat (apply orb_false_iff in Hn; destruct Hn as [Hn ?]).
  repeat match goal with H : Ascii.eqb c _ = false |- _ => rewrite H; clear H end.
  destruct (0 <? _container_start f); [reflexivity |].
  eexists. split; [reflexivity |]. split; [reflexivity |].
  cbn. unfold is_container in Hc.
  split_on c; cbn in Hc; try discriminate; reflexivity.
Qed.

Lemma parse_flag_invalid f c :
  is_flag_character c = false -> parse_flag f c = Raise (not_a_valid_format_flag c).
Proof.
  unfold is_flag_character, parse_flag. intros Hn.
  repeat (apply orb_false_iff in Hn; destruct Hn as [Hn ?]).
  repeat match goal with H : _ = false |- _ => rewrite H; clear H end.
  reflexivity.
Qed.

Lemma filter_simple_in c l :
  is_simple c = true -> In c (List.filter is_simple l) <-> In c l.
Proof.
  intros Hs. rewrite filter_In. tauto.
Qed.

Lemma parse_flags_ok_iff flags : forall f,
  is_ok (parse_flags flags f) = true <->
  Forall (fun c => is_flag_character c = true) flags /\
  NoDup (List.filter is_simple flags) /\
  Forall (fun c => seen f c = false) flags /\
  (length (List.filter is_container flags)
   + (if (0 <? _container_start f)%Z then 1 else 0) <= 1)%nat.
Proof.
  induction flags as [| c rest IH]; intros f.
  - cbn. split; [| reflexivity]. intros _.
    split; [constructor |]. split; [constructor |]. split; [constructor |].
    destruct (0 <? _container_start f); lia.
  - cbn [parse_flags List.filter].
    destruct (is_flag_character c) eqn:Hflag.
    + rewrite flag_character_kinds in Hflag.
      destruct (is_simple c) eqn:Hs.
      * rewrite (simple_not_container c Hs).
        destruct (seen f c) eqn:Hseen.
        -- rewrite (parse_flag_seen f c Hs Hseen). cbn. split; [discriminate |].
           intros (_ & _ & Hall & _). inversion Hall; congruence.
        -- destruct (parse_flag_simple f c Hs Hseen) as (f' & -> & Hseen' & Hcont).
           cbn [bind]. rewrite IH, Hcont. rewrite !List.Forall_forall.
           split.
           ++ intros (Hf & Hnd & Hall & Hlen). repeat split; auto.
              ** intros x [<- | Hin]; [rewrite flag_character_kinds, Hs; reflexivity | auto].
              ** apply NoDup_cons. split; [| exact Hnd].
                 rewrite list_elem_of_In, filter_simple_in by exact Hs. intros Hin.
                 specialize (Hall c Hin). rewrite Hseen' in Hall.
                 rewrite Ascii.eqb_refl in Hall. discriminate.
              ** intros x [<- | Hin]; [exact Hseen |].
                 specialize (Hall x Hin). rewrite Hseen' in Hall.
                 apply orb_false_iff in Hall. tauto.
           ++ intros (Hf & Hnd & Hall & Hlen).
              apply NoDup_cons in Hnd. destruct Hnd as [Hnotin Hnd].
              rewrite list_elem_of_In, filter_simple_in in Hnotin by exact Hs.
              repeat split; auto.
              ** intros x Hin. apply Hf. right. exact Hin.
              ** intros x Hin. rewrite Hseen'. apply orb_false_iff. split.
                 --- apply Ascii.eqb_neq. intros ->. contradiction.
                 --- apply Hall. right. exact Hin.
      * cbn in Hflag. rewrite Hflag.
        pose proof (parse_flag_container f c Hflag) as Hstep.
        destruct (0 <? _container_start f) eqn:Hcont.
        -- rewrite Hstep. cbn. split; [discriminate |].
           intros (_ & _ & _ & Hlen). lia.
        -- destruct Hstep as (f' & -> & Hseen' & Hcont').
           cbn [bind]. rewrite IH, Hcont'. rewrite !List.Forall_forall.
           cbn [length].
           split.
           ++ intros (Hf & Hnd & Hall & Hlen). repeat split; auto; try lia.
              ** intros x [<- | Hin]; [rewrite flag_character_kinds, Hs; exact Hflag | auto].
              ** intros x [<- | Hin].
                 --- unfold is_simple in Hs. unfold seen.
                     repeat (apply orb_false_iff in Hs; destruct Hs as [Hs ?]).
                     repeat match goal with H : _ = false |- _ => rewrite H; clear H end.
                     reflexivity.
                 --- rewrite <- Hseen'. auto.
           ++ intros (Hf & Hnd & Hall & Hlen). repeat split; auto; try lia.
              ** intros x Hin. apply Hf. right. exact Hin.
              ** intros x Hin. rewrite Hseen'. apply Hall. right. exact Hin.
    + rewrite (parse_flag_invalid f c Hflag). cbn. split; [discriminate |].
      intros (Hf & _). inversion Hf; congruence.
Qed.

(** X6. [parse_flags] accepts a run of flags exactly when every character
    is a flag, none of the flags space, [+], [-], [#] and [0] occurs twice,
    and at most one of the container flags occurs. *)
Theorem parse_flags_accepts flags :
  is_ok (parse_flags flags initial) = true <->
  Forall (fun c => is_flag_character c = true) flags /\
  NoDup (List.filter is_simple flags) /\
  (length (List.filter is_container flags) <= 1)%nat.
Proof.
  rewrite parse_flags_ok_iff. cbn.
  split.
  - intros (Hf & Hnd & _ & Hlen). repeat split; auto. lia.
  - intros (Hf & Hnd & Hlen). repeat split; auto; [| lia].
    apply List.Forall_forall. intros c _. unfold seen, initial. cbn.
    repeat match goal with |- context [if ?b then _ else _] => destruct b end;
      reflexivity.
Qed.

Lemma code_nonneg c : 0 <= code c.
Proof. unfold code. lia. Qed.

Lemma container_code_pos c : is_container c = true -> 0 < code c.
Proof.
  unfold is_container. split_on c; cbn; try discriminate; intros _; reflexivity.
Qed.

Lemma parse_flag_swap_match f a b f1 f2 :
  parse_flag f a = Ok f1 -> parse_flag f1 b = Ok f2 ->
  match parse_flag f b with
  | Ok f1' => parse_flag f1' a = Ok f2
  | Raise _ => False
  end.
Proof.
  destruct f as [sp al sg lj zp cs w p t].
  intros Ha. revert Ha. unfold parse_flag at 1. cbn.
  repeat match goal with
         | |- context [if ?c then _ else _] => destruct c eqn:?
         end;
    intros Ha; try discriminate Ha; injection Ha as <-;
    unfold parse_flag; cbn;
    repeat (cbn;
            match goal with
            | H : ?c = _ |- context [if ?c then _ else _] => rewrite H
            | |- context [if ?c then _ else _] => destruct c eqn:?
            end);
    cbn in *; try discriminate;
    intros Hb; try discriminate Hb; try (injection Hb as <-);
    try reflexivity;
    repeat match goal with
           | H : is_container ?x = true |- _ => apply container_code_pos in H
           | H : Z.ltb _ _ = true |- _ => apply Z.ltb_lt in H
           | H : Z.ltb _ _ = false |- _ => apply Z.ltb_ge in H
           | H : Z.eqb _ _ = true |- _ => apply Z.eqb_eq in H
           | H : Z.eqb _ _ = false |- _ => apply Z.eqb_neq in H
           end;
    try (pose proof (code_nonneg a); pose proof (code_nonneg b));
    first [congruence | lia | repeat f_equal; lia
          | destruct (Z.eqb_spec cs (-1)); lia].
Qed.

Lemma parse_flag_swap f a b f1 f2 :
  parse_flag f a = Ok f1 -> parse_flag f1 b = Ok f2 ->
  exists f1', parse_flag f b = Ok f1' /\ parse_flag f1' a = Ok f2.
Proof.
  intros Ha Hb. pose proof (parse_flag_swap_match f a b f1 f2 Ha Hb) as H.
  destruct (parse_flag f b) as [f1' |]; [| contradiction].
  exists f1'. split; [reflexivity | exact H].
Qed.

Lemma parse_flags_permutation flags flags' :
  Permutation flags flags' ->
  forall f r, parse_flags flags f = Ok r -> parse_flags flags' f = Ok r.
Proof.
  induction 1 as [| x l l' Hperm IH | x y l | l l' l'' H1 IH1 H2 IH2]; intros f r Hr.
  - exact Hr.
  - cbn in *. destruct (parse_flag f x) as [f' |]; [| discriminate].
    cbn in *. apply IH. exact Hr.
  - cbn in *. destruct (parse_flag f y) as [f1 |] eqn:Hy; [| discriminate].
    cbn in Hr. destruct (parse_flag f1 x) as [f2 |] eqn:Hx; [| discriminate].
    cbn in Hr.
    destruct (parse_flag_swap f y x f1 f2 Hy Hx) as (f1' & -> & Hy').
    cbn. rewrite Hy'. exact Hr.
  - apply IH2, IH1. exact Hr.
Qed.

(** X7. The order of the flags does not matter: a run of flags that is
    accepted sets the same members in whatever order its flags come. *)
Theorem parse_flags_order flags flags' f :
  Permutation flags flags' ->
  parse_flags flags initial = Ok f -> parse_flags flags' initial = Ok f.
Proof. intros Hperm. apply parse_flags_permutation. exact Hperm. Qed.

Lemma parse_flags_order_witness :
  parse_flags (list_ascii_of_string "{ -") initial
  = parse_flags (list_ascii_of_string "- {") initial /\
  is_ok (parse_flags (list_ascii_of_string "- {") initial) = true.
Proof.
  split; [| reflexivity].
  rewrite (parse_flags_order (list_ascii_of_string "- {") (list_ascii_of_string "{ -")
             {| _use_space := true; _alternative := false; _show_sign := false;
                _left_justify := true; _zero_pad := false; _container_start := 123;
                _width := 0; _precision := -1; _type := zero |}).
  - reflexivity.
  - cbn. apply perm_trans with [" "; "-"; "{"]%char%list.
    + apply perm_swap.
    + apply perm_trans with [" "; "{"; "-"]%char%list.
      * apply perm_skip. apply perm_swap.
      * apply perm_swap.
  - reflexivity.
Defined.

Lemma span_spec p s :
  s = (fst (span p s) ++ snd (span p s))%list /\
  Forall (fun c => p c = true) (fst (span p s)) /\
  match snd (span p s) with
  | [] => True
  | c :: _ => p c = false
  end.
Proof.
  induction s as [| c rest IH]; cbn.
  - repeat split. constructor.
  - destruct (p c) eqn:Hp.
    + destruct (span p rest) as [front back]. cbn in *.
      destruct IH as (-> & Hall & Hback). repeat split; auto.
    + cbn. repeat split; [constructor | exact Hp].
Qed.

Lemma span_nonempty p c rest : p c = true -> fst (span p (c :: rest)) <> [].
Proof. intros Hp. cbn. rewrite Hp. destruct (span p rest). discriminate. Qed.

Lemma digit_nonneg c : is_digit c = true -> 0 <= digit c <= 9.
Proof.
  unfold is_digit, digit, code. intros H.
  apply andb_true_iff in H. destruct H as [H1 H2].
  apply Nat.leb_le in H1, H2. lia.
Qed.

Lemma read_digits_all ds : forall acc,
  Forall (fun c => is_digit c = true) ds -> 0 <= acc ->
  snd (read_digits ds acc) = [] /\ acc <= fst (read_digits ds acc).
Proof.
  induction ds as [| c rest IH]; intros acc Hall Hacc; cbn.
  - split; [reflexivity | lia].
  - inversion Hall as [| ? ? Hc Hrest]; subst. rewrite Hc.
    pose proof (digit_nonneg c Hc).
    destruct (IH (10 * acc + digit c) Hrest) as [Hnil Hle]; [lia |].
    split; [exact Hnil | lia].
Qed.

Lemma stoll_digits ds :
  ds <> [] -> Forall (fun c => is_digit c = true) ds ->
  0 <= decimal ds /\
  stoll ds = if decimal ds <=? Int64.max then Ok (decimal ds, length ds)
             else Raise out_of_range.
Proof.
  intros Hne Hall. destruct ds as [| c rest]; [congruence |].
  pose proof (read_digits_all (c :: rest) 0 Hall ltac:(lia)) as [Hnil Hle].
  split; [exact Hle |].
  inversion Hall as [| ? ? Hc Hrest]; subst.
  unfold stoll.
  assert (Hsp : isspace c = false /\ Ascii.eqb c "-" = false /\ Ascii.eqb c "+" = false).
  { unfold is_digit in Hc. apply andb_true_iff in Hc. destruct Hc as [H1 H2].
    apply Nat.leb_le in H1, H2.
    repeat split.
    - unfold isspace. apply orb_false_iff. split.
      + apply andb_false_iff. right. apply Nat.leb_gt. lia.
      + apply Nat.eqb_neq. lia.
    - apply Ascii.eqb_neq. intros ->.
      change (nat_of_ascii "-") with 45%nat in H1. lia.
    - apply Ascii.eqb_neq. intros ->.
      change (nat_of_ascii "+") with 43%nat in H1. lia. }
  destruct Hsp as (Hs1 & Hs2 & Hs3).
  cbn [skip_spaces]. rewrite Hs1, Hs2, Hs3, Hc.
  unfold decimal in *.
  destruct (read_digits (c :: rest) 0) as [magnitude after]. cbn in *. subst after.
  unfold Int64.in_rangeb.
  replace (Int64.min <=? magnitude) with true
    by (symmetry; apply Z.leb_le; unfold Int64.min; lia).
  cbn [andb length]. rewrite Nat.sub_0_r. reflexivity.
Qed.

Lemma parse_width_digits ds :
  ds <> [] -> Forall (fun c => is_digit c = true) ds ->
  parse_width ds = if decimal ds <=? Int64.max then Ok (decimal ds)
                   else Raise width_out_of_range.
Proof.
  intros Hne Hall. unfold parse_width.
  destruct (stoll_digits ds Hne Hall) as [_ ->].
  destruct (decimal ds <=? Int64.max); [| reflexivity].
  rewrite Nat.eqb_refl. reflexivity.
Qed.

Lemma parse_precision_digits ds :
  ds <> [] -> Forall (fun c => is_digit c = true) ds ->
  parse_precision ds = if decimal ds <=? Int64.max then Ok (decimal ds)
                       else Raise precision_out_of_range.
Proof.
  intros Hne Hall. unfold parse_precision.
  destruct (stoll_digits ds Hne Hall) as [_ ->].
  destruct (decimal ds <=? Int64.max); [| reflexivity].
  rewrite Nat.eqb_refl. reflexivity.
Qed.

(** What the regions of a match are. *)
Lemma format_regex_regions s found :
  format_regex s = Some found ->
  s = ("%"%char :: flags_region found
         ++ default [] (width_region found)
         ++ match precision_region found with
            | Some p => "."%char :: p
            | None => []
            end
         ++ [type_region found])%list /\
  Forall (fun c => is_flag_character c = true) (flags_region found) /\
  (forall w, width_region found = Some w ->
             w <> [] /\ Forall (fun c => is_digit c = true) w) /\
  (forall p, precision_region found = Some p ->
             p <> [] /\ Forall (fun c => is_digit c = true) p) /\
  is_letter (type_region found) = true.
Proof.
  unfold format_regex. destruct s as [| c r]; [discriminate |].
  destruct (Ascii.eqb_spec c "%"); [subst c | discriminate].
  pose proof (span_spec is_flag_character r) as (Hr & Hflags & _).
  destruct (span is_flag_character r) as [flags r1]. cbn [fst snd] in *.
  set (width_part :=
         match r1 with
         | d :: _ =>
             if is_digit d && negb (Ascii.eqb d "0")
             then let (w, after) := span is_digit r1 in (Some w, after)
             else (None, r1)
         | [] => (None, r1)
         end).
  assert (Hwidth : r1 = (default [] (fst width_part) ++ snd width_part)%list /\
                   forall w, fst width_part = Some w ->
                             w <> [] /\ Forall (fun c => is_digit c = true) w).
  { subst width_part. destruct r1 as [| d r1']; [cbn; split; [reflexivity | discriminate] |].
    destruct (is_digit d && negb (Ascii.eqb d "0")) eqn:Hd;
      [| cbn; split; [reflexivity | discriminate]].
    apply andb_true_iff in Hd. destruct Hd as [Hd _].
    pose proof (span_spec is_digit (d :: r1')) as (Heq & Hall & _).
    pose proof (span_nonempty is_digit d r1' Hd) as Hne.
    destruct (span is_digit (d :: r1')) as [w after]. cbn [fst snd default] in *.
    split; [exact Heq |]. intros w' [= <-]. split; assumption. }
  destruct width_part as [width r2]. cbn [fst snd] in Hwidth.
  destruct Hwidth as [Hr1 Hw].
  set (precision_part :=
         match r2 with
         | dot :: d :: _ =>
             if Ascii.eqb dot "." && is_digit d
             then let (p, after) := span is_digit (tl r2) in (Some p, after)
             else (None, r2)
         | _ => (None, r2)
         end).
  assert (Hprecision :
            r2 = (match fst precision_part with
                  | Some p => "."%char :: p
                  | None => []
                  end ++ snd precision_part)%list /\
            forall p, fst precision_part = Some p ->
                      p <> [] /\ Forall (fun c => is_digit c = true) p).
  { subst precision_part.
    destruct r2 as [| dot [| d r2']]; try (cbn; split; [reflexivity | discriminate]).
    destruct (Ascii.eqb dot "." && is_digit d) eqn:Hd;
      [| cbn; split; [reflexivity | discriminate]].
    apply andb_true_iff in Hd. destruct Hd as [Hdot Hd].
    apply Ascii.eqb_eq in Hdot. subst dot. cbn [tl].
    pose proof (span_spec is_digit (d :: r2')) as (Heq & Hall & _).
    pose proof (span_nonempty is_digit d r2' Hd) as Hne.
    destruct (span is_digit (d :: r2')) as [p after]. cbn [fst snd] in *.
    split; [rewrite Heq at 1; reflexivity |]. intros p' [= <-]. split; assumption. }
  destruct precision_part as [precision r3]. cbn [fst snd] in Hprecision.
  destruct Hprecision as [Hr2 Hp].
  destruct r3 as [| t [| ? ?]]; try discriminate.
  destruct (is_letter t) eqn:Ht; [| discriminate].
  intros [= <-]. cbn [flags_region width_region precision_region type_region].
  repeat split; auto; try (apply Hw; assumption); try (apply Hp; assumption).
  rewrite Hr, Hr1, Hr2. reflexivity.
Qed.

Lemma parse_flag_keeps f c f' :
  parse_flag f c = Ok f' ->
  _width f' = _width f /\ _precision f' = _precision f /\ _type f' = _type f.
Proof.
  unfold parse_flag.
  repeat match goal with
         | |- context [if ?b then _ else _] => destruct b
         end; intros [= <-]; repeat split.
Qed.

Lemma parse_flags_keeps flags : forall f f',
  parse_flags flags f = Ok f' ->
  _width f' = _width f /\ _precision f' = _precision f /\ _type f' = _type f.
Proof.
  induction flags as [| c rest IH]; intros f f' H; cbn in H.
  - injection H as <-. repeat split.
  - destruct (parse_flag f c) as [f1 |] eqn:Hc; [| discriminate]. cbn in H.
    destruct (parse_flag_keeps f c f1 Hc) as (<- & <- & <-).
    apply IH. exact H.
Qed.

Lemma parse_flags_errors flags : forall f e,
  Forall (fun c => is_flag_character c = true) flags ->
  parse_flags flags f = Raise e ->
  (exists c, e = flag_specified_twice c /\ is_simple c = true) \/
  e = container_flag_specified_twice.
Proof.
  induction flags as [| c rest IH]; intros f e Hall H; cbn in H; [discriminate |].
  inversion Hall as [| ? ? Hc Hrest]; subst.
  destruct (parse_flag f c) as [f1 |] eqn:Hstep; cbn in H.
  - apply (IH f1); assumption.
  - injection H as <-. rewrite flag_character_kinds in Hc.
    destruct (is_simple c) eqn:Hs.
    + destruct (seen f c) eqn:Hseen.
      * rewrite (parse_flag_seen f c Hs Hseen) in Hstep. left. exists c.
        split; congruence.
      * destruct (parse_flag_simple f c Hs Hseen) as (f' & Hok & _). congruence.
    + cbn in Hc. pose proof (parse_flag_container f c Hc) as Hcont.
      destruct (0 <? _container_start f).
      * right. congruence.
      * destruct Hcont as (f' & Hok & _). congruence.
Qed.

(** X8. A specification (without line break) that is accepted starts
    with a percent sign and ends with a letter, which is the type of the
    format; the width is from 0 to the greatest 64-bit integer, and the
    precision is -1, when none is given, or from 0 to that integer. *)
Theorem parse_specification_sound s f :
  single_line s ->
  parse_specification s = Ok f ->
  (exists body, s = ("%"%char :: body ++ [_type f])%list) /\
  is_letter (_type f) = true /\
  0 <= _width f <= Int64.max /\
  -1 <= _precision f <= Int64.max.
Proof.
  intros _. unfold parse_specification.
  destruct (format_regex s) as [found |] eqn:Hregex; [| discriminate].
  destruct (format_regex_regions s found Hregex) as (Hs & Hflags & Hw & Hp & Ht).
  destruct (parse_flags (flags_region found) initial) as [f1 |] eqn:Hf1; [| discriminate].
  cbn [bind].
  destruct (parse_flags_keeps _ _ _ Hf1) as (Hw1 & Hp1 & _). cbn in Hw1, Hp1.
  assert (Hf2 : forall f2,
             match width_region found with
             | Some width => let* value := parse_width width in Ok (with_width f1 value)
             | None => Ok f1
             end = Ok f2 ->
             0 <= _width f2 <= Int64.max /\ _precision f2 = -1).
  { intros f2. destruct (width_region found) as [w |].
    - destruct (Hw w eq_refl) as [Hne Hall].
      rewrite (parse_width_digits w Hne Hall).
      destruct (stoll_digits w Hne Hall) as [Hpos _].
      destruct (Z.leb_spec (decimal w) Int64.max); [| discriminate].
      cbn. intros [= <-]. cbn. split; [lia | exact Hp1].
    - intros [= <-]. rewrite Hw1. unfold Int64.max. split; [lia | exact Hp1]. }
  destruct (match width_region found with
            | Some width => let* value := parse_width width in Ok (with_width f1 value)
            | None => Ok f1
            end) as [f2 |]; [| discriminate].
  destruct (Hf2 f2 eq_refl) as [Hwidth Hprec]. cbn [bind].
  assert (Hf3 : forall f3,
             match precision_region found with
             | Some precision =>
                 let* value := parse_precision precision in Ok (with_precision f2 value)
             | None => Ok f2
             end = Ok f3 ->
             _width f3 = _width f2 /\ -1 <= _precision f3 <= Int64.max).
  { intros f3. destruct (precision_region found) as [p |].
    - destruct (Hp p eq_refl) as [Hne Hall].
      rewrite (parse_precision_digits p Hne Hall).
      destruct (stoll_digits p Hne Hall) as [Hpos _].
      destruct (Z.leb_spec (decimal p) Int64.max); [| discriminate].
      cbn. intros [= <-]. cbn. split; [reflexivity | lia].
    - intros [= <-]. rewrite Hprec. unfold Int64.max. split; [reflexivity | lia]. }
  destruct (match precision_region found with
            | Some precision =>
                let* value := parse_precision precision in Ok (with_precision f2 value)
            | None => Ok f2
            end) as [f3 |]; [| discriminate].
  destruct (Hf3 f3 eq_refl) as [Hwidth3 Hprec3]. cbn [bind].
  intros [= <-]. cbn.
  repeat split; try lia; try exact Ht.
  eexists. rewrite Hs at 1. rewrite !app_assoc. reflexivity.
Qed.

Lemma parse_specification_sound_witness :
  (exists body, all_flags = ("%"%char :: body ++ ["p"%char])%list) /\
  is_letter "p" = true /\ 0 <= 0 <= Int64.max /\ -1 <= -1 <= Int64.max.
Proof.
  apply (parse_specification_sound all_flags
           {| _use_space := true; _alternative := true; _show_sign := true;
              _left_justify := true; _zero_pad := true; _container_start := 123;
              _width := 0; _precision := -1; _type := "p" |}).
  - unfold single_line, all_flags, line_break. cbn.
    intros H. repeat (destruct H as [H | H]; [discriminate |]). exact H.
  - reflexivity.
Defined.

(** X9. A specification (without line break) is refused for one of five
    reasons only: it has not the form the regular expression asks, a flag
    comes twice, two container flags come, or the width or the precision
    is out of range.  The errors "not a valid format flag", "format width
    is not valid" and "format precision is not valid" are never raised. *)
Theorem parse_specification_errors s e :
  single_line s ->
  parse_specification s = Raise e ->
  e = not_a_valid_format_string s \/
  (exists c, e = flag_specified_twice c /\ is_simple c = true) \/
  e = container_flag_specified_twice \/
  e = width_out_of_range \/
  e = precision_out_of_range.
Proof.
  intros _. unfold parse_specification.
  destruct (format_regex s) as [found |] eqn:Hregex; [| intros [= <-]; auto].
  destruct (format_regex_regions s found Hregex) as (Hs & Hflags & Hw & Hp & Ht).
  destruct (parse_flags (flags_region found) initial) as [f1 |] eqn:Hf1.
  - cbn [bind].
    destruct (width_region found) as [w |].
    + destruct (Hw w eq_refl) as [Hne Hall].
      rewrite (parse_width_digits w Hne Hall).
      destruct (decimal w <=? Int64.max); [| cbn; intros [= <-]; auto].
      cbn [bind].
      destruct (precision_region found) as [p |]; [| discriminate].
      destruct (Hp p eq_refl) as [Hnep Hallp].
      rewrite (parse_precision_digits p Hnep Hallp).
      destruct (decimal p <=? Int64.max); [discriminate |].
      cbn. intros [= <-]. auto 10.
    + cbn [bind].
      destruct (precision_region found) as [p |]; [| discriminate].
      destruct (Hp p eq_refl) as [Hnep Hallp].
      rewrite (parse_precision_digits p Hnep Hallp).
      destruct (decimal p <=? Int64.max); [discriminate |].
      cbn. intros [= <-]. auto 10.
  - cbn. intros [= <-].
    destruct (parse_flags_errors _ _ _ Hflags Hf1) as [Hsimple | ->]; auto.
Qed.

Lemma parse_specification_errors_witness :
  width_out_of_range = not_a_valid_format_string
                         (list_ascii_of_string "%9223372036854775808a") \/
  (exists c, width_out_of_range = flag_specified_twice c /\ is_simple c = true) \/
  width_out_of_range = container_flag_specified_twice \/
  width_out_of_range = width_out_of_range \/
  width_out_of_range = precision_out_of_range.
Proof.
  apply (parse_specification_errors (list_ascii_of_string "%9223372036854775808a")).
  - unfold single_line, line_break. cbn.
    intros H. repeat (destruct H as [H | H]; [discriminate |]). exact H.
  - reflexivity.
Defined.

End FormatFacts.

Section RegistrationFacts.
Import Node Registry Registrations.
Context {engine : RegexEngine}.
Local Open Scope string_scope.
Local Open Scope nat_scope.

Lemma to_lower_char_idem c : to_lower_char (to_lower_char c) = to_lower_char c.
Proof.
  unfold to_lower_char.
  destruct ((65 <=? nat_of_ascii c) && (nat_of_ascii c <=? 90)) eqn:Hc.
  - apply andb_true_iff in Hc. destruct Hc as [H1 H2].
    apply Nat.leb_le in H1, H2.
    rewrite nat_ascii_embedding by lia.
    replace ((65 <=? nat_of_ascii c + 32) && (nat_of_ascii c + 32 <=? 90)) with false;
      [reflexivity |].
    symmetry. apply andb_false_iff. right. apply Nat.leb_gt. lia.
  - rewrite Hc. reflexivity.
Qed.

Lemma to_lower_idem s : to_lower (to_lower s) = to_lower s.
Proof.
  induction s as [| c rest IH]; cbn; [reflexivity |].
  rewrite to_lower_char_idem, IH. reflexivity.
Qed.

Lemma map_emplace_lookup k v (m : gmap string nat) k' index :
  map_emplace k v m !! k' = Some index ->
  m !! k' = Some index \/ (k' = k /\ index = v /\ m !! k = None).
Proof.
  unfold map_emplace. destruct (m !! k) eqn:Hk; [auto |].
  destruct (decide (k' = k)) as [-> | Hne].
  - rewrite lookup_insert_eq. intros [= <-]. auto.
  - rewrite lookup_insert_ne by congruence. auto.
Qed.

Lemma map_emplace_keeps k v (m : gmap string nat) k' index :
  m !! k' = Some index -> map_emplace k v m !! k' = Some index.
Proof.
  unfold map_emplace. intros H. destruct (m !! k) eqn:Hk; [exact H |].
  rewrite lookup_insert_ne; [exact H |]. intros ->. congruence.
Qed.

(** What the second loop of [register_node] leaves in the map and in the
    default index. *)
Lemma add_hostnames_spec node_index hosts : forall acc,
  let result := fold_left (add_hostname node_index) hosts acc in
  (forall k index, fst acc !! k = Some index -> fst result !! k = Some index) /\
  (forall k index, fst result !! k = Some index ->
     fst acc !! k = Some index \/
     (index = node_index /\ exists h, In (host_name h) hosts /\ to_lower h = k)) /\
  snd result = if existsb is_default hosts then Some node_index else snd acc.
Proof.
  induction hosts as [| h rest IH]; intros acc; cbn.
  - repeat split; auto.
  - destruct (IH (add_hostname node_index acc h)) as (Hkeep & Hnew & Hdefault).
    repeat split.
    + intros k index Hk. apply Hkeep.
      destruct h; cbn; auto using map_emplace_keeps.
    + intros k index Hk. destruct (Hnew k index Hk) as [Hacc | (-> & h' & Hin & <-)].
      * destruct h; cbn in Hacc; auto.
        apply map_emplace_lookup in Hacc.
        destruct Hacc as [Hacc | (-> & -> & _)]; eauto 6.
      * right. eauto.
    + rewrite Hdefault. destruct h; cbn; try reflexivity.
      destruct (existsb is_default rest); reflexivity.
Qed.

Lemma create_regexes_spec hosts : forall regexes,
  create_regexes hosts = Ok regexes ->
  (forall rx, In rx regexes ->
     exists pattern, In (host_regex pattern) hosts /\ regex_new pattern = Some rx) /\
  (forall pattern, In (host_regex pattern) hosts ->
     exists rx, In rx regexes /\ regex_new pattern = Some rx).
Proof.
  induction hosts as [| h rest IH]; intros regexes H; cbn in H.
  - injection H as <-. split; [intros ? [] | intros ? []].
  - destruct h as [| pattern | name].
    + destruct (IH regexes H) as [H1 H2]. split.
      * intros rx Hin. destruct (H1 rx Hin) as (p & Hp & Hnew).
        exists p. split; [right; exact Hp | exact Hnew].
      * intros p [Hp | Hp]; [discriminate | auto].
    + destruct (regex_new pattern) as [rx |] eqn:Hnew; [| discriminate].
      destruct (create_regexes rest) as [others |]; [| discriminate].
      cbn in H. injection H as <-. destruct (IH others eq_refl) as [H1 H2]. split.
      * intros rx' [<- | Hin]; [exists pattern; split; [left; reflexivity | exact Hnew] |].
        destruct (H1 rx' Hin) as (p & Hp & Hnew').
        exists p. split; [right; exact Hp | exact Hnew'].
      * intros p [[= <-] | Hp]; [exists rx; split; [left; reflexivity | exact Hnew] |].
        destruct (H2 p Hp) as (rx' & Hin & Hnew').
        exists rx'. split; [right; exact Hin | exact Hnew'].
    + destruct (IH regexes H) as [H1 H2]. split.
      * intros rx Hin. destruct (H1 rx Hin) as (p & Hp & Hnew).
        exists p. split; [right; exact Hp | exact Hnew].
      * intros p [Hp | Hp]; [discriminate | auto].
Qed.

Lemma find_conflict_none r hosts :
  find_conflict r hosts = None <-> Forall (fun h => ~ taken r h) hosts.
Proof.
  induction hosts as [| h rest IH]; cbn.
  - split; [constructor | reflexivity].
  - destruct h as [| pattern | name]; cbn.
    + destruct (_default_node_index r) eqn:Hd.
      * split; [discriminate |]. intros H. inversion H as [| ? ? Hh _]; subst.
        exfalso. apply Hh. cbn. rewrite Hd. eauto.
      * rewrite IH. split; [intros H; constructor; [| exact H] | intros H; inversion H; auto].
        cbn. rewrite Hd. intros [? ?]. discriminate.
    + destruct (List.find _ (_regex_nodes r)) as [[rx index] |] eqn:Hfind.
      * split; [discriminate |]. intros H. inversion H as [| ? ? Hh _]; subst.
        exfalso. apply Hh. cbn. apply find_some in Hfind. destruct Hfind as [Hin Heq].
        apply String.eqb_eq in Heq. eauto.
      * rewrite IH. split; [intros H; constructor; [| exact H] | intros H; inversion H; auto].
        cbn. intros (rx & index & Hin & Heq).
        pose proof (find_none _ _ Hfind (rx, index) Hin) as Hno. cbn in Hno.
        rewrite Heq, String.eqb_refl in Hno. discriminate.
    + destruct (_named_nodes r !! name) eqn:Hn.
      * split; [discriminate |]. intros H. inversion H as [| ? ? Hh _]; subst.
        exfalso. apply Hh. cbn. rewrite Hn. eauto.
      * rewrite IH. split; [intros H; constructor; [| exact H] | intros H; inversion H; auto].
        cbn. rewrite Hn. intros [? ?]. discriminate.
Qed.

(** The registry a registration without conflict leaves. *)
Lemma register_node_added nd (r r' : registry) :
  register_node nd r = Ok (None, r') ->
  exists regexes,
    find_conflict r (hostnames (statement nd)) = None /\
    create_regexes (hostnames (statement nd)) = Ok regexes /\
    _nodes r' = (_nodes r ++ [nd])%list /\
    _named_nodes r'
    = fst (fold_left (add_hostname (length (_nodes r))) (hostnames (statement nd))
                     (_named_nodes r, _default_node_index r)) /\
    _regex_nodes r'
    = (_regex_nodes r ++ map (fun rx => (rx, length (_nodes r))) regexes)%list /\
    _default_node_index r'
    = snd (fold_left (add_hostname (length (_nodes r))) (hostnames (statement nd))
                     (_named_nodes r, _default_node_index r)).
Proof.
  unfold register_node.
  destruct (find_conflict r (hostnames (statement nd))) eqn:Hconflict; [discriminate |].
  destruct (create_regexes (hostnames (statement nd))) as [regexes |]; [| discriminate].
  cbn [bind]. rewrite length_app. cbn [length].
  replace (length (_nodes r) + 1 - 1) with (length (_nodes r)) by lia.
  destruct (fold_left _ _ _) as [named default] eqn:Hfold.
  intros [= <-]. exists regexes. cbn. repeat split; reflexivity.
Qed.

Lemma register_node_conflict nd (r r' : registry) existing :
  register_node nd r = Ok (Some existing, r') -> r' = r.
Proof.
  unfold register_node.
  destruct (find_conflict r (hostnames (statement nd))); [intros [= _ <-]; reflexivity |].
  destruct (create_regexes (hostnames (statement nd))); [| discriminate].
  cbn [bind]. destruct (fold_left _ _ _). discriminate.
Qed.

Lemma register_node_in_range nd (r r' : registry) existing :
  indices_in_range r -> register_node nd r = Ok (existing, r') -> indices_in_range r'.
Proof.
  intros (Hnamed & Hregex & Hdefault) Hreg.
  destruct existing as [index |].
  - apply register_node_conflict in Hreg. subst r'. repeat split; assumption.
  - destruct (register_node_added nd r r' Hreg)
      as (regexes & _ & _ & Hnodes & Hn & Hr & Hd).
    destruct (add_hostnames_spec (length (_nodes r)) (hostnames (statement nd))
                (_named_nodes r, _default_node_index r)) as (_ & Hnew & Hdef).
    unfold indices_in_range. rewrite Hnodes, length_app. cbn [length].
    repeat split.
    + intros k index Hk. rewrite Hn in Hk.
      destruct (Hnew k index Hk) as [Hold | [-> _]]; [| lia].
      cbn in Hold. apply Hnamed in Hold. lia.
    + rewrite Hr. apply List.Forall_app. split.
      * eapply List.Forall_impl; [| exact Hregex]. cbn. intros; lia.
      * apply List.Forall_forall. intros kvp Hin. apply in_map_iff in Hin.
        destruct Hin as (rx & <- & _). cbn. lia.
    + intros index. rewrite Hd, Hdef. cbn.
      destruct (existsb is_default (hostnames (statement nd))).
      * intros [= <-]. lia.
      * intros Hold. apply Hdefault in Hold. lia.
Qed.

Lemma reachable_in_range (r : registry) : reachable r -> indices_in_range r.
Proof.
  induction 1 as [| nd r existing r' _ IH Hreg].
  - repeat split; cbn; try discriminate; try constructor.
  - eapply register_node_in_range; eassumption.
Qed.

Lemma each_in_find (r : registry) names : forall st,
  each_in (find_node_callback r) names st = st \/
  exists index node_name,
    each_in (find_node_callback r) names st = (Some index, node_name) /\
    ((exists key, _named_nodes r !! key = Some index) \/
     (exists rx, In (rx, index) (_regex_nodes r))).
Proof.
  induction names as [| name rest IH]; intros st; cbn; [auto |].
  unfold find_node_callback at 1 3.
  destruct (_named_nodes r !! name) as [index |] eqn:Hn; [right; eauto 7 |].
  destruct (search_regexes (_regex_nodes r) name) as [[rx index] |] eqn:Hs.
  - right. apply find_some in Hs. destruct Hs as [Hin _]. eauto 8.
  - apply IH.
Qed.

(** X10. In a registry that registrations have built, the definition
    [find_node] answers for a node is one of the registry: its index is
    within [_nodes]. *)
Theorem find_node_in_range (r : registry) (n : node) index node_name :
  reachable r ->
  find_node r n = (Some index, node_name) ->
  is_Some (_nodes r !! index).
Proof.
  intros Hreach Hfind. apply lookup_lt_is_Some.
  destruct (reachable_in_range r Hreach) as (Hnamed & Hregex & Hdefault).
  unfold find_node in Hfind.
  destruct (_nodes r) as [| first others] eqn:Hnodes; [discriminate |].
  rewrite <- Hnodes in *.
  unfold each_name in Hfind.
  destruct (each_in_find r (rev (_names n)) (None, ""))
    as [Hst | (i & nm & Hres & Hfrom)].
  - rewrite Hst in Hfind.
    destruct (_default_node_index r) as [d |] eqn:Hd; [| discriminate].
    injection Hfind as <- _. apply Hdefault. reflexivity.
  - rewrite Hres in Hfind. injection Hfind as <- _.
    destruct Hfrom as [[key Hkey] | [rx Hin]].
    + eapply Hnamed. exact Hkey.
    + rewrite List.Forall_forall in Hregex. apply (Hregex (rx, i) Hin).
Qed.

Lemma no_default_when_taken (r : registry) hosts index :
  find_conflict r hosts = None -> _default_node_index r = Some index ->
  existsb is_default hosts = false.
Proof.
  intros Hnone Hd. apply find_conflict_none in Hnone.
  destruct (existsb is_default hosts) eqn:He; [| reflexivity].
  apply existsb_exists in He. destruct He as (h & Hin & Hh).
  rewrite List.Forall_forall in Hnone. exfalso. apply (Hnone h Hin).
  destruct h; try discriminate. cbn. rewrite Hd. eauto.
Qed.

(** X11. A registration never changes what was registered before: the
    earlier definitions keep their place, the earlier literal hostnames
    and the default keep their definition, and the earlier patterns stay
    in front of the new ones. *)
Theorem register_node_extends nd (r r' : registry) existing :
  register_node nd r = Ok (existing, r') ->
  (exists added, _nodes r' = (_nodes r ++ added)%list) /\
  (forall name index,
     _named_nodes r !! name = Some index -> _named_nodes r' !! name = Some index) /\
  (exists added, _regex_nodes r' = (_regex_nodes r ++ added)%list) /\
  (forall index,
     _default_node_index r = Some index -> _default_node_index r' = Some index).
Proof.
  intros Hreg. destruct existing as [index |].
  - apply register_node_conflict in Hreg. subst r'.
    repeat split; auto; exists []; rewrite app_nil_r; reflexivity.
  - destruct (register_node_added nd r r' Hreg)
      as (regexes & Hnone & _ & Hnodes & Hn & Hr & Hd).
    destruct (add_hostnames_spec (length (_nodes r)) (hostnames (statement nd))
                (_named_nodes r, _default_node_index r)) as (Hkeep & _ & Hdef).
    repeat split.
    + exists [nd]. exact Hnodes.
    + intros name index Hname. rewrite Hn. apply Hkeep. exact Hname.
    + eexists. exact Hr.
    + intros index Hindex. rewrite Hd, Hdef.
      rewrite (no_default_when_taken r _ index Hnone Hindex). exact Hindex.
Qed.

Lemma registered_is_taken nd (r r' : registry) h :
  keeps_pattern ->
  register_node nd r = Ok (None, r') ->
  In h (hostnames (statement nd)) -> written_in_lower_case h ->
  taken r' h.
Proof.
  intros Hpattern Hreg Hin Hlower.
  destruct (register_node_added nd r r' Hreg)
    as (regexes & _ & Hcreate & Hnodes & Hn & Hr & Hd).
  destruct (add_hostnames_spec (length (_nodes r)) (hostnames (statement nd))
              (_named_nodes r, _default_node_index r)) as (_ & _ & Hdef).
  destruct h as [| pattern | name]; cbn in *.
  - rewrite Hd, Hdef.
    replace (existsb is_default (hostnames (statement nd))) with true; [eauto |].
    symmetry. apply existsb_exists. exists host_default. split; [exact Hin | reflexivity].
  - destruct (create_regexes_spec _ _ Hcreate) as [_ Hall].
    destruct (Hall pattern Hin) as (rx & Hrx & Hnew).
    exists rx, (length (_nodes r)). split; [| apply Hpattern; exact Hnew].
    rewrite Hr. apply in_or_app. right.
    apply in_map_iff. exists rx. split; [reflexivity | exact Hrx].
  - rewrite Hn, <- Hlower. apply add_hostname_named. exact Hin.
Qed.

(** X12. Once a node statement is registered, a later statement that
    names one of its hostnames again (the default, the same pattern, or a
    name written in lower case) is found to conflict with a definition. *)
Theorem registered_hostname_conflicts nd (r r' : registry) h hosts :
  keeps_pattern ->
  register_node nd r = Ok (None, r') ->
  In h (hostnames (statement nd)) -> written_in_lower_case h ->
  In h hosts ->
  is_Some (find_conflict r' hosts).
Proof.
  intros Hpattern Hreg Hin Hlower Hhosts.
  destruct (find_conflict r' hosts) as [index |] eqn:Hfind; [eauto |].
  apply find_conflict_none in Hfind. rewrite List.Forall_forall in Hfind.
  exfalso. apply (Hfind h Hhosts).
  eapply registered_is_taken; eassumption.
Qed.

Lemma register_node_lowercase_keys nd (r r' : registry) existing :
  lowercase_keys r -> register_node nd r = Ok (existing, r') -> lowercase_keys r'.
Proof.
  intros Hkeys Hreg. destruct existing as [index |].
  - apply register_node_conflict in Hreg. subst r'. exact Hkeys.
  - destruct (register_node_added nd r r' Hreg)
      as (regexes & _ & _ & _ & Hn & _ & _).
    destruct (add_hostnames_spec (length (_nodes r)) (hostnames (statement nd))
                (_named_nodes r, _default_node_index r)) as (_ & Hnew & _).
    intros name index Hname. rewrite Hn in Hname.
    destruct (Hnew name index Hname) as [Hold | (_ & h & _ & <-)].
    + eapply Hkeys. exact Hold.
    + apply to_lower_idem.
Qed.

Lemma reachable_lowercase_keys (r : registry) : reachable r -> lowercase_keys r.
Proof.
  induction 1 as [| nd r existing r' _ IH Hreg].
  - intros name index. cbn. rewrite lookup_empty. discriminate.
  - eapply register_node_lowercase_keys; eassumption.
Qed.

Lemma create_regexes_names hosts :
  Forall capitalized hosts -> create_regexes hosts = Ok [].
Proof.
  induction 1 as [| h rest (name & -> & _) _ IH]; cbn; [reflexivity | exact IH].
Qed.

(** X13. A node statement whose hostnames are all names with a capital
    letter is never found to conflict: the lookup uses the spelling of the
    statement and the keys are in lower case.  Such a statement can be
    registered any number of times. *)
Theorem capitalized_hostnames_never_conflict nd (r : registry) :
  reachable r ->
  Forall capitalized (hostnames (statement nd)) ->
  find_conflict r (hostnames (statement nd)) = None /\
  exists r', register_node nd r = Ok (None, r') /\
             _nodes r' = (_nodes r ++ [nd])%list /\ reachable r'.
Proof.
  intros Hreach Hcap.
  pose proof (reachable_lowercase_keys r Hreach) as Hkeys.
  assert (Hnone : find_conflict r (hostnames (statement nd)) = None).
  { apply find_conflict_none. eapply List.Forall_impl; [| exact Hcap].
    intros h (name & -> & Hname). cbn. intros [index Hindex].
    apply Hname. eapply Hkeys. exact Hindex. }
  split; [exact Hnone |].
  assert (Hreg : exists r', register_node nd r = Ok (None, r')).
  { unfold register_node. rewrite Hnone, (create_regexes_names _ Hcap). cbn [bind].
    destruct (fold_left _ _ _). eauto. }
  destruct Hreg as [r' Hreg]. exists r'. split; [exact Hreg |].
  destruct (register_node_added nd r r' Hreg) as (_ & _ & _ & Hnodes & _).
  split; [exact Hnodes |]. eapply reachable_register; eassumption.
Qed.

End RegistrationFacts.

Section RegistrationExamples.
Import Node Registry Registrations.
Local Open Scope string_scope.
Local Open Scope nat_scope.

Lemma two_nodes_reachable : reachable two_nodes_registry.
Proof.
  unfold two_nodes_registry, two_nodes.
  destruct (register_node (node_named [host_name "foo"]) (@empty plain_engine))
    as [[o1 r1] |] eqn:H1; cbn [bind snd]; [| apply reachable_empty].
  destruct (register_node (node_named [host_regex "bar"]) r1)
    as [[o2 r2] |] eqn:H2; [| apply reachable_empty].
  eapply reachable_register; [| exact H2].
  eapply reachable_register; [apply reachable_empty | exact H1].
Qed.

Lemma find_node_in_range_witness :
  is_Some (_nodes two_nodes_registry !! 1).
Proof.
  apply (find_node_in_range two_nodes_registry (make_node "foo.bar") 1 "/bar/").
  - exact two_nodes_reachable.
  - vm_compute. reflexivity.
Defined.

Lemma register_node_extends_witness :
  (exists added, _nodes two_nodes_registry = ([node_named [host_name "foo"]] ++ added)%list) /\
  _named_nodes two_nodes_registry !! "foo" = Some 0.
Proof.
  destruct (register_node_extends
              (engine := plain_engine) (node_named [host_regex "bar"])
              {| _nodes := [node_named [host_name "foo"]];
                 _named_nodes := {[ "foo" := 0 ]};
                 _regex_nodes := []; _default_node_index := None |}
              two_nodes_registry None) as (Hnodes & Hnamed & _ & _).
  - vm_compute. reflexivity.
  - split; [exact Hnodes | apply Hnamed; reflexivity].
Defined.

Lemma plain_engine_keeps_pattern : keeps_pattern (engine := plain_engine).
Proof. intros pattern rx [= <-]. reflexivity. Qed.

Lemma registered_hostname_conflicts_witness :
  is_Some (find_conflict two_nodes_registry [host_name "baz"; host_regex "bar"]).
Proof.
  apply (registered_hostname_conflicts
           (engine := plain_engine) (node_named [host_regex "bar"])
           {| _nodes := [node_named [host_name "foo"]];
              _named_nodes := {[ "foo" := 0 ]};
              _regex_nodes := []; _default_node_index := None |}
           two_nodes_registry (host_regex "bar")).
  - exact plain_engine_keeps_pattern.
  - vm_compute. reflexivity.
  - left. reflexivity.
  - exact I.
  - right. left. reflexivity.
Defined.

Lemma mixed_case_reachable : reachable mixed_case_registry.
Proof.
  unfold mixed_case_registry.
  destruct (register_node mixed_case_node (@empty plain_engine))
    as [[o r] |] eqn:H; [| apply reachable_empty].
  eapply reachable_register; [apply reachable_empty | exact H].
Qed.

Lemma capitalized_hostnames_never_conflict_witness :
  find_conflict mixed_case_registry (hostnames (statement mixed_case_node)) = None /\
  exists r', register_node mixed_case_node mixed_case_registry = Ok (None, r') /\
             _nodes r' = (_nodes mixed_case_registry ++ [mixed_case_node])%list /\
             reachable r'.
Proof.
  apply (capitalized_hostnames_never_conflict mixed_case_node mixed_case_registry).
  - exact mixed_case_reachable.
  - constructor; [| constructor].
    exists "Foo.Example.COM". split; [reflexivity |]. cbn. discriminate.
Defined.

End RegistrationExamples.

Section NormalizeFacts.
Import Node Evaluation.
Local Open Scope string_scope.
Local Open Scope nat_scope.

Lemma substring_all (s : string) : substring 0 (String.length s) s = s.
Proof.
  rewrite <- (append_nil_r s) at 2. apply substring_prefix.
Qed.

Lemma prefix_colons_cases (s : string) :
  (exists t, s = "::" ++ t /\ String.prefix "::" s = true) \/
  String.prefix "::" s = false.
Proof.
  destruct s as [| c1 [| c2 t]]; cbn [String.prefix]; auto.
  - destruct (ascii_dec ":" c1); auto.
  - destruct (ascii_dec ":" c1) as [<- |]; auto.
    destruct (ascii_dec ":" c2) as [<- |]; auto.
    left. exists t. split; [reflexivity | destruct t; reflexivity].
Qed.

Lemma normalize_colons (t : string) : normalize ("::" ++ t) = to_lower t.
Proof.
  unfold normalize. change ("::" ++ t) with (String ":" (String ":" t)).
  cbn [String.prefix]. destruct (ascii_dec ":" ":") as [_ | Hne]; [| congruence].
  cbn [String.length]. replace (S (S (String.length t)) - 2) with (String.length t) by lia.
  cbn [substring]. rewrite substring_all.
  replace (String.prefix "" t) with true by (destruct t; reflexivity).
  reflexivity.
Qed.

Lemma normalize_plain (s : string) :
  String.prefix "::" s = false -> normalize s = to_lower s.
Proof. unfold normalize. intros ->. reflexivity. Qed.

Lemma to_lower_char_colon c : to_lower_char c = ":"%char <-> c = ":"%char.
Proof.
  unfold to_lower_char.
  destruct ((65 <=? nat_of_ascii c) && (nat_of_ascii c <=? 90)) eqn:Hc.
  - apply andb_true_iff in Hc. destruct Hc as [H1 H2]. apply Nat.leb_le in H1, H2.
    split.
    + intros H. apply (f_equal nat_of_ascii) in H.
      rewrite nat_ascii_embedding in H by lia.
      change (nat_of_ascii ":") with 58 in H. lia.
    + intros ->. change (nat_of_ascii ":") with 58 in H1. lia.
  - tauto.
Qed.

Lemma prefix_nil (t : string) : String.prefix "" t = true.
Proof. destruct t; reflexivity. Qed.

Lemma colon_dec_lower c :
  (if ascii_dec ":" (to_lower_char c) then true else false)
  = (if ascii_dec ":" c then true else false).
Proof.
  destruct (ascii_dec ":" (to_lower_char c)) as [H | H];
    destruct (ascii_dec ":" c) as [H' | H']; try reflexivity; exfalso.
  - symmetry in H. apply (proj1 (to_lower_char_colon c)) in H. congruence.
  - apply H. symmetry. apply (proj2 (to_lower_char_colon c)). congruence.
Qed.

Lemma prefix_colons_lower (s : string) :
  String.prefix "::" (to_lower s) = String.prefix "::" s.
Proof.
  destruct s as [| c1 [| c2 t]]; cbn [String.prefix to_lower]; try reflexivity.
  - pose proof (colon_dec_lower c1) as H1.
    destruct (ascii_dec ":" (to_lower_char c1)); destruct (ascii_dec ":" c1);
      congruence.
  - pose proof (colon_dec_lower c1) as H1. pose proof (colon_dec_lower c2) as H2.
    rewrite !prefix_nil.
    destruct (ascii_dec ":" (to_lower_char c1)); destruct (ascii_dec ":" c1);
      try congruence;
      destruct (ascii_dec ":" (to_lower_char c2)); destruct (ascii_dec ":" c2);
      congruence.
Qed.

Lemma normalize_lower (s : string) : to_lower (normalize s) = normalize s.
Proof. unfold normalize. apply to_lower_idem. Qed.

(** X14. [registry::normalize] answers a name in lower case, and does not
    tell the capitals of its argument from the small letters; normalizing
    twice is normalizing once, except for a name that begins with two
    pairs of colons, of which each call strips one. *)
Theorem normalize_stable (s : string) :
  to_lower (normalize s) = normalize s /\
  normalize (to_lower s) = normalize s /\
  (String.prefix "::::" s = false -> normalize (normalize s) = normalize s).
Proof.
  destruct (prefix_colons_cases s) as [(t & -> & _) | Hplain].
  - rewrite normalize_colons. repeat split.
    + apply to_lower_idem.
    + rewrite to_lower_append. change (to_lower "::") with "::".
      rewrite normalize_colons. apply to_lower_idem.
    + intros Hfour.
      assert (Ht : String.prefix "::" t = false).
      { change ("::" ++ t) with (String ":" (String ":" t)) in Hfour.
        cbn [String.prefix] in Hfour.
        destruct (ascii_dec ":" ":") as [_ | Hne]; [| congruence].
        destruct t as [| c1 [| c2 t]]; cbn [String.prefix] in *; try reflexivity;
          try exact Hfour. }
      rewrite normalize_plain by (rewrite prefix_colons_lower; exact Ht).
      apply to_lower_idem.
  - rewrite (normalize_plain s Hplain). repeat split.
    + apply to_lower_idem.
    + rewrite normalize_plain by (rewrite prefix_colons_lower; exact Hplain).
      apply to_lower_idem.
    + intros _. rewrite normalize_plain by (rewrite prefix_colons_lower; exact Hplain).
      apply to_lower_idem.
Qed.

Lemma normalize_stable_witness :
  normalize (normalize "::Foo::Bar") = normalize "::Foo::Bar" /\
  normalize "::Foo::Bar" = "foo::bar".
Proof.
  split; [| reflexivity].
  apply (normalize_stable "::Foo::Bar"). reflexivity.
Defined.

End NormalizeFacts.

Section NodeNameFacts.
Import Node Registrations.
Local Open Scope string_scope.
Local Open Scope nat_scope.

Lemma head_rev_last {A} (l : list A) : head (rev l) = last l.
Proof.
  induction l as [| x l _] using rev_ind; [reflexivity |].
  rewrite rev_app_distr, last_snoc. reflexivity.
Qed.

Lemma subnames_from_nil s : forall pre nonempty,
  subnames_from pre nonempty s = [] <->
  nonempty = false /\ forall c, In c (list_ascii_of_string s) -> c = "."%char.
Proof.
  induction s as [| c rest IH]; intros pre nonempty; cbn.
  - destruct nonempty; split; try discriminate; try tauto.
    intros [[=] _].
  - unfold is_dot. destruct (Ascii.eqb_spec c ".") as [-> | Hc].
    + destruct nonempty; cbn.
      * split; [discriminate | intros [[=] _]].
      * rewrite IH. split.
        -- intros [_ H]. split; [reflexivity |]. intros c [<- | Hin]; auto.
        -- intros [_ H]. split; [reflexivity |]. intros c Hin. apply H. right. exact Hin.
    + rewrite IH. split; [intros [[=] _] |].
      intros [_ H]. exfalso. apply Hc. apply H. left. reflexivity.
Qed.

(** X15. A node has a name, the most specific one, which [each_name]
    visits first, exactly when its node name has a character other than a
    dot; the set of names of a node name made of dots only (or empty) is
    empty, and [each_name] calls nothing. *)
Theorem node_name_needs_component (node_name : string) :
  name (make_node node_name) = head (visited (make_node node_name)) /\
  (name (make_node node_name) = None <->
   forall c, In c (list_ascii_of_string node_name) -> c = "."%char) /\
  (name (make_node node_name) = None -> visited (make_node node_name) = []).
Proof.
  assert (Hhead : name (make_node node_name) = head (visited (make_node node_name))).
  { unfold name. rewrite visited_names. symmetry. apply head_rev_last. }
  assert (Hnone : name (make_node node_name) = None <-> _names (make_node node_name) = []).
  { unfold name. apply last_None. }
  split; [exact Hhead |]. split.
  - rewrite Hnone, make_node_names. unfold subnames.
    pose proof (subnames_from_nil node_name "" false) as Hnil.
    split.
    + intros H. apply map_eq_nil in H. apply Hnil. exact H.
    + intros H. rewrite (proj2 Hnil); [reflexivity |]. split; [reflexivity | exact H].
  - rewrite Hnone, visited_names. intros ->. reflexivity.
Qed.

End NodeNameFacts.

Section ScannerFacts.
Import Evaluation Scanner.
Context (describe : option (string -> result string (option resource_type))).
Local Open Scope string_scope.

Lemma emplace_lookup {V} k (v : V) (m : gmap string V) k' :
  emplace k v m !! k'
  = match m !! k with
    | Some _ => m !! k'
    | None => if decide (k' = k) then Some v else m !! k'
    end.
Proof.
  unfold emplace. destruct (m !! k) eqn:Hk; [reflexivity |].
  destruct (decide (k' = k)) as [-> | Hne].
  - apply lookup_insert_eq.
  - apply lookup_insert_ne. congruence.
Qed.

Lemma import_ruby_type_keeps name r found r' :
  import_ruby_type describe name r = Ok (found, r') ->
  _classes r' = _classes r /\ _defined_types r' = _defined_types r.
Proof.
  unfold import_ruby_type. destruct describe as [service |]; [| intros [= _ <-]; auto].
  destruct (_resource_types r !! name); [intros [= _ <-]; auto |].
  destruct (service name) as [[type |] | message]; try discriminate;
    intros [= _ <-]; auto.
Qed.

Lemma check_resource_type_keeps name normalized kind r r' :
  check_resource_type describe name normalized kind r = Ok r' ->
  _classes r' = _classes r /\ _defined_types r' = _defined_types r.
Proof.
  unfold check_resource_type.
  destruct (find_resource_type r normalized) as [existing |]; cbn [bind fst snd].
  - destruct (negb _); discriminate.
  - destruct (import_ruby_type describe normalized r) as [[found r1] |] eqn:Himport;
      [| discriminate].
    cbn [bind fst snd]. destruct found as [existing |].
    + destruct (negb _); discriminate.
    + intros [= <-]. eapply import_ruby_type_keeps. exact Himport.
Qed.

(** What a class that was scanned leaves in the registry. *)
Lemma scan_class_ok name statement r r' :
  scan_class describe name statement r = Ok r' ->
  find_class r (normalize name) = None /\
  find_defined_type r (normalize name) = None /\
  _defined_types r' = _defined_types r /\
  _classes r'
  = <[normalize name := {| klass_name := normalize name; klass_statement := statement |}]>
      (_classes r).
Proof.
  unfold scan_class.
  destruct (find_class r (normalize name)) eqn:Hc; [discriminate |].
  destruct (find_defined_type r (normalize name)) eqn:Hd; [discriminate |].
  destruct (check_resource_type describe (name_value statement) (normalize name) "class" r)
    as [r1 |] eqn:Hcheck; [| discriminate].
  cbn [bind]. intros [= <-].
  destruct (check_resource_type_keeps _ _ _ _ _ Hcheck) as [Hclasses Hdefined].
  unfold find_class in Hc. cbn. unfold emplace. cbn.
  rewrite Hclasses, Hc. auto.
Qed.

Lemma scan_defined_type_ok name statement r r' :
  scan_defined_type describe name statement r = Ok r' ->
  find_class r (normalize name) = None /\
  find_defined_type r (normalize name) = None /\
  _classes r' = _classes r /\
  _defined_types r'
  = <[normalize name := {| defined_type_name := normalize name;
                           defined_type_statement := statement |}]>
      (_defined_types r).
Proof.
  unfold scan_defined_type.
  destruct (find_defined_type r (normalize name)) eqn:Hd; [discriminate |].
  destruct (find_class r (normalize name)) eqn:Hc; [discriminate |].
  destruct (check_resource_type describe (name_value statement) (normalize name)
              "defined type" r) as [r1 |] eqn:Hcheck; [| discriminate].
  cbn [bind]. intros [= <-].
  destruct (check_resource_type_keeps _ _ _ _ _ Hcheck) as [Hclasses Hdefined].
  unfold find_defined_type in Hd. cbn. unfold emplace. cbn.
  rewrite Hdefined, Hd. auto.
Qed.

(** X16. A name that was scanned as a class cannot be scanned again, as a
    class or as a defined type, under any spelling that normalizes to the
    same name; the error names the first definition.  The same holds of a
    name that was scanned as a defined type. *)
Theorem definition_names_are_unique name statement r r' again statement' :
  normalize again = normalize name ->
  (scan_class describe name statement r = Ok r' ->
   let first := {| klass_name := normalize name; klass_statement := statement |} in
   scan_class describe again statement' r' = Raise (class_previously_defined first) /\
   scan_defined_type describe again statement' r'
   = Raise (previously_defined_as_class first)) /\
  (scan_defined_type describe name statement r = Ok r' ->
   let first := {| defined_type_name := normalize name;
                   defined_type_statement := statement |} in
   scan_defined_type describe again statement' r'
   = Raise (defined_type_previously_defined first) /\
   scan_class describe again statement' r'
   = Raise (previously_defined_as_defined_type first)).
Proof.
  intros Hsame. split.
  - intros Hscan. cbv zeta.
    destruct (scan_class_ok name statement r r' Hscan) as (_ & Hd & Hdefined & Hclasses).
    unfold scan_class, scan_defined_type, find_class, find_defined_type.
    rewrite Hsame, Hclasses, Hdefined, lookup_insert_eq.
    unfold find_defined_type in Hd. rewrite Hd. split; reflexivity.
  - intros Hscan. cbv zeta.
    destruct (scan_defined_type_ok name statement r r' Hscan)
      as (Hc & _ & Hclasses & Hdefined).
    unfold scan_class, scan_defined_type, find_class, find_defined_type.
    rewrite Hsame, Hclasses, Hdefined, lookup_insert_eq.
    unfold find_class in Hc. rewrite Hc. split; reflexivity.
Qed.

(** X17. In a registry the scanner has built, no name is both a class
    and a defined type, and every class and every defined type is kept
    under its own name, which is in lower case. *)
Theorem scanned_names_are_disjoint r :
  scanned describe r ->
  (forall name, find_class r name = None \/ find_defined_type r name = None) /\
  (forall name k, find_class r name = Some k ->
     klass_name k = name /\ Node.to_lower name = name) /\
  (forall name d, find_defined_type r name = Some d ->
     defined_type_name d = name /\ Node.to_lower name = name).
Proof.
  induction 1 as [| name statement r r' _ IH Hscan | name statement r r' _ IH Hscan].
  - unfold find_class, find_defined_type. cbn.
    split; [intros name; left; apply lookup_empty |].
    split; intros name x H; rewrite lookup_empty in H; discriminate.
  - destruct IH as (Hdisjoint & Hclass & Hdefined).
    destruct (scan_class_ok name statement r r' Hscan) as (Hc & Hd & Hdt & Hcl).
    unfold find_class, find_defined_type in *. rewrite Hcl, Hdt. repeat split.
    + intros key. destruct (decide (key = normalize name)) as [-> | Hne]; [auto |].
      rewrite lookup_insert_ne by congruence. apply Hdisjoint.
    + destruct (decide (name0 = normalize name)) as [-> | Hne].
      * rewrite lookup_insert_eq in H. injection H as <-. reflexivity.
      * rewrite lookup_insert_ne in H by congruence. apply (Hclass _ _ H).
    + destruct (decide (name0 = normalize name)) as [-> | Hne].
      * apply normalize_lower.
      * rewrite lookup_insert_ne in H by congruence. apply (Hclass _ _ H).
    + apply (Hdefined _ _ H).
    + apply (Hdefined _ _ H).
  - destruct IH as (Hdisjoint & Hclass & Hdefined).
    destruct (scan_defined_type_ok name statement r r' Hscan) as (Hc & Hd & Hcl & Hdt).
    unfold find_class, find_defined_type in *. rewrite Hcl, Hdt. repeat split.
    + intros key. destruct (decide (key = normalize name)) as [-> | Hne]; [auto |].
      rewrite lookup_insert_ne by congruence. apply Hdisjoint.
    + apply (Hclass _ _ H).
    + apply (Hclass _ _ H).
    + destruct (decide (name0 = normalize name)) as [-> | Hne].
      * rewrite lookup_insert_eq in H. injection H as <-. reflexivity.
      * rewrite lookup_insert_ne in H by congruence. apply (Hdefined _ _ H).
    + destruct (decide (name0 = normalize name)) as [-> | Hne].
      * apply normalize_lower.
      * rewrite lookup_insert_ne in H by congruence. apply (Hdefined _ _ H).
Qed.

End ScannerFacts.

Section ScannerExamples.
Import Evaluation Scanner.
Local Open Scope string_scope.

Lemma definition_names_are_unique_witness :
  scan_class None "foo" {| name_value := "foo"; place := 7 |} one_class
  = Raise (class_previously_defined
             {| klass_name := "foo"; klass_statement := class_foo |}) /\
  scan_defined_type None "foo" {| name_value := "foo"; place := 7 |} one_class
  = Raise (previously_defined_as_class
             {| klass_name := "foo"; klass_statement := class_foo |}).
Proof.
  apply (proj1 (definition_names_are_unique None "::Foo" class_foo empty one_class
                  "foo" {| name_value := "foo"; place := 7 |} eq_refl)).
  vm_compute. reflexivity.
Defined.

Lemma scanned_names_are_disjoint_witness :
  (forall name, find_class one_class name = None \/ find_defined_type one_class name = None) /\
  (forall name k, find_class one_class name = Some k ->
     klass_name k = name /\ Node.to_lower name = name) /\
  (forall name d, find_defined_type one_class name = Some d ->
     defined_type_name d = name /\ Node.to_lower name = name).
Proof.
  apply (scanned_names_are_disjoint None one_class).
  apply (scanned_class None "::Foo" class_foo empty one_class).
  - apply scanned_empty.
  - vm_compute. reflexivity.
Defined.

End ScannerExamples.

Section ScopeFacts.
Import Evaluation Scopes.
Context {defined_type collector resource_relationship : Type}.
Abbreviation sctx := (@context defined_type collector resource_relationship).
Local Open Scope nat_scope.

Lemma first_matches_snoc (stack : list (option (list value))) top :
  first_matches (rev (stack ++ [top]))
  = match top with
    | Some matches => Some matches
    | None => first_matches (rev stack)
    end.
Proof. rewrite rev_app_distr. destruct top; reflexivity. Qed.

Lemma lookup_map {A B} (f : A -> B) (l : list A) i : map f l !! i = f <$> l !! i.
Proof.
  revert i. induction l as [| x l IH]; intros [| i]; cbn; auto.
Qed.

Lemma enter_leave (ctx : sctx) frame stack :
  pop_match_scope
    (pop_frame
       (with_match_stack
          (with_call_stack (push_match_scope ctx) (_call_stack ctx ++ [frame]))
          (_match_stack ctx ++ [stack])))
  = ctx.
Proof.
  destruct ctx. unfold pop_match_scope, pop_frame, push_match_scope,
    with_match_stack, with_call_stack. cbn.
  rewrite !removelast_last. reflexivity.
Qed.

Lemma scoped_stack_frame_enters {A} frame (body : action_ A) (ctx : sctx) :
  length (_call_stack ctx) <= MAX_STACK_DEPTH ->
  scoped_stack_frame frame body ctx
  = in_state (fun c => pop_match_scope (pop_frame c))
             (body (with_call_stack (push_match_scope ctx)
                                    (_call_stack ctx ++ [frame]))).
Proof.
  intros Hdepth. unfold scoped_stack_frame.
  replace (MAX_STACK_DEPTH <? length (_call_stack (push_match_scope ctx))) with false
    by (symmetry; apply Nat.ltb_ge; exact Hdepth).
  destruct (body _); reflexivity.
Qed.

(** X18. Match variables are scoped: the captures a match sets are the
    ones [lookup] answers; a new match scope shows the variables of the
    enclosing scope until a match sets its own; and what a match sets
    inside a stack frame is gone when the frame ends. *)
Theorem match_variables_are_scoped (ctx : sctx) captures frame :
  (_match_stack ctx <> [] ->
   forall i, lookup (set_captures captures ctx) i = v_string <$> captures !! i) /\
  (forall i, lookup (push_match_scope ctx) i = lookup ctx i) /\
  (length (_call_stack ctx) <= MAX_STACK_DEPTH ->
   scoped_stack_frame frame (matching captures) ctx = Done tt ctx).
Proof.
  repeat split.
  - intros Hne i. unfold lookup, set_captures.
    destruct (_match_stack ctx) as [| top rest] eqn:Hstack; [congruence |].
    cbn [_match_stack with_match_stack].
    rewrite first_matches_snoc. apply lookup_map.
  - intros i. unfold lookup, push_match_scope. cbn [_match_stack with_match_stack].
    rewrite first_matches_snoc. reflexivity.
  - intros Hdepth. rewrite scoped_stack_frame_enters by exact Hdepth.
    unfold matching, set_captures. cbn [in_state _match_stack with_call_stack
                                         push_match_scope with_match_stack].
    destruct (_match_stack ctx ++ [None])%list as [| top rest] eqn:Hstack.
    { destruct (_match_stack ctx); discriminate. }
    rewrite <- Hstack, removelast_last. f_equal.
    exact (enter_leave ctx frame (Some (map v_string captures))).
Qed.

Lemma lookup_before_last {A} (l : list A) y x :
  ((l ++ [y]) ++ [x]) !! (length ((l ++ [y]) ++ [x]) - 2) = Some y.
Proof.
  rewrite !length_app. cbn [length].
  replace (length l + 1 + 1 - 2) with (length l) by lia.
  rewrite <- app_assoc. rewrite lookup_app_r by lia.
  rewrite Nat.sub_diag. reflexivity.
Qed.

(** X19. Inside a stack frame the current scope is the scope of the
    frame, and the calling scope is the scope that was current where the
    frame was pushed; a frame pushed on an empty call stack has no calling
    scope. *)
Theorem scopes_follow_frames (ctx : sctx) frame s :
  length (_call_stack ctx) <= MAX_STACK_DEPTH ->
  frame_scope frame = Some s ->
  scoped_stack_frame frame current_scope ctx = Done s ctx /\
  (forall outer, current_scope ctx = Done outer ctx ->
     scoped_stack_frame frame calling_scope ctx = Done outer ctx) /\
  (_call_stack ctx = [] ->
   is_done (scoped_stack_frame frame calling_scope ctx) = false).
Proof.
  intros Hdepth Hscope.
  pose proof (enter_leave ctx frame None) as Hleave.
  assert (Hpushed : with_match_stack
                      (with_call_stack (push_match_scope ctx) (_call_stack ctx ++ [frame]))
                      (_match_stack ctx ++ [None])
                    = with_call_stack (push_match_scope ctx) (_call_stack ctx ++ [frame])).
  { reflexivity. }
  rewrite Hpushed in Hleave. clear Hpushed.
  repeat split.
  - rewrite scoped_stack_frame_enters by exact Hdepth.
    unfold current_scope. cbn [_call_stack with_call_stack].
    rewrite last_snoc, Hscope. cbn [in_state]. rewrite Hleave. reflexivity.
  - intros outer Houter. rewrite scoped_stack_frame_enters by exact Hdepth.
    unfold current_scope in Houter. unfold calling_scope.
    cbn [_call_stack with_call_stack].
    destruct (last (_call_stack ctx)) as [back |] eqn:Hlast; [| discriminate].
    destruct (frame_scope back) as [s' |] eqn:Hback; [| discriminate].
    injection Houter as <-.
    apply last_Some in Hlast. destruct Hlast as [below Hstack].
    rewrite Hstack, lookup_before_last, Hback.
    replace (2 <=? length ((below ++ [back]) ++ [frame])) with true
      by (symmetry; apply Nat.leb_le; rewrite !length_app; cbn; lia).
    cbn [in_state]. rewrite <- Hstack, Hleave. reflexivity.
  - intros Hempty. rewrite scoped_stack_frame_enters by exact Hdepth.
    unfold calling_scope. cbn [_call_stack with_call_stack]. rewrite Hempty.
    reflexivity.
Qed.

End ScopeFacts.

Section ScopeExamples.
Import Evaluation Scopes.
Local Open Scope string_scope.
Local Open Scope nat_scope.

Lemma match_variables_are_scoped_witness :
  lookup (set_captures ["abc"; "b"] matched_context) 1 = Some (v_string "b") /\
  scoped_stack_frame main_frame (matching ["abc"; "b"]) matched_context
  = Done tt matched_context.
Proof.
  destruct (match_variables_are_scoped matched_context ["abc"; "b"] main_frame)
    as (Hset & _ & Hframe).
  split.
  - apply (Hset ltac:(discriminate) 1).
  - apply Hframe. cbn. unfold MAX_STACK_DEPTH. lia.
Defined.

Lemma scopes_follow_frames_witness :
  scoped_stack_frame main_frame current_scope matched_context
  = Done (Scope None None) matched_context /\
  scoped_stack_frame main_frame calling_scope matched_context
  = Done (Scope None None) matched_context.
Proof.
  destruct (scopes_follow_frames matched_context main_frame (Scope None None))
    as (Hcurrent & Hcalling & _).
  - cbn. unfold MAX_STACK_DEPTH. lia.
  - reflexivity.
  - split; [exact Hcurrent | apply Hcalling; reflexivity].
Defined.

End ScopeExamples.

Section OverrideStore.
Import Evaluation Scopes.
Context {defined_type collector resource_relationship : Type}.
Abbreviation vctx := (@context defined_type collector resource_relationship).
Local Open Scope nat_scope.

Lemma evaluate_override_with_overrides o (ctx : vctx) l :
  evaluate_override o (with_overrides ctx l)
  = in_state (fun c => with_overrides c l) (evaluate_override o ctx).
Proof.
  unfold evaluate_override, throw, backtrace. cbn [_catalog with_overrides _call_stack].
  destruct (_catalog ctx) as [c |]; [| reflexivity].
  destruct (find c (override_type o)) as [index |]; [| reflexivity].
  destruct (resources c !! index) as [r |]; [| reflexivity].
  destruct (override_attributes o) as [| a rest]; [reflexivity |].
  destruct (if may_override o r then None else conflict r (a :: rest))
    as [[[oper a'] previous] |]; reflexivity.
Qed.

Lemma evaluate_override_but_catalog o (ctx : vctx) :
  forall c, with_catalog (state_of (evaluate_override o ctx)) c = with_catalog ctx c.
Proof.
  intros c0. unfold evaluate_override, throw.
  destruct (_catalog ctx) as [c |]; [| reflexivity].
  destruct (find c (override_type o)) as [index |]; [| reflexivity].
  destruct (resources c !! index) as [r |]; [| reflexivity].
  destruct (override_attributes o) as [| a rest]; [reflexivity |].
  destruct (if may_override o r then None else conflict r (a :: rest))
    as [[[oper a'] previous] |]; reflexivity.
Qed.

Lemma evaluate_each_with_overrides l : forall (ctx : vctx) l',
  evaluate_each_override l (with_overrides ctx l')
  = in_state (fun c => with_overrides c l') (evaluate_each_override l ctx).
Proof.
  induction l as [| [ty o] rest IH]; intros ctx l'; cbn; [reflexivity |].
  unfold and_then. rewrite evaluate_override_with_overrides.
  destruct (evaluate_override o ctx) as [[] ctx1 | e ctx1]; cbn; [apply IH | reflexivity].
Qed.

Lemma with_catalog_twice (ctx : vctx) c1 c2 :
  with_catalog (with_catalog ctx c1) c2 = with_catalog ctx c2.
Proof. reflexivity. Qed.

Lemma but_catalog_trans (a b d : vctx) :
  (forall c, with_catalog b c = with_catalog a c) ->
  (forall c, with_catalog d c = with_catalog b c) ->
  forall c, with_catalog d c = with_catalog a c.
Proof. intros H1 H2 c. rewrite H2. apply H1. Qed.

Lemma evaluate_each_but_catalog l : forall (ctx : vctx) c,
  with_catalog (state_of (evaluate_each_override l ctx)) c = with_catalog ctx c.
Proof.
  induction l as [| [ty o] rest IH]; intros ctx c; cbn; [reflexivity |].
  unfold and_then.
  pose proof (evaluate_override_but_catalog o ctx) as Hstep.
  destruct (evaluate_override o ctx) as [[] ctx1 | e ctx1]; cbn in *.
  - rewrite IH. apply Hstep.
  - apply Hstep.
Qed.

Lemma but_catalog_overrides (a b : vctx) :
  (forall c, with_catalog b c = with_catalog a c) -> _overrides b = _overrides a.
Proof.
  intros H. pose proof (H {| resources := []; edges := [] |}) as H0.
  apply (f_equal _overrides) in H0. exact H0.
Qed.

Lemma evaluate_each_app l1 l2 (ctx : vctx) :
  evaluate_each_override (l1 ++ l2) ctx
  = and_then (evaluate_each_override l1) (fun _ => evaluate_each_override l2) ctx.
Proof.
  revert ctx. induction l1 as [| [ty o] rest IH]; intros ctx; cbn; [reflexivity |].
  unfold and_then in *. destruct (evaluate_override o ctx) as [[] ctx1 | e ctx1];
    [apply IH | reflexivity].
Qed.

(** [evaluate_overrides], as the evaluation of the overrides of the type
    followed by their removal. *)
Lemma evaluate_overrides_steps ty (ctx : vctx) c :
  _catalog ctx = Some c ->
  evaluate_overrides ty ctx
  = match evaluate_each_override (List.filter (for_type ty) (_overrides ctx)) ctx with
    | Done _ ctx' =>
        Done tt (with_overrides ctx' (List.filter (others ty) (_overrides ctx')))
    | Thrown e ctx' => Thrown e ctx'
    end.
Proof.
  intros Hc. unfold evaluate_overrides, and_then, the_catalog. rewrite Hc.
  reflexivity.
Qed.

(** X20. [evaluate_overrides] changes the catalog and the stored
    overrides only: when it ends, the overrides stored for the resource
    are erased and the others are kept; when it raises an error, every
    stored override is still stored, those that were applied too. *)
Theorem evaluate_overrides_erases ty (ctx : vctx) :
  (forall ctx', evaluate_overrides ty ctx = Done tt ctx' ->
     forall c,
       with_catalog ctx' c
       = with_catalog
           (with_overrides ctx
              (List.filter (fun kvp => negb (bool_decide (fst kvp = ty))) (_overrides ctx)))
           c) /\
  (forall e ctx', evaluate_overrides ty ctx = Thrown e ctx' ->
     forall c, with_catalog ctx' c = with_catalog ctx c).
Proof.
  destruct (_catalog ctx) as [c0 |] eqn:Hc.
  - rewrite (evaluate_overrides_steps ty ctx c0 Hc).
    pose proof (evaluate_each_but_catalog
                  (List.filter (for_type ty) (_overrides ctx)) ctx) as Hstate.
    destruct (evaluate_each_override _ ctx) as [[] ctx1 | e1 ctx1]; cbn in Hstate; split.
    + intros ctx' [= <-] c.
      rewrite (but_catalog_overrides ctx ctx1 Hstate).
      change (with_catalog (with_overrides ctx1 ?l) c)
        with (with_overrides (with_catalog ctx1 c) l).
      rewrite Hstate. reflexivity.
    + discriminate.
    + discriminate.
    + intros e ctx' [= _ <-]. exact Hstate.
  - unfold evaluate_overrides, and_then, the_catalog, throw. rewrite Hc. split.
    + discriminate.
    + intros e ctx' [= _ <-] c. reflexivity.
Qed.

Lemma filter_all {X} (f : X -> bool) l : Forall (fun x => f x = true) l -> List.filter f l = l.
Proof.
  induction 1 as [| x l Hx _ IH]; [reflexivity |]. cbn. now rewrite Hx, IH.
Qed.

Lemma filter_none {X} (f : X -> bool) l : Forall (fun x => f x = false) l -> List.filter f l = [].
Proof.
  induction 1 as [| x l Hx _ IH]; [reflexivity |]. cbn. now rewrite Hx, IH.
Qed.

Context (bucket_begin : resource_type -> list (resource_type * resource_override) -> nat).

(** The overrides of one resource are met last-added first: the new
    pair comes in front of the pairs of its key, and the pairs of the other
    keys keep their order. *)
Lemma insert_override_front ty o (l : list (resource_type * resource_override)) :
  List.filter (for_type ty) (insert_override bucket_begin (ty, o) l)
  = (ty, o) :: List.filter (for_type ty) l /\
  List.filter (others ty) (insert_override bucket_begin (ty, o) l)
  = List.filter (others ty) l.
Proof.
  unfold insert_override. cbn [fst].
  set (place := match list_find _ l with
                | Some (first_equal, _) => first_equal
                | None => bucket_begin ty l
                end).
  assert (Hbefore : Forall (fun kvp => for_type ty kvp = false) (take place l)).
  { apply Forall_lookup. intros j kvp Hj. unfold for_type.
    apply bool_decide_eq_false_2. subst place.
    destruct (list_find (fun other => fst other = ty) l) as [[i x]|] eqn:Hfind.
    - apply list_find_Some in Hfind. destruct Hfind as (_ & _ & Hfirst).
      apply lookup_take_Some in Hj. destruct Hj as [Hj Hlt]. eapply Hfirst; eassumption.
    - apply list_find_None in Hfind. apply lookup_take_Some in Hj.
      eapply Forall_lookup_1 in Hfind; [exact Hfind | apply Hj]. }
  assert (Hfor : List.filter (for_type ty) l = List.filter (for_type ty) (drop place l)).
  { rewrite <- (take_drop place l) at 1.
    now rewrite List.filter_app, (filter_none _ _ Hbefore). }
  assert (Hothers : List.filter (others ty) l
                    = (List.filter (others ty) (take place l)
                       ++ List.filter (others ty) (drop place l))%list).
  { rewrite <- (take_drop place l) at 1. apply List.filter_app. }
  rewrite Hfor, Hothers, !List.filter_app. cbn [List.filter].
  unfold for_type at 2, others at 2. cbn [fst].
  rewrite bool_decide_eq_true_2 by reflexivity. cbn [negb].
  rewrite (filter_none _ _ Hbefore). split; reflexivity.
Qed.

(** The first override stored for a resource is the only one its
    [equal_range] holds, and erasing it gives the container back. *)
Lemma insert_override_alone ty o (l : list (resource_type * resource_override)) :
  Forall (fun kvp => fst kvp <> ty) l ->
  List.filter (for_type ty) l = [] /\
  List.filter (others ty) l = l /\
  List.filter (for_type ty) (insert_override bucket_begin (ty, o) l) = [(ty, o)] /\
  List.filter (others ty) (insert_override bucket_begin (ty, o) l) = l.
Proof.
  intros Hnone.
  assert (Hfor : List.filter (for_type ty) l = []).
  { apply filter_none. eapply List.Forall_impl; [| exact Hnone].
    intros kvp Hk. unfold for_type. now apply bool_decide_eq_false_2. }
  assert (Hothers : List.filter (others ty) l = l).
  { apply filter_all. eapply List.Forall_impl; [| exact Hnone].
    intros kvp Hk. unfold others. now rewrite bool_decide_eq_false_2. }
  destruct (insert_override_front ty o l) as [-> ->].
  rewrite Hfor, Hothers. auto.
Qed.

(** The override is stored, the resource is declared, and the overrides
    of the resource are evaluated. *)
Lemma deferred_steps o (ctx : vctx) c c' :
  _catalog ctx = Some c -> find c (override_type o) = None ->
  Forall (fun kvp => fst kvp <> override_type o) (_overrides ctx) ->
  and_then (add_override bucket_begin o)
           (fun _ ctx1 => evaluate_overrides (override_type o) (with_catalog ctx1 c')) ctx
  = match evaluate_override o (with_catalog ctx c') with
    | Thrown e b =>
        Thrown e (with_overrides b
                    (insert_override bucket_begin (override_type o, o) (_overrides ctx)))
    | Done _ b => Done tt (with_overrides b (_overrides ctx))
    end.
Proof.
  intros Hc Hfind Hnone.
  destruct (insert_override_alone (override_type o) o (_overrides ctx) Hnone)
    as (_ & _ & Hfor & Hothers).
  unfold and_then at 1. unfold add_override, and_then at 1, the_catalog.
  rewrite Hc, Hfind.
  rewrite (evaluate_overrides_steps _ _ c') by reflexivity.
  cbn [_overrides with_catalog with_overrides]. rewrite Hfor.
  change (with_catalog (with_overrides ctx ?l) c') with (with_overrides (with_catalog ctx c') l).
  cbn [evaluate_each_override]. unfold and_then, ret.
  rewrite evaluate_override_with_overrides.
  destruct (evaluate_override o (with_catalog ctx c')) as [[] b | e b]; cbn [in_state];
    [| reflexivity].
  cbn [_overrides with_overrides]. rewrite Hothers. reflexivity.
Qed.

(** The resource is declared, and the override is added. *)
Lemma immediate_steps o (ctx : vctx) c' :
  is_Some (find c' (override_type o)) ->
  Forall (fun kvp => fst kvp <> override_type o) (_overrides ctx) ->
  add_override bucket_begin o (with_catalog ctx c')
  = in_state (fun b => with_overrides b (_overrides ctx))
             (evaluate_override o (with_catalog ctx c')).
Proof.
  intros [index Hfind] Hnone.
  destruct (insert_override_alone (override_type o) o (_overrides ctx) Hnone)
    as (Hfor & Hothers & _).
  unfold add_override, and_then at 1, the_catalog.
  cbn [_catalog with_catalog]. rewrite Hfind.
  unfold and_then. rewrite (evaluate_overrides_steps _ _ c') by reflexivity.
  cbn [_overrides with_catalog]. rewrite Hfor. cbn [evaluate_each_override]. unfold ret.
  cbn [_overrides with_catalog]. rewrite Hothers.
  apply evaluate_override_with_overrides.
Qed.

(** X21. An override that is added before its resource is declared, and
    evaluated once the resource is, ends in the same state as the override
    added after the declaration, when no other override is stored for the
    resource, wherever the container puts the new pair. *)
Theorem deferred_override_is_immediate o (ctx : vctx) c c' final :
  _catalog ctx = Some c ->
  find c (override_type o) = None ->
  is_Some (find c' (override_type o)) ->
  Forall (fun kvp => fst kvp <> override_type o) (_overrides ctx) ->
  and_then (add_override bucket_begin o)
           (fun _ ctx1 => evaluate_overrides (override_type o) (with_catalog ctx1 c')) ctx
  = Done tt final
  <-> add_override bucket_begin o (with_catalog ctx c') = Done tt final.
Proof.
  intros Hc Hnone Hsome Halone.
  rewrite (deferred_steps o ctx c c' Hc Hnone Halone),
          (immediate_steps o ctx c' Hsome Halone).
  destruct (evaluate_override o (with_catalog ctx c')) as [[] b | e b]; cbn [in_state];
    [tauto | split; discriminate].
Qed.

End OverrideStore.

Section OverrideStoreExamples.
Import Evaluation Scopes.
Local Open Scope string_scope.
Local Open Scope nat_scope.

(** The new pair is linked at the head of the container, the place
    libstdc++ gives the first pair of a key whose bucket is empty. *)
Lemma deferred_override_is_immediate_witness :
  exists final,
    add_override (fun _ _ => 0) sample_override
                 (with_catalog initial_context catalog_with_file)
    = Done tt final /\
    and_then (add_override (fun _ _ => 0) sample_override)
             (fun _ ctx1 => evaluate_overrides (override_type sample_override)
                              (with_catalog ctx1 catalog_with_file))
             initial_context
    = Done tt final.
Proof.
  eexists. split.
  - vm_compute. reflexivity.
  - apply (deferred_override_is_immediate (fun _ _ => 0)
             sample_override initial_context
             {| resources := [main_stage]; edges := [] |} catalog_with_file).
    + reflexivity.
    + reflexivity.
    + exists 1. reflexivity.
    + constructor.
    + vm_compute. reflexivity.
Defined.

End OverrideStoreExamples.

Section FormatMapEntries.
Import FormatMap.
Context {rt : Runtime}.

Lemma formats_of_valid allow_hash entries : forall formats,
  formats_of allow_hash entries = Ok formats ->
  length formats = length entries /\
  Forall (fun entry =>
            is_Some (as_type (fst entry)) /\
            (is_Some (as_string (snd entry)) \/
             (allow_hash = true /\ is_Some (as_hash (snd entry))))) entries.
Proof.
  induction entries as [| [key val] rest IH]; intros formats H; cbn in H.
  - injection H as <-. split; [reflexivity | constructor].
  - destruct (as_type key) as [ty |] eqn:Hkey; [| discriminate].
    destruct (if allow_hash then as_hash val else None) as [h |] eqn:Hhash.
    + destruct (format_of_hash h) as [f |]; [| discriminate]. cbn [bind] in H.
      destruct (formats_of allow_hash rest) as [others |]; [| discriminate].
      cbn [bind] in H. injection H as <-.
      destruct (IH others eq_refl) as [Hlen Hall].
      split; [cbn; congruence |]. constructor; [| exact Hall].
      cbn. rewrite Hkey. split; [eauto |]. right.
      destruct allow_hash; [| discriminate]. rewrite Hhash. eauto.
    + destruct (as_string val) as [str |] eqn:Hstr; [| discriminate].
      destruct (format_of_string str) as [f |]; [| discriminate]. cbn [bind] in H.
      destruct (formats_of allow_hash rest) as [others |]; [| discriminate].
      cbn [bind] in H. injection H as <-.
      destruct (IH others eq_refl) as [Hlen Hall].
      split; [cbn; congruence |]. constructor; [| exact Hall].
      cbn. rewrite Hkey, Hstr. split; [eauto | left; eauto].
Qed.

(** The first entry whose key is not a type decides the error, when the
    entries before it are accepted. *)
Lemma formats_of_bad_key allow_hash entries :
  Exists (fun entry => as_type (fst entry) = None) entries ->
  is_raise (formats_of allow_hash entries) = true.
Proof.
  intros Hbad.
  destruct (formats_of allow_hash entries) as [formats |] eqn:H; [| reflexivity].
  destruct (formats_of_valid allow_hash entries formats H) as [_ Hall].
  exfalso. apply List.Exists_exists in Hbad. destruct Hbad as (entry & Hin & Hnone).
  rewrite List.Forall_forall in Hall. destruct (Hall entry Hin) as [[ty Hty] _].
  congruence.
Qed.

Lemma insertion_sort_permutation {A} (less : A -> A -> bool) l : forall acc,
  Permutation (fold_left (linear_insert less) l acc) (acc ++ l).
Proof.
  induction l as [| x rest IH]; intros acc; cbn.
  - rewrite app_nil_r. reflexivity.
  - rewrite IH. rewrite linear_insert_permutation.
    rewrite <- app_assoc. reflexivity.
Qed.

Lemma find_format_none formats v :
  find_format formats v = None <->
  Forall (fun entry => is_instance (fst entry) v = false) formats.
Proof.
  unfold find_format. split.
  - intros H. destruct (List.find _ formats) eqn:Hfind; [discriminate |].
    apply List.Forall_forall. intros entry Hin.
    apply (find_none _ _ Hfind entry Hin).
  - intros Hall. rewrite find_none_all; [reflexivity | exact Hall].
Qed.

(** X22. The constructor accepts a hash only if every key is a type and
    every value is a string, or a hash where hashes are allowed; it keeps
    one format for each entry, and, with the sort of libstdc++, the formats
    it keeps are those of the entries whatever the comparison answers: a
    value finds a format exactly when an entry has a type the value is an
    instance of. *)
Theorem format_map_keeps_entries entries allow_hash formats :
  format_map (sorting := libstdcxx) entries allow_hash = Ok formats ->
  Forall (fun entry =>
            is_Some (as_type (fst entry)) /\
            (is_Some (as_string (snd entry)) \/
             (allow_hash = true /\ is_Some (as_hash (snd entry))))) entries /\
  length formats = length entries /\
  exists unsorted,
    formats_of allow_hash entries = Ok unsorted /\
    Permutation formats unsorted /\
    forall v, find_format formats v = None <->
              Forall (fun entry => is_instance (fst entry) v = false) unsorted.
Proof.
  unfold format_map. intros H.
  destruct (formats_of allow_hash entries) as [unsorted |] eqn:Hformats; [| discriminate].
  cbn in H. injection H as <-.
  destruct (formats_of_valid allow_hash entries unsorted Hformats) as [Hlen Hall].
  assert (Hperm : Permutation (insertion_sort less unsorted) unsorted).
  { unfold insertion_sort. apply (insertion_sort_permutation less unsorted []). }
  split; [exact Hall |]. split.
  - rewrite <- Hlen. apply Permutation_length. exact Hperm.
  - exists unsorted. split; [reflexivity |]. split; [exact Hperm |].
    intros v. rewrite find_format_none. split; apply Permutation_Forall.
    + exact Hperm.
    + symmetry. exact Hperm.
Qed.

(** X23. A hash that holds a key that is not a type is refused, whatever
    its other entries and whatever the sort. *)
Theorem format_map_needs_type_keys {sorting : Sorting} entries allow_hash key val :
  In (key, val) entries -> as_type key = None ->
  is_raise (format_map entries allow_hash) = true.
Proof.
  intros Hin Hkey. unfold format_map.
  pose proof (formats_of_bad_key allow_hash entries) as Hbad.
  destruct (formats_of allow_hash entries) as [formats |]; [| reflexivity].
  cbn in Hbad. exfalso.
  assert (false = true); [| discriminate].
  apply Hbad. apply List.Exists_exists. exists (key, val). split; [exact Hin | exact Hkey].
Qed.

(** X24. When the comparison of the constructor is a strict weak order
    on the types of the keys and [std::sort] does what the standard
    promises, the formats are those of the entries, and no format comes
    after the format of a strictly more general type; of two types that are
    tied, the one of lower rank comes first. *)
Theorem format_map_sorted_by_generality {sorting : Sorting} entries allow_hash formats :
  meets_contract sorting ->
  strict_weak_order less ->
  format_map entries allow_hash = Ok formats ->
  (exists unsorted, formats_of allow_hash entries = Ok unsorted /\
                    Permutation formats unsorted) /\
  (forall i j a b, (i < j)%nat -> formats !! i = Some a -> formats !! j = Some b ->
     ~ more_general (fst a) (fst b) /\
     (tied (fst a) (fst b) ->
      (get_type_rank (kind (fst a)) <= get_type_rank (kind (fst b)))%N)).
Proof. apply format_map_order. Qed.

End FormatMapEntries.

Section ClassFormatFacts.
Import FormatMap ClassFormats.
Local Open Scope string_scope.

Lemma class_less (a b : string * string) :
  less (rt := class_runtime) a b
  = negb (is_empty (fst a)) && is_empty (fst b).
Proof.
  unfold less, is_assignable, kind, class_runtime, source_assignable, is_empty.
  cbn.
  destruct (String.eqb_spec (fst a) ""), (String.eqb_spec (fst b) ""),
    (String.eqb_spec (fst a) (fst b)), (String.eqb_spec (fst b) (fst a));
    cbn; try reflexivity; congruence.
Qed.

Lemma class_less_order : strict_weak_order (less (rt := class_runtime)).
Proof.
  unfold strict_weak_order. split; [| split].
  - intros a. rewrite class_less.
    repeat match goal with |- context [is_empty ?x] => destruct (is_empty x) end;
      reflexivity.
  - intros a b c. rewrite !class_less.
    repeat match goal with |- context [is_empty ?x] => destruct (is_empty x) end;
      cbn; congruence.
  - intros a b c. rewrite !class_less.
    repeat match goal with |- context [is_empty ?x] => destruct (is_empty x) end;
      cbn; intros; split; congruence.
Qed.

Lemma format_map_keeps_entries_witness :
  length [(Class_ "foo", "%d"); (Class_ "", "%p")] = length two_class_formats.
Proof.
  apply (format_map_keeps_entries (rt := source_runtime) two_class_formats true
           [(Class_ "foo", "%d"); (Class_ "", "%p")]).
  reflexivity.
Defined.

Lemma format_map_needs_type_keys_witness :
  is_raise (format_map (rt := source_runtime)
              [(a_type (Class_ ""), a_string "%p"); (a_string "wrong", a_string "%d")]
              false) = true.
Proof.
  apply (format_map_needs_type_keys (rt := source_runtime) _ false
           (a_string "wrong") (a_string "%d")).
  - right. left. reflexivity.
  - reflexivity.
Defined.

Lemma format_map_sorted_by_generality_witness :
  ~ more_general (rt := class_runtime) "foo" "" /\
  format_map (rt := class_runtime) two_class_formats true
  = Ok [("foo", "%d"); ("", "%p")].
Proof.
  split; [| reflexivity].
  destruct (format_map_sorted_by_generality
              (rt := class_runtime) two_class_formats true [("foo", "%d"); ("", "%p")]
              libstdcxx_meets_contract class_less_order eq_refl) as [_ Horder].
  apply (Horder 0%nat 1%nat ("foo", "%d") ("", "%p")); [lia | reflexivity | reflexivity].
Defined.

End ClassFormatFacts.

Section ExtractFacts.
Import Lexer.
Local Open Scope nat_scope.

(** Takes the equation [H] about one turn of [extract_string_from] apart,
    branch by branch. *)
Ltac turn H :=
  repeat first
    [ discriminate H
    | match type of H with
      | bind ?x _ = _ =>
          let E := fresh "E" in destruct x eqn:E; cbn [bind] in H
      | (if ?b then _ else _) = _ =>
          let B := fresh "B" in destruct b eqn:B
      | match ?x with _ => _ end = _ =>
          let T := fresh "T" in destruct x eqn:T
      end ].

Lemma extract_from_length escapes margin s : forall skip current out,
  extract_string_from escapes margin skip current s = Ok out ->
  length out <= length s.
Proof.
  induction s as [| c rest IH]; intros skip current out H.
  - injection H as <-. reflexivity.
  - cbn [extract_string_from] in H. cbv zeta in H. cbn [length].
    destruct skip as [| skip'].
    + turn H; try (injection H as <-); cbn [length];
        repeat match goal with
               | E : extract_string_from _ _ _ _ rest = Ok _ |- _ => apply IH in E
               end; lia.
    + apply IH in H. lia.
Qed.

Lemma extract_from_raise escapes margin s : forall skip current e,
  extract_string_from escapes margin skip current s = Raise e ->
  e = unicode_escapes_not_supported /\ contains "u" escapes = true.
Proof.
  induction s as [| c rest IH]; intros skip current e H.
  - discriminate.
  - cbn [extract_string_from] in H. cbv zeta in H.
    destruct skip as [| skip'].
    + turn H; try (injection H as <-);
        try match goal with
            | E : extract_string_from _ _ _ _ rest = Raise _ |- _ =>
                apply IH in E; exact E
            end;
        try (apply IH in H; exact H).
      split; [reflexivity |].
      match goal with
      | B : Ascii.eqb ?next "u" = true, B' : contains ?next escapes = true |- _ =>
          apply Ascii.eqb_eq in B; subst next; exact B'
      end.
    + apply IH in H. exact H.
Qed.

(** X25. [extract_string] never answers a text longer than the one it is
    given: an escape sequence and a stripped margin shorten it, and
    nothing is added. *)
Theorem extract_string_never_grows s escapes margin out :
  extract_string s escapes margin = Ok out -> length out <= length s.
Proof. apply extract_from_length. Qed.

(** X26. The only error of [extract_string] is the one about Unicode
    escape sequences, which needs [u] in the escape list: with an escape
    list that has no [u], every text is extracted. *)
Theorem extract_string_raises_for_unicode_only s escapes margin :
  (forall e, extract_string s escapes margin = Raise e ->
     e = unicode_escapes_not_supported /\ contains "u" escapes = true) /\
  (contains "u" escapes = false -> is_ok (extract_string s escapes margin) = true).
Proof.
  split.
  - intros e. apply extract_from_raise.
  - intros Hu. destruct (extract_string s escapes margin) as [out | e] eqn:H;
      [reflexivity |].
    apply extract_from_raise in H. destruct H as [_ H]. congruence.
Qed.

Lemma extract_margin_spaces margin k rest :
  extract_string_from [] margin 0 k (replicate k " "%char ++ rest)
  = extract_string_from [] margin 0 0 rest.
Proof.
  induction k as [| k IH]; [reflexivity |].
  cbn [replicate app extract_string_from].
  replace (0 <? S k) with true by reflexivity.
  cbn [andb is_space]. cbn -[extract_string_from Nat.sub].
  replace (S k - 1) with k by lia. exact IH.
Qed.

Lemma extract_line margin line rest :
  ~ In newline line ->
  extract_string_from [] margin 0 0 (line ++ newline :: rest)
  = let* out := extract_string_from [] margin 0 margin rest in
    Ok (line ++ newline :: out)%list.
Proof.
  induction line as [| c line IH]; intros Hline.
  - cbn [app extract_string_from]. cbv zeta.
    replace (0 <? 0) with false by reflexivity. cbn [andb].
    replace (bool_decide (@nil ascii = [])) with true by reflexivity.
    rewrite andb_false_r. rewrite Ascii.eqb_refl. reflexivity.
  - cbn [app extract_string_from]. cbv zeta.
    replace (0 <? 0) with false by reflexivity. cbn [andb].
    replace (bool_decide (@nil ascii = [])) with true by reflexivity.
    rewrite andb_false_r.
    replace (Ascii.eqb c newline) with false
      by (symmetry; apply Ascii.eqb_neq; intros ->; apply Hline; left; reflexivity).
    rewrite IH by (intros Hin; apply Hline; right; exact Hin).
    destruct (extract_string_from [] margin 0 margin rest); reflexivity.
Qed.

Lemma extract_indented margin lines :
  Forall (fun line => ~ In newline line) lines ->
  extract_string_from [] margin 0 margin
    (concat (map (fun line => replicate margin " "%char ++ line ++ [newline]) lines))
  = Ok (concat (map (fun line => line ++ [newline]) lines))%list.
Proof.
  induction 1 as [| line rest Hline _ IH]; cbn [map concat].
  - destruct margin; reflexivity.
  - rewrite <- !app_assoc. rewrite extract_margin_spaces.
    cbn [app]. rewrite extract_line by exact Hline.
    rewrite IH. reflexivity.
Qed.

(** X27. Stripping a margin: of a text whose lines all begin with as many
    spaces as the margin is wide, [extract_string] without escapes answers
    the lines without these spaces; what follows the margin on a line,
    more spaces too, is kept. *)
Theorem extract_string_strips_margin margin lines :
  Forall (fun line => ~ In newline line) lines ->
  extract_string
    (concat (map (fun line => replicate margin " "%char ++ line ++ [newline]) lines))
    [] margin
  = Ok (concat (map (fun line => line ++ [newline]) lines))%list.
Proof. apply extract_indented. Qed.

Lemma extract_string_strips_margin_witness :
  extract_string (list_ascii_of_string "    a" ++ [newline]
                    ++ list_ascii_of_string "  b" ++ [newline])%list [] 2
  = Ok (list_ascii_of_string "  a" ++ [newline]
          ++ list_ascii_of_string "b" ++ [newline])%list.
Proof.
  apply (extract_string_strips_margin 2
           [list_ascii_of_string "  a"; list_ascii_of_string "b"]).
  repeat constructor; cbn; unfold newline; intros H;
    repeat (destruct H as [H | H]; [discriminate |]); exact H.
Defined.

Lemma extract_string_never_grows_witness :
  length [tab] <= length (list_ascii_of_string "\t").
Proof.
  apply (extract_string_never_grows (list_ascii_of_string "\t")
           (list_ascii_of_string "t\") 0 [tab]).
  reflexivity.
Defined.

End ExtractFacts.

Section HeredocFacts.
Import Lexer.
Local Open Scope nat_scope.

Lemma concat_split_lines s : concat (split_lines s) = s.
Proof.
  induction s as [| c rest IH]; [reflexivity |].
  cbn [split_lines]. destruct (Ascii.eqb c newline).
  - cbn. rewrite IH. reflexivity.
  - destruct (split_lines rest) as [| line others]; cbn in *; rewrite <- IH; reflexivity.
Qed.

Lemma skip_spaces_suffix s : exists pre, s = (pre ++ snd (skip_spaces s))%list.
Proof.
  induction s as [| c rest [pre IH]]; [exists []; reflexivity |].
  cbn [skip_spaces]. destruct (is_space c).
  - destruct (skip_spaces rest) as [width after]. cbn [snd] in *.
    exists (c :: pre). cbn. rewrite <- IH. reflexivity.
  - exists []. reflexivity.
Qed.

Lemma match_tag_found tag : forall s rest,
  match_tag tag s = (true, rest) -> s = (tag ++ rest)%list.
Proof.
  induction tag as [| t tag IH]; intros s rest H; cbn in H.
  - injection H as <-. reflexivity.
  - destruct s as [| c s']; [discriminate |].
    destruct (Ascii.eqb_spec t c) as [<- |]; [| discriminate].
    cbn. f_equal. apply IH. exact H.
Qed.

(** A line that is taken for the end tag holds the tag. *)
Lemma scan_line_end_tag tag line st st' :
  scan_line tag line st = (end_tag, st') ->
  exists before after, line = (before ++ tag ++ after)%list.
Proof.
  unfold scan_line.
  destruct (skip_spaces_suffix line) as [pre1 H1].
  destruct (skip_spaces line) as [width r1]. cbn [snd] in H1.
  destruct r1 as [| c1 t1]; [discriminate |].
  set (r2 := if Ascii.eqb c1 "|" then snd (skip_spaces t1) else c1 :: t1).
  assert (H2 : exists pre2, (c1 :: t1) = (pre2 ++ r2)%list).
  { subst r2. destruct (Ascii.eqb c1 "|").
    - destruct (skip_spaces_suffix t1) as [pre Hpre].
      exists (c1 :: pre). cbn. rewrite <- Hpre. reflexivity.
    - exists []. reflexivity. }
  destruct H2 as [pre2 H2]. clearbody r2.
  destruct r2 as [| c2 t2]; [discriminate |].
  set (r3 := if Ascii.eqb c2 "-" then snd (skip_spaces t2) else c2 :: t2).
  assert (H3 : exists pre3, (c2 :: t2) = (pre3 ++ r3)%list).
  { subst r3. destruct (Ascii.eqb c2 "-").
    - destruct (skip_spaces_suffix t2) as [pre Hpre].
      exists (c2 :: pre). cbn. rewrite <- Hpre. reflexivity.
    - exists []. reflexivity. }
  destruct H3 as [pre3 H3]. clearbody r3.
  destruct r3 as [| c3 t3]; [discriminate |].
  destruct (match_tag tag (c3 :: t3)) as [found r4] eqn:Htag.
  destruct found; [| discriminate].
  intros _. apply match_tag_found in Htag.
  exists (pre1 ++ pre2 ++ pre3)%list, r4.
  rewrite H1, H2, H3, Htag, <- !app_assoc. reflexivity.
Qed.

Lemma find_end_tag_partition tag lines : forall doc st doc' st' rest,
  find_end_tag tag lines doc st = Ok (doc', st', rest) ->
  exists body line,
    lines = (body ++ line :: rest)%list /\ doc' = (doc ++ concat body)%list /\
    exists before after, line = (before ++ tag ++ after)%list.
Proof.
  induction lines as [| line others IH]; intros doc st doc' st' rest H; cbn in H;
    [discriminate |].
  destruct (scan_line tag line st) as [[| |] st1] eqn:Hscan; [discriminate | |].
  - injection H as <- <- <-. exists [], line. cbn. rewrite app_nil_r.
    repeat split. eapply scan_line_end_tag. exact Hscan.
  - apply IH in H. destruct H as (body & l & -> & -> & Htag).
    exists (line :: body), l. cbn. rewrite <- app_assoc. repeat split. exact Htag.
Qed.

Lemma find_end_tag_raise tag lines : forall doc st e,
  find_end_tag tag lines doc st = Raise e -> e = unexpected_end_of_input tag.
Proof.
  induction lines as [| line others IH]; intros doc st e H; cbn in H.
  - congruence.
  - destruct (scan_line tag line st) as [[| |] st1]; [congruence | discriminate |].
    eapply IH. exact H.
Qed.

Lemma drop_last_length c s : length (drop_last c s) <= length s.
Proof.
  unfold drop_last. destruct (last s) as [l |]; [| lia].
  destruct (Ascii.eqb l c); [| lia].
  destruct s as [| x s'] using rev_ind; [cbn; lia |].
  rewrite removelast_last, length_app. lia.
Qed.

(** What a heredoc that is parsed is made of. *)
Lemma parse_heredoc_parts tag escapes input h :
  parse_heredoc tag escapes input = Ok h ->
  exists doc line,
    input = (doc ++ line ++ next h)%list /\
    length (token_text h) <= length doc /\
    exists before after, line = (before ++ tag ++ after)%list.
Proof.
  unfold parse_heredoc.
  destruct (find_end_tag tag (split_lines input) [] _) as [[[doc st] rest] |] eqn:Hfind;
    [| discriminate].
  cbn [bind].
  destruct (extract_string doc escapes _) as [extracted |] eqn:Hextract; [| discriminate].
  cbn [bind]. intros [= <-]. cbn [token_text next].
  apply find_end_tag_partition in Hfind.
  destruct Hfind as (body & line & Hlines & Hdoc & Htag). cbn in Hdoc.
  exists doc, line. repeat split.
  - rewrite <- (concat_split_lines input), Hlines, concat_app, Hdoc. reflexivity.
  - apply extract_from_length in Hextract.
    destruct (remove_break st); [| exact Hextract].
    etransitivity; [apply drop_last_length |].
    etransitivity; [apply drop_last_length | exact Hextract].
  - exact Htag.
Qed.

(** X28. A heredoc that is parsed splits the input after the opening
    line in three: the body, the line of the end tag, which holds the tag,
    and the input that is lexed next; no character of the input is lost,
    and the text of the token is no longer than the body. *)
Theorem parse_heredoc_splits_input tag escapes input h :
  parse_heredoc tag escapes input = Ok h ->
  exists doc line,
    input = (doc ++ line ++ next h)%list /\
    length (token_text h) <= length doc /\
    exists before after, line = (before ++ tag ++ after)%list.
Proof. apply parse_heredoc_parts. Qed.

(** X29. A heredoc whose tag does not occur in the input after the
    opening line is not terminated: parsing it raises the unexpected end
    of input error, whatever the escapes. *)
Theorem parse_heredoc_needs_end_tag tag escapes input :
  (forall before after, input <> (before ++ tag ++ after)%list) ->
  parse_heredoc tag escapes input = Raise (unexpected_end_of_input tag).
Proof.
  intros Hmissing.
  destruct (parse_heredoc tag escapes input) as [h | e] eqn:H.
  - exfalso. apply parse_heredoc_parts in H.
    destruct H as (doc & line & Hinput & _ & before & after & Hline).
    apply (Hmissing (doc ++ before)%list (after ++ next h)%list).
    rewrite Hinput, Hline, <- !app_assoc. reflexivity.
  - unfold parse_heredoc in H.
    destruct (find_end_tag tag (split_lines input) [] _) as [[[doc st] rest] |] eqn:Hfind.
    + exfalso. apply find_end_tag_partition in Hfind.
      destruct Hfind as (body & line & Hlines & _ & before & after & Hline).
      apply (Hmissing (concat body ++ before)%list (after ++ concat rest)%list).
      rewrite <- (concat_split_lines input), Hlines, concat_app. cbn [concat].
      rewrite Hline, <- !app_assoc. reflexivity.
    + cbn in H. injection H as <-. f_equal.
      eapply find_end_tag_raise. exact Hfind.
Qed.

Lemma parse_heredoc_splits_input_witness :
  exists doc line,
    dash_input = (doc ++ line ++ [])%list /\
    length (list_ascii_of_string "- item") <= length doc /\
    exists before after, line = (before ++ list_ascii_of_string "TAG" ++ after)%list.
Proof.
  apply (parse_heredoc_splits_input (list_ascii_of_string "TAG") [] dash_input
           {| token_text := list_ascii_of_string "- item"; next := [] |}).
  vm_compute. reflexivity.
Defined.

(** Two lines of body and a last line that is cut short, none of which
    holds the tag [TAG]: every line is scanned and the end of the input is
    reached. *)
Lemma parse_heredoc_needs_end_tag_witness :
  split_lines unterminated_input
  = [list_ascii_of_string "first" ++ [newline];
     list_ascii_of_string "  | second" ++ [newline];
     list_ascii_of_string "TA"]%list /\
  parse_heredoc (list_ascii_of_string "TAG") [("t")%char] unterminated_input
  = Raise (unexpected_end_of_input (list_ascii_of_string "TAG")).
Proof.
  split; [vm_compute; reflexivity |].
  apply (parse_heredoc_needs_end_tag (list_ascii_of_string "TAG") [("t")%char]
           unterminated_input).
  intros before after H.
  assert (Hin : In ("G")%char unterminated_input).
  { rewrite H. apply in_or_app. right. apply in_or_app. left.
    cbn. right. right. left. reflexivity. }
  vm_compute in Hin.
  repeat (destruct Hin as [Hin | Hin]; [discriminate Hin |]). exact Hin.
Defined.

End HeredocFacts.

Section ReplFacts.
Import Repl.
Context {value exception world : Type}.
Context (undef : value) (name : string).
Context (run : string -> world -> @attempt value exception * world).
Local Open Scope string_scope.
Local Open Scope nat_scope.

Lemma append_newline_nonempty (s : string) : s ++ String "010" "" <> "".
Proof. destruct s; discriminate. Qed.

Lemma complete_invariant multiline (r : repl) :
  1 <= _count r -> 1 <= _line r ->
  let r' := complete name multiline r in
  (_buffer r' = "" <-> _line r' = 1) /\ 1 <= _count r' /\ 1 <= _line r' /\
  _prompt r' = format_prompt name (_count r') (_line r').
Proof.
  intros Hcount Hline. unfold complete. destruct multiline; cbn.
  - repeat split; try lia.
    + intros H. exfalso. exact (append_newline_nonempty _ H).
  - repeat split; lia.
Qed.

Lemma session_invariant (r : repl) :
  session undef name run r ->
  (_buffer r = "" <-> _line r = 1) /\ 1 <= _count r /\ 1 <= _line r /\
  _prompt r = format_prompt name (_count r) (_line r).
Proof.
  induction 1 as [| source_text r w _ (Hbuffer & Hcount & Hline & Hprompt)].
  - cbn. repeat split; auto.
  - unfold evaluate.
    destruct (String.eqb source_text ""); cbn [fst snd].
    + apply complete_invariant; assumption.
    + destruct (run (_buffer r ++ source_text) w) as [[last | offset e | last e] w'].
      * apply complete_invariant; assumption.
      * destruct (offset =? String.length (_buffer r ++ source_text));
          apply complete_invariant; assumption.
      * apply complete_invariant; assumption.
Qed.

(** X30. In a session of the REPL, the prompt always shows the count and
    the line; the buffer is empty exactly on line 1.  A call of [evaluate]
    that answers a result evaluated the buffer with the new text, and
    starts a new statement: the count goes up by one and the line is 1
    again.  A call that answers nothing goes on with the statement on the
    next line, and keeps the text and a line break in the buffer; there is
    one exception, an empty line at a fresh prompt, which answers nothing
    and yet goes up to the next count. *)
Theorem repl_counts_statements source_text (r : repl) w :
  session undef name run r ->
  let step := evaluate undef name run source_text r w in
  let answer := fst (fst step) in
  let r' := snd (fst step) in
  _prompt r' = format_prompt name (_count r') (_line r') /\
  (_buffer r' = "" <-> _line r' = 1) /\
  (forall res, answer = Some res ->
     source res = _buffer r ++ source_text /\
     _count r' = _count r + 1 /\ _line r' = 1) /\
  (answer = None ->
     (_count r' = _count r /\ _line r' = _line r + 1 /\
      _buffer r' = (_buffer r ++ source_text) ++ String "010" "") \/
     (source_text = "" /\ _buffer r = "" /\ _count r' = _count r + 1 /\ _line r' = 1)).
Proof.
  intros Hsession. cbv zeta.
  pose proof (session_invariant _ (session_evaluate undef name run source_text r w Hsession))
    as (Hbuffer & _ & _ & Hprompt).
  split; [exact Hprompt |]. split; [exact Hbuffer |].
  clear Hbuffer Hprompt. unfold evaluate.
  destruct (String.eqb_spec source_text "") as [-> | Hsource]; cbn [fst snd].
  - split; [discriminate |]. intros _. rewrite append_nil_r.
    destruct (String.eqb_spec (_buffer r) "") as [Hempty | Hfull]; cbn.
    + right. auto.
    + left. auto.
  - destruct (run (_buffer r ++ source_text) w) as [[last | offset e | last e] w'];
      cbn [fst snd].
    + split; [intros res [= <-]; cbn; auto | discriminate].
    + destruct (offset =? String.length (_buffer r ++ source_text)); cbn [fst snd].
      * split; [discriminate |]. intros _. left. cbn. auto.
      * split; [intros res [= <-]; cbn; auto | discriminate].
    + split; [intros res [= <-]; cbn; auto | discriminate].
Qed.

End ReplFacts.

Section ReplExamples.
Import Repl.
Local Open Scope string_scope.
Local Open Scope nat_scope.

Lemma repl_counts_statements_witness :
  _prompt (snd (fst (evaluate "" "test" echo "1 + 1" (start "test") tt)))
  = "test:002:1> " /\
  _prompt (start "test") = "test:001:1> ".
Proof.
  split; [| reflexivity].
  destruct (repl_counts_statements "" "test" echo "1 + 1" (start "test") tt
              (session_start "" "test" echo)) as [Hprompt _].
  exact Hprompt.
Defined.

End ReplExamples.
